(** * TreeStore: an indexed forest of parent-referencing records

    Shallow embedding of [src/core/TreeStore.ts] and of the traversal
    [sortTreeItemsDFS] of [src/utils/tree.utils.ts], with the properties of
    the store that the specification states about them.

    Modelling conventions.
    - A [TreeItemId] is [string | number] in the source.  Numeric identifiers
      are modelled as integers; [NaN] (the one number that is not [===] to
      itself) is outside the model.
    - A record is a JavaScript object.  The store never writes to a record's
      fields, so an object is modelled as its address [oid] together with
      its fields; [===] on objects (used by [Array.prototype.indexOf]) is
      equality of such values.
    - [Map]s are [gmap]s.  The arrays held in [items] and [childrenMap] are
      lists.  The arrays of ancestor chains (the entries of
      [parentChainCache] and the copies handed to callers) live in a heap of
      arrays, because the source distinguishes an array from its copy.
    - [while] loops and recursive methods take a [fuel] argument that bounds
      the number of iterations, respectively the recursion depth; [None]
      means that the bound was hit. *)

From stdpp Require Import base option list gmap strings fin_maps fin_sets.
From Stdlib Require Import ZArith Lia.

(** ** Types ([src/types/tree.types.ts]) *)

Inductive TreeItemId : Type :=
  | NumId (n : Z)
  | StrId (s : string).

#[global] Instance TreeItemId_eq_dec : EqDecision TreeItemId.
Proof. solve_decision. Defined.

#[global] Instance TreeItemId_countable : Countable TreeItemId.
Proof.
  refine (inj_countable'
    (λ i, match i with NumId n => inl n | StrId s => inr s end)
    (λ x, match x with inl n => NumId n | inr s => StrId s end) _).
  by intros [].
Defined.

Record ITreeItem : Type := mkItem {
  oid : nat;
  id : TreeItemId;
  parent : option TreeItemId;
  label : string;
}.

#[global] Instance ITreeItem_eq_dec : EqDecision ITreeItem.
Proof. solve_decision. Defined.

(** ** The heap of ancestor-chain arrays *)

Definition loc := nat.

Record Heap : Type := mkHeap {
  cells : gmap loc (list ITreeItem);
  next : loc;
}.

Definition emptyHeap : Heap := {| cells := ∅; next := 0 |}.

(** A new array, as produced by an array literal or a spread [[...a]]. *)
Definition alloc (a : list ITreeItem) (h : Heap) : loc * Heap :=
  (next h, {| cells := <[next h := a]> (cells h); next := S (next h) |}).

(** The array at [l], as a caller holding [l] reads it. *)
Definition read (l : loc) (h : Heap) : option (list ITreeItem) :=
  cells h !! l.

(** An in-place change of the array at [l] by a caller ([reverse], [push],
    [splice], ...). *)
Definition write (l : loc) (f : list ITreeItem → list ITreeItem) (h : Heap) : Heap :=
  {| cells := alter f l (cells h); next := next h |}.

(** ** The store *)

Record TreeStore : Type := mkStore {
  items : list ITreeItem;
  itemsMap : gmap TreeItemId ITreeItem;
  childrenMap : gmap TreeItemId (list ITreeItem);
  parentChainCache : gmap TreeItemId loc;
}.

(** [new TreeStore()] *)
Definition newStore : TreeStore :=
  {| items := []; itemsMap := ∅; childrenMap := ∅; parentChainCache := ∅ |}.

Definition set_items (v : list ITreeItem) (s : TreeStore) : TreeStore :=
  {| items := v; itemsMap := itemsMap s; childrenMap := childrenMap s;
     parentChainCache := parentChainCache s |}.

Definition set_itemsMap (v : gmap TreeItemId ITreeItem) (s : TreeStore) : TreeStore :=
  {| items := items s; itemsMap := v; childrenMap := childrenMap s;
     parentChainCache := parentChainCache s |}.

Definition set_childrenMap (v : gmap TreeItemId (list ITreeItem)) (s : TreeStore) : TreeStore :=
  {| items := items s; itemsMap := itemsMap s; childrenMap := v;
     parentChainCache := parentChainCache s |}.

Definition set_parentChainCache (v : gmap TreeItemId loc) (s : TreeStore) : TreeStore :=
  {| items := items s; itemsMap := itemsMap s; childrenMap := childrenMap s;
     parentChainCache := v |}.

(** The store together with the heap its chain arrays live in. *)
Record World : Type := mkWorld {
  store : TreeStore;
  heap : Heap;
}.

(** [for (const x of xs) body], threading the state the body changes; the
    loop fails as soon as one iteration does. *)
Fixpoint for_of {A S : Type} (xs : list A) (body : A → S → option S) (st : S) : option S :=
  match xs with
  | [] => Some st
  | x :: xs' => st' ← body x st; for_of xs' body st'
  end.

(** [Array.prototype.indexOf]: the first index holding the very same
    object; [None] stands for [-1]. *)
Fixpoint indexOf (x : ITreeItem) (l : list ITreeItem) : option nat :=
  match l with
  | [] => None
  | y :: l' => if decide (y = x) then Some 0 else S <$> indexOf x l'
  end.

(** [Array.prototype.findIndex] *)
Fixpoint findIndex (p : ITreeItem → bool) (l : list ITreeItem) : option nat :=
  match l with
  | [] => None
  | y :: l' => if p y then Some 0 else S <$> findIndex p l'
  end.

(** [a.splice(index, 1)] *)
Definition splice1 (index : nat) (a : list ITreeItem) : list ITreeItem :=
  delete index a.

(** *** Queries *)

Definition getAll (s : TreeStore) : list ITreeItem := items s.

Definition getItem (i : TreeItemId) (s : TreeStore) : option ITreeItem :=
  itemsMap s !! i.

Definition getChildren (i : TreeItemId) (s : TreeStore) : list ITreeItem :=
  default [] (childrenMap s !! i).

Fixpoint getAllChildren (fuel : nat) (i : TreeItemId) (s : TreeStore)
  : option (list ITreeItem) :=
  match fuel with
  | 0 => None
  | S fuel' =>
      let directChildren := getChildren i s in
      for_of directChildren
        (λ child result,
           childDescendants ← getAllChildren fuel' (id child) s;
           Some ((result ++ [child]) ++ childDescendants))
        []
  end.

(** The [while (currentItem)] loop of [getAllParents]. *)
Fixpoint parentChainLoop (fuel : nat) (s : TreeStore)
    (currentItem : option ITreeItem) (result : list ITreeItem)
  : option (list ITreeItem) :=
  match currentItem with
  | None => Some result
  | Some cur =>
      match fuel with
      | 0 => None
      | S fuel' =>
          let result := result ++ [cur] in
          match parent cur with
          | None => Some result
          | Some p => parentChainLoop fuel' s (getItem p s) result
          end
      end
  end.

Definition getAllParents (fuel : nat) (i : TreeItemId) (w : World)
  : option (loc * World) :=
  match parentChainCache (store w) !! i with
  | Some l =>
      cached ← read l (heap w);
      let '(copy, h) := alloc cached (heap w) in
      Some (copy, {| store := store w; heap := h |})
  | None =>
      result ← parentChainLoop fuel (store w) (getItem i (store w)) [];
      let '(l, h) := alloc result (heap w) in
      let s := set_parentChainCache (<[i := l]> (parentChainCache (store w))) (store w) in
      let '(copy, h) := alloc result h in
      Some (copy, {| store := s; heap := h |})
  end.

(** *** Private helpers *)

Fixpoint invalidateParentChainCacheRecursive (fuel : nat) (i : TreeItemId)
    (s : TreeStore) : option TreeStore :=
  match fuel with
  | 0 => None
  | S fuel' =>
      let s := set_parentChainCache (delete i (parentChainCache s)) s in
      let children := getChildren i s in
      for_of children
        (λ child s, invalidateParentChainCacheRecursive fuel' (id child) s) s
  end.

Definition invalidateParentChainCache (fuel : nat) (i : TreeItemId)
    (s : TreeStore) : option TreeStore :=
  invalidateParentChainCacheRecursive fuel i s.

Definition removeFromChildrenMap (parentId childId : TreeItemId)
    (s : TreeStore) : TreeStore :=
  match childrenMap s !! parentId with
  | Some children =>
      match findIndex (λ child, bool_decide (id child = childId)) children with
      | Some index =>
          set_childrenMap (<[parentId := splice1 index children]> (childrenMap s)) s
      | None => s
      end
  | None => s
  end.

(** The first pass of [buildIndexes], one iteration. *)
Definition registerItem (s : TreeStore) (item : ITreeItem) : TreeStore :=
  let s := set_itemsMap (<[id item := item]> (itemsMap s)) s in
  match childrenMap s !! id item with
  | Some _ => s
  | None => set_childrenMap (<[id item := []]> (childrenMap s)) s
  end.

(** The second pass of [buildIndexes], one iteration. *)
Definition linkItem (s : TreeStore) (item : ITreeItem) : TreeStore :=
  match parent item with
  | Some p =>
      match childrenMap s !! p with
      | Some children =>
          set_childrenMap (<[p := children ++ [item]]> (childrenMap s)) s
      | None => set_childrenMap (<[p := [item]]> (childrenMap s)) s
      end
  | None => s
  end.

Definition buildIndexes (s : TreeStore) : TreeStore :=
  let s := {| items := items s; itemsMap := ∅; childrenMap := ∅;
              parentChainCache := ∅ |} in
  let s := foldl registerItem s (items s) in
  foldl linkItem s (items s).

(** *** Mutations *)

Definition update (newItems : list ITreeItem) (s : TreeStore) : TreeStore :=
  buildIndexes (set_items newItems s).

Definition addItem (fuel : nat) (item : ITreeItem) (s : TreeStore)
  : option TreeStore :=
  let s := set_items (items s ++ [item]) s in
  let s := set_itemsMap (<[id item := item]> (itemsMap s)) s in
  s ← match parent item with
      | Some p =>
          let siblings := default [] (childrenMap s !! p) in
          let siblings := siblings ++ [item] in
          let s := set_childrenMap (<[p := siblings]> (childrenMap s)) s in
          invalidateParentChainCache fuel p s
      | None => Some s
      end;
  match childrenMap s !! id item with
  | Some _ => Some s
  | None => Some (set_childrenMap (<[id item := []]> (childrenMap s)) s)
  end.

(** One iteration of the removal loop of [removeItem]. *)
Definition removeOne (s : TreeStore) (itemToRemove : ITreeItem) : TreeStore :=
  let s := match indexOf itemToRemove (items s) with
           | Some index => set_items (splice1 index (items s)) s
           | None => s
           end in
  let s := set_itemsMap (delete (id itemToRemove) (itemsMap s)) s in
  let s := set_childrenMap (delete (id itemToRemove) (childrenMap s)) s in
  set_parentChainCache (delete (id itemToRemove) (parentChainCache s)) s.

Definition removeItem (fuel : nat) (i : TreeItemId) (s : TreeStore)
  : option (bool * TreeStore) :=
  match getItem i s with
  | None => Some (false, s)
  | Some item =>
      allChildren ← getAllChildren fuel i s;
      let itemsToRemove := item :: allChildren in
      let s := foldl removeOne s itemsToRemove in
      match parent item with
      | Some p =>
          let s := removeFromChildrenMap p i s in
          s ← invalidateParentChainCache fuel p s;
          Some (true, s)
      | None => Some (true, s)
      end
  end.

Definition updateItem (fuel : nat) (updatedItem : ITreeItem) (s : TreeStore)
  : option (bool * TreeStore) :=
  match getItem (id updatedItem) s with
  | None => Some (false, s)
  | Some existingItem =>
      let oldParent := parent existingItem in
      let newParent := parent updatedItem in
      let parentChanged := bool_decide (oldParent ≠ newParent) in
      let s := match indexOf existingItem (items s) with
               | Some index => set_items (<[index := updatedItem]> (items s)) s
               | None => s
               end in
      let s := set_itemsMap (<[id updatedItem := updatedItem]> (itemsMap s)) s in
      if parentChanged then
        s ← match oldParent with
            | Some op =>
                let s := removeFromChildrenMap op (id updatedItem) s in
                invalidateParentChainCache fuel op s
            | None => Some s
            end;
        s ← match newParent with
            | Some np =>
                let siblings := default [] (childrenMap s !! np) in
                let siblings := siblings ++ [updatedItem] in
                let s := set_childrenMap (<[np := siblings]> (childrenMap s)) s in
                invalidateParentChainCache fuel np s
            | None => Some s
            end;
        s ← invalidateParentChainCacheRecursive fuel (id updatedItem) s;
        Some (true, s)
      else Some (true, s)
  end.

(** ** Derivations and traversal ([src/utils/tree.utils.ts]) *)

Inductive TreeItemCategory : Type := Group | Element.

Definition determineCategory (item : ITreeItem) (treeStore : TreeStore)
  : TreeItemCategory :=
  let children := getChildren (id item) treeStore in
  if decide (0 < length children) then Group else Element.

(** [parents.reverse()] reverses the array it is called on, in place. *)
Definition getItemPath (fuel : nat) (item : ITreeItem) (w : World)
  : option (list string * World) :=
  match getAllParents fuel (id item) w with
  | Some (parents, w) =>
      let h := write parents reverse (heap w) in
      match read parents h with
      | Some reversed =>
          Some (label <$> reversed, {| store := store w; heap := h |})
      | None => None
      end
  | None => None
  end.

Definition getItemLevel (fuel : nat) (item : ITreeItem) (w : World)
  : option (Z * World) :=
  match getAllParents fuel (id item) w with
  | Some (parents, w) =>
      match read parents (heap w) with
      | Some a => Some ((Z.of_nat (length a) - 1)%Z, w)
      | None => None
      end
  | None => None
  end.

(** The local function [traverse] of [sortTreeItemsDFS]; the state is the
    pair of the closure's [visited] and [result]. *)
Fixpoint traverse (fuel : nat) (treeStore : TreeStore) (itemId : TreeItemId)
    (st : gset TreeItemId * list ITreeItem)
  : option (gset TreeItemId * list ITreeItem) :=
  match fuel with
  | 0 => None
  | S fuel' =>
      let '(visited, result) := st in
      if decide (itemId ∈ visited) then Some st
      else
        match getItem itemId treeStore with
        | None => Some st
        | Some item =>
            let st := (visited ∪ {[itemId]}, result ++ [item]) in
            let children := getChildren itemId treeStore in
            for_of children
              (λ child st, traverse fuel' treeStore (id child) st) st
        end
  end.

Definition sortTreeItemsDFS (fuel : nat) (allItems : list ITreeItem)
    (treeStore : TreeStore) : option (list ITreeItem) :=
  let rootItems :=
    filter (λ item : ITreeItem, parent item = None) allItems in
  st ← for_of rootItems
         (λ rootItem st, traverse fuel treeStore (id rootItem) st) (∅, []);
  Some st.2.

(** ** Notions of the specification *)

(** The ancestor chain of [k]: the record stored under [k], then the chain
    of its parent, up to a root or to a parent identifier that resolves to
    no stored record; empty when [k] itself is unknown. *)
Inductive chain (s : TreeStore) : TreeItemId → list ITreeItem → Prop :=
  | chain_unknown k :
      getItem k s = None → chain s k []
  | chain_root k x :
      getItem k s = Some x → parent x = None → chain s k [x]
  | chain_step k x p c :
      getItem k s = Some x → parent x = Some p → chain s p c →
      chain s k (x :: c).

(** Parent links are acyclic when the identifiers can be ranked so that
    every stored record ranks strictly below the parent it names. *)
Definition acyclic (s : TreeStore) : Prop :=
  ∃ rank : TreeItemId → nat,
    ∀ k x p, getItem k s = Some x → parent x = Some p → rank k < rank p.

(** The id index and the children index describe the same forest, with
    every identifier used once. *)
Record consistent (s : TreeStore) : Prop := mkConsistent {
  map_ids : ∀ k x, getItem k s = Some x → id x = k;
  children_sound : ∀ p c, c ∈ getChildren p s →
    ∃ x, getItem (id c) s = Some x ∧ parent x = Some p;
  children_complete : ∀ k x p, getItem k s = Some x → parent x = Some p →
    ∃ c, c ∈ getChildren p s ∧ id c = k;
  children_nodup : ∀ p, NoDup (id <$> getChildren p s);
}.

(** Every cached chain is an array of the heap, allocated in the past. *)
Definition cache_allocated (w : World) : Prop :=
  ∀ i l, parentChainCache (store w) !! i = Some l →
    is_Some (read l (heap w)) ∧ l < next (heap w).

(** What a caller of [getAllParents] observes: the contents of the array
    it is handed. *)
Definition chainOf (fuel : nat) (i : TreeItemId) (w : World)
  : option (list ITreeItem) :=
  match getAllParents fuel i w with
  | Some (l, w') => read l (heap w')
  | None => None
  end.

(** A caller changes, in place, an array it holds. *)
Definition callerWrites (l : loc) (f : list ITreeItem → list ITreeItem)
    (w : World) : World :=
  {| store := store w; heap := write l f (heap w) |}.

(** Pre-order listing of the subtree under [k], without a visited set:
    the record stored under [k], then the listing of each child in
    children-list order. *)
Fixpoint preorder (fuel : nat) (s : TreeStore) (k : TreeItemId)
  : option (list ITreeItem) :=
  match fuel with
  | 0 => None
  | S fuel' =>
      match getItem k s with
      | None => Some []
      | Some x =>
          sub ← mapM (λ c, preorder fuel' s (id c)) (getChildren k s);
          Some (x :: concat sub)
      end
  end.

(** The roots of the input sequence in their given order, each followed
    by the pre-order listing of its subtree. *)
Definition depthFirstOrder (fuel : nat) (allItems : list ITreeItem)
    (s : TreeStore) : option (list ITreeItem) :=
  sub ← mapM (λ r, preorder fuel s (id r))
        (filter (λ item : ITreeItem, parent item = None) allItems);
  Some (concat sub).

(** [below s k d]: [d] is [k] or is reached from [k] through children
    lists, i.e. [d] lies in the subtree the children index hangs under [k]. *)
Inductive below (s : TreeStore) : TreeItemId → TreeItemId → Prop :=
  | below_self k : below s k k
  | below_child k c d :
      c ∈ getChildren k s → below s (id c) d → below s k d.

(** [s'] differs from [s] at most by cache entries that were dropped. *)
Definition invalidated (s s' : TreeStore) : Prop :=
  items s' = items s ∧ itemsMap s' = itemsMap s ∧
  childrenMap s' = childrenMap s ∧
  ∀ i l, parentChainCache s' !! i = Some l → parentChainCache s !! i = Some l.

(** What [removeFromChildrenMap] makes of a children list: the first
    entry with identifier [c] is spliced out. *)
Definition unlinked (c : TreeItemId) (l : list ITreeItem) : list ITreeItem :=
  match findIndex (λ child, bool_decide (id child = c)) l with
  | Some index => splice1 index l
  | None => l
  end.

(** The children index descends along [rank]. *)
Definition ranked (rank : TreeItemId → nat) (s : TreeStore) : Prop :=
  ∀ p c, c ∈ getChildren p s → rank (id c) < rank p.

(** The first effect of [updateItem]: the new record takes the place of
    the stored one in the canonical sequence and in the id index. *)
Definition replaceStored (u e : ITreeItem) (s : TreeStore) : TreeStore :=
  set_itemsMap (<[id u := u]> (itemsMap s))
    (match indexOf e (items s) with
     | Some index => set_items (<[index := u]> (items s)) s
     | None => s
     end).

(** ** Example data (the fixtures of the test suites) *)

Definition item (o : nat) (i : Z) (p : option Z) (l : string) : ITreeItem :=
  {| oid := o; id := NumId i; parent := NumId <$> p; label := l |}.

Definition mockItems : list ITreeItem :=
  [ item 0 1 None "Root";
    item 1 2 (Some 1%Z) "Child 1";
    item 2 3 (Some 1%Z) "Child 2";
    item 3 4 (Some 2%Z) "Grandchild 1";
    item 4 5 (Some 2%Z) "Grandchild 2";
    item 5 6 (Some 3%Z) "Grandchild 3" ].

Definition multiRootItems : list ITreeItem :=
  [ item 0 1 None "Root 1";
    item 1 2 None "Root 2";
    item 2 3 (Some 1%Z) "Child of Root 1";
    item 3 4 (Some 2%Z) "Child of Root 2" ].

Definition mockStore : TreeStore := update mockItems newStore.

(** Two records naming each other as parent. *)
Definition cyclicItems : list ITreeItem :=
  [ item 0 1 (Some 2%Z) "A"; item 1 2 (Some 1%Z) "B" ].

Definition cyclicStore : TreeStore := update cyclicItems newStore.

Definition mockRank (k : TreeItemId) : nat :=
  match k with
  | NumId n => Z.to_nat (10 - n)
  | StrId _ => 0
  end.

(** ** Further derivations ([src/utils/tree.utils.ts]) *)

(** The object built by [enrichTreeItem]: the fields copied from the
    record by the spread, and the four computed fields. *)
Record ITreeItemWithCategory : Type := mkEnriched {
  e_id : TreeItemId;
  e_parent : option TreeItemId;
  e_label : string;
  category : TreeItemCategory;
  hasChildren : bool;
  path : list string;
  level : Z;
}.

Definition enrichTreeItem (fuel : nat) (item : ITreeItem) (w : World)
  : option (ITreeItemWithCategory * World) :=
  let hasChildren :=
    bool_decide (0 < length (getChildren (id item) (store w))) in
  let category := determineCategory item (store w) in
  match getItemPath fuel item w with
  | Some (path, w) =>
      match getItemLevel fuel item w with
      | Some (level, w) =>
          Some ({| e_id := id item; e_parent := parent item;
                   e_label := label item; category := category;
                   hasChildren := hasChildren; path := path;
                   level := level |}, w)
      | None => None
      end
  | None => None
  end.

(** [items.map((item) => enrichTreeItem(item, treeStore))] *)
Fixpoint convertToAgGridFormat (fuel : nat) (allItems : list ITreeItem)
    (w : World) : option (list ITreeItemWithCategory * World) :=
  match allItems with
  | [] => Some ([], w)
  | item :: rest =>
      match enrichTreeItem fuel item w with
      | Some (e, w) =>
          match convertToAgGridFormat fuel rest w with
          | Some (es, w) => Some (e :: es, w)
          | None => None
          end
      | None => None
      end
  end.

(** ** Further notions *)

(** Every record of the id index is an entry of the canonical sequence. *)
Definition listed (s : TreeStore) : Prop :=
  ∀ k x, getItem k s = Some x → x ∈ items s.

(** Every cached array holds records with the identifiers of the ancestor
    chain of its key. *)
Definition coherent (w : World) : Prop :=
  ∀ i l, parentChainCache (store w) !! i = Some l →
    ∃ a c, read l (heap w) = Some a ∧ chain (store w) i c ∧
           id <$> a = id <$> c.

(** The world a test starts from: the fixture in a store, nothing read. *)
Definition mockWorld : World := {| store := mockStore; heap := emptyHeap |}.

(** How the state [(visited, result)] of the traversal evolves: if
    [visited] is the set of identifiers of [result] and no identifier is
    listed twice, this is still so afterwards, and [result] has grown at its
    end by stored records. *)
Definition extends (s : TreeStore) (a b : gset TreeItemId * list ITreeItem) : Prop :=
  a.1 = list_to_set (id <$> a.2) → NoDup (id <$> a.2) →
  b.1 = list_to_set (id <$> b.2) ∧ NoDup (id <$> b.2) ∧
  ∃ added, b.2 = a.2 ++ added ∧ ∀ y, y ∈ added → getItem (id y) s = Some y.

(** The first effect of [addItem]: the record is appended to the canonical
    sequence and entered in the id index. *)
Definition appended (x : ITreeItem) (s : TreeStore) : TreeStore :=
  set_itemsMap (<[id x := x]> (itemsMap s)) (set_items (items s ++ [x]) s).

(** The last effect of [addItem]: an empty children list for the record,
    unless a list is registered under its identifier. *)
Definition withOwnList (x : ITreeItem) (s : TreeStore) : TreeStore :=
  match childrenMap s !! id x with
  | Some _ => s
  | None => set_childrenMap (<[id x := []]> (childrenMap s)) s
  end.

(** The fixture after the chain of 4 was read once: the chain is cached
    in one array, and the caller holds a copy in another. *)
Definition readWorld : World :=
  let c := [ item 3 4 (Some 2%Z) "Grandchild 1";
             item 1 2 (Some 1%Z) "Child 1";
             item 0 1 None "Root" ] in
  {| store := set_parentChainCache (<[NumId 4 := 0]> ∅) mockStore;
     heap := {| cells := <[1 := c]> (<[0 := c]> ∅); next := 2 |} |}.

(** ** Basic facts about the helpers *)

Section Loops.
Context {A S : Type}.
Implicit Types (xs : list A) (body : A → S → option S).

Lemma for_of_app xs ys body st :
  for_of (xs ++ ys) body st = for_of xs body st ≫= for_of ys body.
Proof.
  revert st. induction xs as [|x xs IH]; intros st; simpl; [done|].
  destruct (body x st) as [st'|]; simpl; [apply IH|done].
Qed.

(** A reflexive and transitive relation that every iteration respects is
    respected by the loop. *)
Lemma for_of_preserves (R : S → S → Prop) xs body st st' :
  (∀ a, R a a) →
  (∀ a b c, R a b → R b c → R a c) →
  (∀ x a b, x ∈ xs → body x a = Some b → R a b) →
  for_of xs body st = Some st' → R st st'.
Proof.
  intros Hrefl Htrans. revert st.
  induction xs as [|x xs IH]; intros st Hbody Hrun; simpl in Hrun.
  - inversion Hrun; subst. apply Hrefl.
  - destruct (body x st) as [st1|] eqn:Hx; simpl in Hrun; [|done].
    apply (Htrans _ st1).
    + apply (Hbody x); [left|done].
    + apply IH; [|done]. intros y a b Hy. apply Hbody. by right.
Qed.

(** Bodies that agree on the elements of the list give the same loop. *)
Lemma for_of_ext xs body1 body2 st :
  (∀ x a, x ∈ xs → body1 x a = body2 x a) →
  for_of xs body1 st = for_of xs body2 st.
Proof.
  revert st. induction xs as [|x xs IH]; intros st Hb; simpl; [done|].
  rewrite (Hb x st) by left.
  destruct (body2 x st) as [st'|]; simpl; [|done].
  apply IH. intros y a Hy. apply Hb. by right.
Qed.
End Loops.

Lemma indexOf_Some x l i : indexOf x l = Some i → l !! i = Some x.
Proof.
  revert i. induction l as [|y l IH]; intros i; simpl; [done|].
  destruct (decide (y = x)) as [->|Hne].
  - by intros [= <-].
  - destruct (indexOf x l) as [j|]; simpl; [|done].
    intros [= <-]. simpl. by apply IH.
Qed.

Lemma indexOf_None x l : indexOf x l = None → x ∉ l.
Proof.
  induction l as [|y l IH]; simpl; [intros _; apply not_elem_of_nil|].
  destruct (decide (y = x)) as [->|Hne]; [done|].
  destruct (indexOf x l) as [j|]; simpl; [done|].
  intros _ Hin. apply elem_of_cons in Hin as [->|Hin]; [done|]. by apply IH.
Qed.

Lemma indexOf_first x l i j y :
  indexOf x l = Some i → j < i → l !! j = Some y → y ≠ x.
Proof.
  revert i j. induction l as [|z l IH]; intros i j; simpl; [done|].
  destruct (decide (z = x)) as [->|Hne].
  - intros [= <-]. lia.
  - destruct (indexOf x l) as [i'|] eqn:Hi; simpl; [|done].
    intros [= <-] Hlt. destruct j as [|j]; simpl.
    + by intros [= <-].
    + apply (IH i' j); [done|lia].
Qed.

Lemma findIndex_Some p l i :
  findIndex p l = Some i →
  ∃ y, l !! i = Some y ∧ p y = true ∧ ∀ j z, j < i → l !! j = Some z → p z = false.
Proof.
  revert i. induction l as [|y l IH]; intros i; simpl; [done|].
  destruct (p y) eqn:Hp.
  - intros [= <-]. exists y. split_and!; [done|done|]. intros; lia.
  - destruct (findIndex p l) as [j|]; simpl; [|done].
    intros [= <-]. destruct (IH j eq_refl) as (z & Hz & Hpz & Hbefore).
    exists z. split_and!; [done|done|].
    intros [|k] w Hk; simpl; [by intros [= <-]|].
    apply Hbefore. lia.
Qed.

Lemma findIndex_None p l : findIndex p l = None → ∀ y, y ∈ l → p y = false.
Proof.
  induction l as [|z l IH]; simpl; intros Hf y Hy.
  - by apply elem_of_nil in Hy.
  - destruct (p z) eqn:Hp; [done|].
    destruct (findIndex p l) as [j|]; simpl in Hf; [done|].
    apply elem_of_cons in Hy as [->|Hy]; [done|]. by apply IH.
Qed.

Section Loops_more.
Context {A S : Type}.
Implicit Types (xs : list A) (body : A → S → option S).

(** What an iteration establishes, and later iterations keep, holds at
    the end for every element. *)
Lemma for_of_establishes (R : S → S → Prop) (Q : A → S → Prop) xs body st st' :
  (∀ a, R a a) →
  (∀ a b c, R a b → R b c → R a c) →
  (∀ x a b, x ∈ xs → R st a → body x a = Some b → R a b ∧ Q x b) →
  (∀ x a b, Q x a → R a b → Q x b) →
  for_of xs body st = Some st' →
  R st st' ∧ ∀ x, x ∈ xs → Q x st'.
Proof.
  intros Hrefl Htrans. revert st.
  induction xs as [|x xs IH]; intros st Hbody Hkeep Hrun; simpl in Hrun.
  - inversion Hrun; subst. split; [apply Hrefl|].
    intros x Hx. by apply elem_of_nil in Hx.
  - destruct (body x st) as [st1|] eqn:Hx; simpl in Hrun; [|done].
    destruct (Hbody x st st1) as [HR HQ]; [left|apply Hrefl|done|].
    destruct (IH st1) as [HR' HQ']; [|done|done|].
    { intros y a b Hy Ha. apply Hbody; [by right|]. by apply (Htrans _ st1). }
    split; [by apply (Htrans _ st1)|].
    intros y Hy. apply elem_of_cons in Hy as [->|Hy]; [|by apply HQ'].
    by apply (Hkeep _ st1).
Qed.

(** A loop whose iterations all succeed under an invariant succeeds. *)
Lemma for_of_is_Some (I : S → Prop) xs body st :
  I st →
  (∀ x a, x ∈ xs → I a → ∃ b, body x a = Some b ∧ I b) →
  ∃ st', for_of xs body st = Some st' ∧ I st'.
Proof.
  revert st. induction xs as [|x xs IH]; intros st HI Hbody; simpl.
  - by exists st.
  - destruct (Hbody x st) as (st1 & -> & HI1); [left|done|]. simpl.
    apply IH; [done|]. intros y a Hy. apply Hbody. by right.
Qed.
End Loops_more.

Lemma invalidated_refl s : invalidated s s.
Proof. by repeat split. Qed.

Lemma invalidated_trans a b c : invalidated a b → invalidated b c → invalidated a c.
Proof.
  intros (Hi1 & Hm1 & Hc1 & Hp1) (Hi2 & Hm2 & Hc2 & Hp2).
  repeat split; [congruence..|]. intros i l Hl. by apply Hp1, Hp2.
Qed.

Lemma invalidated_getChildren s s' k :
  invalidated s s' → getChildren k s' = getChildren k s.
Proof. intros (_ & _ & Hc & _). unfold getChildren. by rewrite Hc. Qed.

Lemma invalidated_getItem s s' k :
  invalidated s s' → getItem k s' = getItem k s.
Proof. intros (_ & Hm & _ & _). unfold getItem. by rewrite Hm. Qed.

Lemma invalidated_cache_None s s' d :
  invalidated s s' → parentChainCache s !! d = None → parentChainCache s' !! d = None.
Proof.
  intros (_ & _ & _ & Hp) Hd.
  destruct (parentChainCache s' !! d) as [l|] eqn:Hl; [|done].
  apply Hp in Hl. congruence.
Qed.

Lemma below_same_children s s' k d :
  (∀ p, getChildren p s' = getChildren p s) → below s k d → below s' k d.
Proof.
  intros Hsame. induction 1 as [k|k c d Hc _ IH]; [constructor|].
  apply (below_child _ _ c); [by rewrite Hsame|done].
Qed.

(** Invalidation drops the cache entries of the whole subtree that the
    children index hangs under [i], and touches nothing else. *)
Lemma invalidate_spec fuel i s s' :
  invalidateParentChainCacheRecursive fuel i s = Some s' →
  invalidated s s' ∧ ∀ d, below s i d → parentChainCache s' !! d = None.
Proof.
  revert i s s'. induction fuel as [|fuel IH]; intros i s s'; simpl; [done|].
  set (s1 := set_parentChainCache (delete i (parentChainCache s)) s).
  assert (Hs1 : invalidated s s1).
  { repeat split. simpl. intros j l Hj.
    apply lookup_delete_Some in Hj. tauto. }
  intros Hrun.
  apply (for_of_establishes invalidated
           (λ c st, ∀ d, below s (id c) d → parentChainCache st !! d = None))
    in Hrun as [Hinv Hsub].
  - split; [by eapply invalidated_trans|].
    intros d Hd. inversion Hd as [|k c d' Hc Hbelow]; subst.
    + eapply invalidated_cache_None; [done|]. simpl. apply lookup_delete_eq.
    + apply (Hsub c); [|done].
      by rewrite (invalidated_getChildren s s1).
  - apply invalidated_refl.
  - apply invalidated_trans.
  - intros c a b Hc Ha Hbody. destruct (IH _ _ _ Hbody) as [Hab Hbelow].
    split; [done|]. intros d Hd. apply Hbelow.
    eapply below_same_children; [|done].
    intros p. apply invalidated_getChildren.
    by apply (invalidated_trans _ s1).
  - intros c a b Ha Hab d Hd.
    eapply invalidated_cache_None; [done|]. by apply Ha.
Qed.

Lemma for_of_impl {A S : Type} (xs : list A) (body1 body2 : A → S → option S) st st' :
  (∀ x a b, x ∈ xs → body1 x a = Some b → body2 x a = Some b) →
  for_of xs body1 st = Some st' → for_of xs body2 st = Some st'.
Proof.
  revert st. induction xs as [|x xs IH]; intros st Hb; simpl; [done|].
  destruct (body1 x st) as [st1|] eqn:Hx; simpl; [|done].
  rewrite (Hb x st st1); [|left|done]. simpl.
  apply IH. intros y a b Hy. apply Hb. by right.
Qed.

(** *** More fuel never changes a result *)

Lemma invalidate_fuel_mono fuel fuel' i s s' :
  invalidateParentChainCacheRecursive fuel i s = Some s' → fuel ≤ fuel' →
  invalidateParentChainCacheRecursive fuel' i s = Some s'.
Proof.
  revert fuel' i s s'. induction fuel as [|fuel IH]; intros fuel' i s s'; simpl; [done|].
  intros Hrun Hle. destruct fuel' as [|fuel']; [lia|]. simpl.
  eapply for_of_impl; [|done].
  intros c a b _ Hc. apply (IH fuel'); [done|lia].
Qed.

Lemma getAllChildren_fuel_mono fuel fuel' i s r :
  getAllChildren fuel i s = Some r → fuel ≤ fuel' →
  getAllChildren fuel' i s = Some r.
Proof.
  revert fuel' i r. induction fuel as [|fuel IH]; intros fuel' i r; simpl; [done|].
  intros Hrun Hle. destruct fuel' as [|fuel']; [lia|]. simpl.
  eapply for_of_impl; [|done].
  intros c a b _. simpl.
  destruct (getAllChildren fuel (id c) s) as [d|] eqn:Hd; simpl; [|done].
  intros [= <-]. rewrite (IH fuel' _ d); [done|done|lia].
Qed.

(** *** Termination on ranked children lists *)

Lemma invalidate_terminates (rank : TreeItemId → nat) s :
  (∀ p c, c ∈ getChildren p s → rank (id c) < rank p) →
  ∀ fuel i a, invalidated s a → rank i < fuel →
    ∃ b, invalidateParentChainCacheRecursive fuel i a = Some b.
Proof.
  intros Hrank fuel. induction fuel as [|fuel IH]; intros i a Ha Hlt; [lia|].
  simpl.
  set (a1 := set_parentChainCache (delete i (parentChainCache a)) a).
  assert (Ha1 : invalidated s a1).
  { eapply invalidated_trans; [done|]. repeat split. simpl. intros j l Hj.
    apply lookup_delete_Some in Hj. tauto. }
  destruct (for_of_is_Some (invalidated s) (getChildren i a1)
              (λ child st, invalidateParentChainCacheRecursive fuel (id child) st) a1)
    as (b & Hb & _); [done| |by exists b].
  intros c st Hc Hst.
  rewrite (invalidated_getChildren s a1) in Hc by done.
  destruct (IH (id c) st) as [b Hb]; [done|specialize (Hrank i c Hc); lia|].
  exists b. split; [done|].
  eapply invalidated_trans; [done|]. by apply (invalidate_spec fuel (id c)).
Qed.

Lemma getAllChildren_terminates (rank : TreeItemId → nat) s :
  (∀ p c, c ∈ getChildren p s → rank (id c) < rank p) →
  ∀ fuel i, rank i < fuel → is_Some (getAllChildren fuel i s).
Proof.
  intros Hrank fuel. induction fuel as [|fuel IH]; intros i Hlt; [lia|].
  simpl.
  destruct (for_of_is_Some (λ _, True) (getChildren i s)
              (λ child result,
                 childDescendants ← getAllChildren fuel (id child) s;
                 Some ((result ++ [child]) ++ childDescendants)) [])
    as (r & Hr & _); [done| |by exists r].
  intros c acc Hc _.
  destruct (IH (id c)) as [d Hd]; [specialize (Hrank i c Hc); lia|].
  rewrite Hd. simpl. eauto.
Qed.

(** *** The loop of [getAllParents] computes the ancestor chain *)

Lemma parentChainLoop_chain s k c :
  chain s k c →
  ∀ fuel acc, length c ≤ fuel →
    parentChainLoop fuel s (getItem k s) acc = Some (acc ++ c).
Proof.
  induction 1 as [k Hk|k x Hk Hroot|k x p c Hk Hp _ IH]; intros fuel acc Hlen.
  - rewrite Hk. destruct fuel; simpl; by rewrite app_nil_r.
  - rewrite Hk. destruct fuel as [|fuel]; simpl in *; [lia|]. by rewrite Hroot.
  - rewrite Hk. destruct fuel as [|fuel]; simpl in *; [lia|]. rewrite Hp.
    rewrite IH by lia. by rewrite <- app_assoc.
Qed.

Lemma parentChainLoop_inv fuel s k acc r :
  parentChainLoop fuel s (getItem k s) acc = Some r →
  ∃ c, chain s k c ∧ r = acc ++ c.
Proof.
  revert k acc. induction fuel as [|fuel IH]; intros k acc; simpl.
  - destruct (getItem k s) as [x|] eqn:Hk; [done|].
    intros [= <-]. exists []. split; [by constructor|by rewrite app_nil_r].
  - destruct (getItem k s) as [x|] eqn:Hk.
    + destruct (parent x) as [p|] eqn:Hp.
      * intros Hrun. apply IH in Hrun as (c & Hc & ->).
        exists (x :: c). split; [by eapply chain_step|by rewrite <- app_assoc].
      * intros [= <-]. exists [x]. split; [by apply chain_root|done].
    + intros [= <-]. exists []. split; [by constructor|by rewrite app_nil_r].
Qed.

Lemma chain_functional s k c c' : chain s k c → chain s k c' → c = c'.
Proof.
  intros H. revert c'.
  induction H as [k Hk|k x Hk Hroot|k x p c Hk Hp _ IH]; intros c' H';
    inversion H'; subst; try congruence.
  assert (x0 = x) as -> by congruence.
  assert (p0 = p) as -> by congruence.
  f_equal. by apply IH.
Qed.

Lemma rank_bounded {V : Type} (m : gmap TreeItemId V) (rank : TreeItemId → nat) :
  ∃ B, ∀ k, is_Some (m !! k) → rank k ≤ B.
Proof.
  induction m as [|k v m Hk _ [B HB]] using map_first_key_ind.
  - exists 0. intros k [v Hv]. by rewrite lookup_empty in Hv.
  - exists (B `max` rank k). intros j Hj.
    destruct (decide (k = j)) as [->|Hne]; [lia|].
    rewrite lookup_insert_ne in Hj by done. specialize (HB j Hj). lia.
Qed.

(** With acyclic parent links every identifier has an ancestor chain. *)
Lemma acyclic_chain s k : acyclic s → ∃ c, chain s k c.
Proof.
  intros [rank Hrank].
  destruct (rank_bounded (itemsMap s) rank) as [B HB].
  remember (S B - rank k) as n eqn:Hn.
  revert k Hn. induction (lt_wf n) as [n _ IH]. intros k Hn.
  destruct (getItem k s) as [x|] eqn:Hk; [|exists []; by constructor].
  destruct (parent x) as [p|] eqn:Hp; [|exists [x]; by apply chain_root].
  destruct (getItem p s) as [y|] eqn:Hy.
  - destruct (IH (S B - rank p)) with (k := p) as [c Hc]; [|done|].
    + specialize (Hrank k x p Hk Hp).
      assert (rank p ≤ B) by (apply HB; by exists y). lia.
    + exists (x :: c). by eapply chain_step.
  - exists [x]. eapply chain_step; [done|done|]. by constructor.
Qed.

(** ** Updating a record without moving it *)

Lemma updateItem_same_parent fuel u e s :
  getItem (id u) s = Some e → parent u = parent e →
  updateItem fuel u s =
    Some (true,
          set_itemsMap (<[id u := u]> (itemsMap s))
            (match indexOf e (items s) with
             | Some index => set_items (<[index := u]> (items s)) s
             | None => s
             end)).
Proof.
  intros Hget Hpar. unfold updateItem. rewrite Hget.
  rewrite bool_decide_eq_false_2; [|intros Hne; by apply Hne].
  destruct (indexOf e (items s)); by simpl.
Qed.

(** C8.  An update that keeps the parent field of the stored record only
    replaces the stored value: the children index and the ancestor-chain
    cache are exactly what they were (no cache entry is dropped), every
    other identifier maps to the record it mapped to, and the canonical
    sequence keeps its length and all entries other than the replaced
    object. *)
Theorem updateItem_same_parent_frame fuel u e s :
  getItem (id u) s = Some e → parent u = parent e →
  ∃ s', updateItem fuel u s = Some (true, s') ∧
    childrenMap s' = childrenMap s ∧
    parentChainCache s' = parentChainCache s ∧
    getItem (id u) s' = Some u ∧
    (∀ j, j ≠ id u → getItem j s' = getItem j s) ∧
    length (items s') = length (items s) ∧
    (∀ n x, items s !! n = Some x → x ≠ e → items s' !! n = Some x).
Proof.
  intros Hget Hpar. eexists. split; [by apply updateItem_same_parent|].
  destruct (indexOf e (items s)) as [index|] eqn:Hidx; simpl.
  - split_and!; [done|done|apply lookup_insert_eq| |apply length_insert|].
    + intros j Hj. unfold getItem. simpl. by apply lookup_insert_ne.
    + intros n x Hn Hx. rewrite list_lookup_insert_ne; [done|].
      intros ->. apply indexOf_Some in Hidx. congruence.
  - split_and!; [done|done|apply lookup_insert_eq| |done|done].
    intros j Hj. unfold getItem. simpl. by apply lookup_insert_ne.
Qed.

Lemma updateItem_same_parent_frame_witness :
  ∃ s', updateItem 0 (item 9 4 (Some 2%Z) "New Label Only") mockStore = Some (true, s') ∧
    childrenMap s' = childrenMap mockStore ∧
    parentChainCache s' = parentChainCache mockStore ∧
    getItem (NumId 4) s' = Some (item 9 4 (Some 2%Z) "New Label Only") ∧
    (∀ j, j ≠ NumId 4 → getItem j s' = getItem j mockStore) ∧
    length (items s') = length (items mockStore) ∧
    (∀ n x, items mockStore !! n = Some x → x ≠ item 3 4 (Some 2%Z) "Grandchild 1" →
       items s' !! n = Some x).
Proof.
  apply (updateItem_same_parent_frame 0 (item 9 4 (Some 2%Z) "New Label Only")
           (item 3 4 (Some 2%Z) "Grandchild 1") mockStore).
  - vm_compute. reflexivity.
  - reflexivity.
Defined.

(** C10.  After an update that keeps the parent but changes the label,
    the id index returns the new record while the children list of the
    parent is what it was before: it still holds the old record, with its
    old label. *)
Theorem updateItem_label_stale_children fuel u e p s :
  getItem (id u) s = Some e → parent u = parent e → parent e = Some p →
  label u ≠ label e → e ∈ getChildren p s →
  ∃ s', updateItem fuel u s = Some (true, s') ∧
    getItem (id u) s' = Some u ∧
    getChildren p s' = getChildren p s ∧
    e ∈ getChildren p s' ∧ label e ≠ label u.
Proof.
  intros Hget Hpar Hp Hlabel He. eexists.
  split; [by apply updateItem_same_parent|].
  assert (Hch : getChildren p
      (set_itemsMap (<[id u:=u]> (itemsMap s))
         match indexOf e (items s) with
         | Some index => set_items (<[index:=u]> (items s)) s
         | None => s
         end) = getChildren p s).
  { by destruct (indexOf e (items s)). }
  rewrite Hch. split_and!; [|done|done|congruence].
  unfold getItem. destruct (indexOf e (items s)); simpl; apply lookup_insert_eq.
Qed.

Lemma updateItem_label_stale_children_witness :
  ∃ s', updateItem 0 (item 9 4 (Some 2%Z) "Updated Label") mockStore = Some (true, s') ∧
    getItem (NumId 4) s' = Some (item 9 4 (Some 2%Z) "Updated Label") ∧
    getChildren (NumId 2) s' = getChildren (NumId 2) mockStore ∧
    item 3 4 (Some 2%Z) "Grandchild 1" ∈ getChildren (NumId 2) s' ∧
    "Grandchild 1" ≠ "Updated Label".
Proof.
  apply (updateItem_label_stale_children 0 (item 9 4 (Some 2%Z) "Updated Label")
           (item 3 4 (Some 2%Z) "Grandchild 1") (NumId 2) mockStore).
  - vm_compute. reflexivity.
  - reflexivity.
  - reflexivity.
  - simpl. discriminate.
  - vm_compute. apply list_elem_of_In. simpl. auto.
Defined.

(** ** Inserting a record *)

(** The children index after [addItem item], before cache invalidation is
    taken into account. *)
Lemma addItem_inv fuel x s s' :
  addItem fuel x s = Some s' →
  items s' = items s ++ [x] ∧
  itemsMap s' = <[id x := x]> (itemsMap s) ∧
  (∀ q, getChildren q s' =
        if decide (parent x = Some q) then getChildren q s ++ [x]
        else getChildren q s) ∧
  (∀ i l, parentChainCache s' !! i = Some l → parentChainCache s !! i = Some l).
Proof.
  unfold addItem, invalidateParentChainCache.
  destruct (parent x) as [p|] eqn:Hp; simpl.
  - set (s1 := set_childrenMap _ _).
    assert (Hs1 : ∀ q, getChildren q s1 =
      if decide (Some p = Some q) then getChildren q s ++ [x] else getChildren q s).
    { intros q. unfold getChildren at 1. simpl.
      destruct (decide (Some p = Some q)) as [[= ->]|Hne].
      - by rewrite lookup_insert_eq.
      - rewrite lookup_insert_ne; [done|congruence]. }
    assert (Hi1 : items s1 = items s ++ [x]) by done.
    assert (Hm1 : itemsMap s1 = <[id x := x]> (itemsMap s)) by done.
    assert (Hp1 : parentChainCache s1 = parentChainCache s) by done.
    clearbody s1.
    destruct (invalidateParentChainCacheRecursive fuel p s1) as [s2|] eqn:Hinv;
      simpl; [|done].
    apply invalidate_spec in Hinv as [(Hi & Hm & Hc & Hcache) _].
    rewrite Hp1 in Hcache.
    destruct (childrenMap s2 !! id x) as [cs|] eqn:Hx; intros [= <-].
    + split_and!; [congruence|congruence| |done].
      intros q. unfold getChildren at 1. rewrite Hc. apply Hs1.
    + split_and!; [simpl; congruence|simpl; congruence| |done].
      intros q. rewrite <- Hs1. unfold getChildren. simpl. rewrite Hc in Hx |- *.
      destruct (decide (id x = q)) as [<-|Hne].
      * by rewrite lookup_insert_eq, Hx.
      * by rewrite lookup_insert_ne.
  - destruct (childrenMap s !! id x) as [cs|] eqn:Hx; intros [= <-].
    + by split_and!.
    + split_and!; [done|done| |done].
      intros q. unfold getChildren. simpl.
      destruct (decide (id x = q)) as [<-|Hne].
      * by rewrite lookup_insert_eq, Hx.
      * by rewrite lookup_insert_ne.
Qed.

(** An inserted root needs no recursion, so [addItem] returns whatever the
    recursion bound. *)
Lemma addItem_root_is_Some fuel x s : parent x = None → is_Some (addItem fuel x s).
Proof.
  intros Hp. unfold addItem. rewrite Hp. simpl.
  by destruct (childrenMap s !! id x).
Qed.

(** C1, as the code has it.  [addItem] has no result with which to report
    a conflict and makes no check: for a record whose identifier is already
    stored, it appends the record to the canonical sequence, which then
    holds the old and the new record of that identifier, overwrites the
    entry of the id index, and appends the record to the children list of
    the parent it names. *)
Theorem addItem_existing_id fuel x e s s' :
  getItem (id x) s = Some e → e ∈ items s →
  addItem fuel x s = Some s' →
  items s' = items s ++ [x] ∧
  e ∈ items s' ∧ x ∈ items s' ∧
  getItem (id x) s' = Some x ∧
  (∀ j, j ≠ id x → getItem j s' = getItem j s) ∧
  (∀ p, parent x = Some p → getChildren p s' = getChildren p s ++ [x]).
Proof.
  intros Hget He Hadd.
  apply addItem_inv in Hadd as (Hi & Hm & Hc & _).
  split_and!.
  - done.
  - rewrite Hi. apply elem_of_app. by left.
  - rewrite Hi. apply elem_of_app. right. by apply list_elem_of_singleton.
  - unfold getItem. rewrite Hm. apply lookup_insert_eq.
  - intros j Hj. unfold getItem. rewrite Hm. by apply lookup_insert_ne.
  - intros p Hp. rewrite Hc. by rewrite decide_True.
Qed.

Lemma addItem_existing_id_witness :
  ∃ s', addItem 5 (item 9 2 (Some 3%Z) "Duplicate") mockStore = Some s' ∧
    items s' = items mockStore ++ [item 9 2 (Some 3%Z) "Duplicate"] ∧
    item 1 2 (Some 1%Z) "Child 1" ∈ items s' ∧
    item 9 2 (Some 3%Z) "Duplicate" ∈ items s' ∧
    getItem (NumId 2) s' = Some (item 9 2 (Some 3%Z) "Duplicate").
Proof.
  destruct (addItem 5 (item 9 2 (Some 3%Z) "Duplicate") mockStore) as [s'|] eqn:Hadd;
    [|by vm_compute in Hadd].
  exists s'. split; [done|].
  destruct (addItem_existing_id 5 (item 9 2 (Some 3%Z) "Duplicate")
              (item 1 2 (Some 1%Z) "Child 1") mockStore s')
    as (H1 & H2 & H3 & H4 & _).
  - vm_compute. reflexivity.
  - vm_compute. apply list_elem_of_In. simpl. auto.
  - exact Hadd.
  - by split_and!.
Defined.

(** C1 as stated fails: inserting a second record under the stored
    identifier [2] changes the canonical sequence and the id index. *)
Lemma addItem_existing_id_counterexample :
  ¬ (∀ fuel x s s',
       is_Some (getItem (id x) s) → addItem fuel x s = Some s' →
       items s' = items s ∧ itemsMap s' = itemsMap s ∧
       childrenMap s' = childrenMap s ∧
       parentChainCache s' = parentChainCache s).
Proof.
  intros Hclaim.
  destruct (addItem 5 (item 9 2 (Some 3%Z) "Duplicate") mockStore) as [s'|] eqn:Hadd;
    [|by vm_compute in Hadd].
  destruct (Hclaim 5 (item 9 2 (Some 3%Z) "Duplicate") mockStore s') as (Hi & _).
  - vm_compute. eauto.
  - done.
  - apply addItem_inv in Hadd as (Hi' & _). rewrite Hi' in Hi.
    apply (f_equal length) in Hi. rewrite length_app in Hi. simpl in Hi. lia.
Qed.

(** C9, as the code has it.  After [addItem item] the children list of
    the new identifier is the list that was registered under it before
    (records that already named it as their parent), followed by the record
    itself when it names itself as parent.  It is empty when nothing was
    registered under the identifier and the record is not its own parent. *)
Theorem addItem_children_of_new fuel x s s' :
  addItem fuel x s = Some s' →
  getChildren (id x) s' =
    getChildren (id x) s ++ (if decide (parent x = Some (id x)) then [x] else []) ∧
  (getChildren (id x) s = [] → parent x ≠ Some (id x) →
   getChildren (id x) s' = []).
Proof.
  intros Hadd. apply addItem_inv in Hadd as (_ & _ & Hc & _).
  rewrite Hc. split.
  - destruct (decide (parent x = Some (id x))); [done|by rewrite app_nil_r].
  - intros Hnil Hne. by rewrite decide_False.
Qed.

Lemma addItem_children_of_new_witness :
  ∃ s', addItem 5 (item 9 7 (Some 1%Z) "New Child") mockStore = Some s' ∧
    getChildren (NumId 7) s' = [].
Proof.
  destruct (addItem 5 (item 9 7 (Some 1%Z) "New Child") mockStore) as [s'|] eqn:Hadd;
    [|by vm_compute in Hadd].
  exists s'. split; [done|].
  apply (addItem_children_of_new 5 (item 9 7 (Some 1%Z) "New Child") mockStore s' Hadd).
  - vm_compute. reflexivity.
  - simpl. discriminate.
Defined.

(** C9 as stated fails: a record inserted under an identifier that an
    earlier record names as its parent finds that record in its children
    list. *)
Lemma addItem_children_of_new_counterexample :
  ¬ (∀ fuel x s s', addItem fuel x s = Some s' → getChildren (id x) s' = []).
Proof.
  intros Hclaim.
  specialize (Hclaim 5 (item 1 7 None "Late parent")
                (update [item 0 2 (Some 7%Z) "Orphan"] newStore)).
  vm_compute in Hclaim. specialize (Hclaim _ eq_refl). discriminate.
Qed.

(** ** Replacing the record sequence *)

Lemma foldl_linkItem_frame s l :
  items (foldl linkItem s l) = items s ∧
  itemsMap (foldl linkItem s l) = itemsMap s ∧
  parentChainCache (foldl linkItem s l) = parentChainCache s.
Proof.
  revert s. induction l as [|y l IH]; intros s; simpl; [done|].
  destruct (IH (linkItem s y)) as (-> & -> & ->).
  unfold linkItem. destruct (parent y); [|done].
  by destruct (childrenMap s !! t).
Qed.

Lemma foldl_registerItem_frame s l :
  items (foldl registerItem s l) = items s ∧
  parentChainCache (foldl registerItem s l) = parentChainCache s.
Proof.
  revert s. induction l as [|y l IH]; intros s; simpl; [done|].
  destruct (IH (registerItem s y)) as (-> & ->).
  unfold registerItem. simpl. by destruct (childrenMap s !! id y).
Qed.

Lemma registerItem_itemsMap s y :
  itemsMap (registerItem s y) = <[id y := y]> (itemsMap s).
Proof. unfold registerItem. simpl. by destruct (childrenMap s !! id y). Qed.

Lemma registerItem_getChildren s y p :
  getChildren p (registerItem s y) = getChildren p s.
Proof.
  unfold registerItem, getChildren. simpl.
  destruct (childrenMap s !! id y) as [cs|] eqn:Hy; [done|]. simpl.
  destruct (decide (id y = p)) as [<-|Hne].
  - by rewrite lookup_insert_eq, Hy.
  - by rewrite lookup_insert_ne.
Qed.

Lemma foldl_registerItem_getChildren s l p :
  getChildren p (foldl registerItem s l) = getChildren p s.
Proof.
  revert s. induction l as [|y l IH]; intros s; simpl; [done|].
  by rewrite IH, registerItem_getChildren.
Qed.

Lemma foldl_registerItem_lookup s l k :
  itemsMap (foldl registerItem s l) !! k =
    match last (filter (λ x : ITreeItem, id x = k) l) with
    | Some x => Some x
    | None => itemsMap s !! k
    end.
Proof.
  revert s. induction l as [|y l IH] using rev_ind; intros s; [done|].
  rewrite foldl_app. simpl. rewrite registerItem_itemsMap, filter_app.
  destruct (decide (id y = k)) as [<-|Hne].
  - rewrite lookup_insert_eq, filter_cons_True, filter_nil by done.
    by rewrite last_snoc.
  - rewrite lookup_insert_ne, filter_cons_False, filter_nil by done.
    rewrite app_nil_r. apply IH.
Qed.

Lemma linkItem_getChildren s y p :
  getChildren p (linkItem s y) =
    if decide (parent y = Some p) then getChildren p s ++ [y] else getChildren p s.
Proof.
  unfold linkItem. destruct (parent y) as [q|]; [|by rewrite decide_False].
  unfold getChildren.
  destruct (decide (Some q = Some p)) as [[= ->]|Hne].
  - destruct (childrenMap s !! p) as [cs|] eqn:Hp; simpl;
      by rewrite lookup_insert_eq.
  - destruct (childrenMap s !! q) as [cs|] eqn:Hq; simpl;
      rewrite lookup_insert_ne; congruence.
Qed.

Lemma foldl_linkItem_getChildren s l p :
  getChildren p (foldl linkItem s l) =
    getChildren p s ++ filter (λ x : ITreeItem, parent x = Some p) l.
Proof.
  revert s. induction l as [|y l IH]; intros s; simpl.
  - by rewrite app_nil_r.
  - rewrite IH, linkItem_getChildren.
    destruct (decide (parent y = Some p)) as [Hy|Hy].
    + rewrite filter_cons_True by done. by rewrite <- app_assoc.
    + by rewrite filter_cons_False.
Qed.

Lemma update_items l s : items (update l s) = l.
Proof.
  unfold update, buildIndexes.
  by rewrite (proj1 (foldl_linkItem_frame _ _)),
    (proj1 (foldl_registerItem_frame _ _)).
Qed.

Lemma update_parentChainCache l s : parentChainCache (update l s) = ∅.
Proof.
  unfold update, buildIndexes.
  by rewrite (proj2 (proj2 (foldl_linkItem_frame _ _))),
    (proj2 (foldl_registerItem_frame _ _)).
Qed.

(** The id index after a replace: the last record of the sequence with
    that identifier. *)
Lemma update_getItem l s k :
  getItem k (update l s) = last (filter (λ x : ITreeItem, id x = k) l).
Proof.
  unfold getItem, update, buildIndexes.
  rewrite (proj1 (proj2 (foldl_linkItem_frame _ _))).
  rewrite foldl_registerItem_lookup. simpl.
  by destruct (last _).
Qed.

(** The children index after a replace: the records naming [p] as their
    parent, in the order of the sequence. *)
Lemma update_getChildren l s p :
  getChildren p (update l s) = filter (λ x : ITreeItem, parent x = Some p) l.
Proof.
  unfold update, buildIndexes.
  rewrite foldl_linkItem_getChildren, foldl_registerItem_getChildren.
  by rewrite (proj1 (foldl_registerItem_frame _ _)).
Qed.

Lemma update_getItem_elem l s k x :
  getItem k (update l s) = Some x → x ∈ l ∧ id x = k.
Proof.
  rewrite update_getItem. intros Hlast.
  assert (Hin : x ∈ filter (λ x : ITreeItem, id x = k) l).
  { destruct (filter _ l) as [|z f] using rev_ind; [done|].
    rewrite last_snoc in Hlast. injection Hlast as ->.
    apply elem_of_app. right. by apply list_elem_of_singleton. }
  apply list_elem_of_filter in Hin. tauto.
Qed.

Lemma filter_id_unique (l : list ITreeItem) x :
  NoDup (id <$> l) → x ∈ l → filter (λ y : ITreeItem, id y = id x) l = [x].
Proof.
  induction l as [|y l IH]; intros Hnd Hx; [by apply elem_of_nil in Hx|].
  rewrite fmap_cons in Hnd. apply NoDup_cons in Hnd as [Hy Hnd].
  destruct (decide (id y = id x)) as [Heq|Hne].
  - rewrite filter_cons_True by done.
    assert (Hnone : filter (λ y : ITreeItem, id y = id x) l = []).
    { destruct (filter _ l) as [|z f] eqn:Hf; [done|].
      assert (Hz : z ∈ filter (λ y : ITreeItem, id y = id x) l)
        by (rewrite Hf; left).
      apply list_elem_of_filter in Hz as [Hz1 Hz2].
      destruct Hy. rewrite Heq, <- Hz1. by apply list_elem_of_fmap_2. }
    rewrite Hnone.
    apply elem_of_cons in Hx as [->|Hx]; [done|].
    destruct Hy. rewrite Heq. by apply list_elem_of_fmap_2.
  - rewrite filter_cons_False by done.
    apply elem_of_cons in Hx as [->|Hx]; [done|]. by apply IH.
Qed.

Lemma update_getItem_unique l s x :
  NoDup (id <$> l) → x ∈ l → getItem (id x) (update l s) = Some x.
Proof.
  intros Hnd Hx. by rewrite update_getItem, filter_id_unique.
Qed.

(** A replace by a sequence without repeated identifiers yields
    consistent indices. *)
Lemma update_consistent l s : NoDup (id <$> l) → consistent (update l s).
Proof.
  intros Hnd. split.
  - intros k x Hk. by apply update_getItem_elem in Hk as [_ ->].
  - intros p c. rewrite update_getChildren.
    intros [Hc1 Hc2]%list_elem_of_filter.
    exists c. split; [by apply update_getItem_unique|done].
  - intros k x p Hk Hp. apply update_getItem_elem in Hk as [Hx <-].
    exists x. split; [|done]. rewrite update_getChildren.
    by apply list_elem_of_filter.
  - intros p. rewrite update_getChildren.
    apply (sublist_NoDup _ (id <$> l)); [done|].
    apply fmap_sublist, sublist_filter.
Qed.

(** ** Termination of the queries *)

Lemma consistent_children_rank s (rank : TreeItemId → nat) :
  consistent s →
  (∀ k x p, getItem k s = Some x → parent x = Some p → rank k < rank p) →
  ∀ p c, c ∈ getChildren p s → rank (id c) < rank p.
Proof.
  intros Hcons Hrank p c Hc.
  destruct (children_sound s Hcons p c Hc) as (x & Hx & Hp).
  by apply (Hrank (id c) x p).
Qed.

(** On a cache miss the caller is handed a copy of the ancestor chain,
    and the cache gets its own array with the same contents. *)
Lemma getAllParents_miss fuel i w c :
  parentChainCache (store w) !! i = None →
  chain (store w) i c → length c ≤ fuel →
  getAllParents fuel i w =
    Some (S (next (heap w)),
          {| store := set_parentChainCache
                        (<[i := next (heap w)]> (parentChainCache (store w))) (store w);
             heap := {| cells := <[S (next (heap w)) := c]>
                                   (<[next (heap w) := c]> (cells (heap w)));
                        next := S (S (next (heap w))) |} |}).
Proof.
  intros Hmiss Hc Hlen. unfold getAllParents. rewrite Hmiss.
  by rewrite (parentChainLoop_chain _ _ c Hc fuel []) by done.
Qed.

(** On a cache hit the caller is handed a copy of the cached array. *)
Lemma getAllParents_hit fuel i w l a :
  parentChainCache (store w) !! i = Some l → read l (heap w) = Some a →
  getAllParents fuel i w =
    Some (next (heap w),
          {| store := store w;
             heap := {| cells := <[next (heap w) := a]> (cells (heap w));
                        next := S (next (heap w)) |} |}).
Proof.
  intros Hhit Hread. unfold getAllParents. by rewrite Hhit, Hread.
Qed.

Lemma getAllParents_is_Some fuel i w c :
  cache_allocated w → chain (store w) i c → length c ≤ fuel →
  is_Some (getAllParents fuel i w).
Proof.
  intros Halloc Hc Hlen.
  destruct (parentChainCache (store w) !! i) as [l|] eqn:Hi.
  - destruct (Halloc i l Hi) as [[a Ha] _].
    rewrite (getAllParents_hit fuel i w l a) by done. by eexists.
  - rewrite (getAllParents_miss fuel i w c) by done. by eexists.
Qed.

(** C5, as the code has it.  On a store whose indices are consistent and
    whose parent links are acyclic, [getAllParents] and [getAllChildren]
    return as soon as the bound on iterations and recursion depth is large
    enough.  (Nothing in the store bounds the walk or guards the recursion
    itself: see the counterexample.) *)
Theorem queries_terminate_when_acyclic w i :
  consistent (store w) → acyclic (store w) → cache_allocated w →
  ∃ fuel0, ∀ fuel, fuel0 ≤ fuel →
    is_Some (getAllParents fuel i w) ∧
    is_Some (getAllChildren fuel i (store w)).
Proof.
  intros Hcons Hacyc Halloc.
  destruct (acyclic_chain (store w) i Hacyc) as [c Hc].
  destruct Hacyc as [rank Hrank].
  exists (length c `max` S (rank i)). intros fuel Hfuel. split.
  - apply (getAllParents_is_Some fuel i w c); [done|done|lia].
  - apply (getAllChildren_terminates rank).
    + by apply consistent_children_rank.
    + lia.
Qed.

Lemma mockItems_NoDup : NoDup (id <$> mockItems).
Proof. apply (bool_decide_unpack _). vm_compute. exact I. Qed.

Lemma mockStore_consistent : consistent mockStore.
Proof. apply update_consistent, mockItems_NoDup. Qed.

Lemma mockStore_ranked k x p :
  getItem k mockStore = Some x → parent x = Some p → mockRank k < mockRank p.
Proof.
  unfold mockStore. intros Hk Hp.
  apply (update_getItem_elem mockItems newStore) in Hk as [Hx <-].
  unfold mockItems in Hx.
  repeat (apply elem_of_cons in Hx as [->|Hx]);
    try (by apply elem_of_nil in Hx);
    cbn in Hp; try discriminate; injection Hp as <-; vm_compute; lia.
Qed.

Lemma mockStore_acyclic : acyclic mockStore.
Proof. exists mockRank. apply mockStore_ranked. Qed.

Lemma newHeap_cache_allocated s :
  parentChainCache s = ∅ → cache_allocated {| store := s; heap := emptyHeap |}.
Proof. intros Hs i l. simpl. rewrite Hs. by rewrite lookup_empty. Qed.

Lemma queries_terminate_when_acyclic_witness :
  ∃ fuel0, ∀ fuel, fuel0 ≤ fuel →
    is_Some (getAllParents fuel (NumId 4) {| store := mockStore; heap := emptyHeap |}) ∧
    is_Some (getAllChildren fuel (NumId 4) mockStore).
Proof.
  apply (queries_terminate_when_acyclic
           {| store := mockStore; heap := emptyHeap |} (NumId 4)).
  - exact mockStore_consistent.
  - exact mockStore_acyclic.
  - apply newHeap_cache_allocated. vm_compute. reflexivity.
Defined.

(** C5 as stated fails: on the store built from two records that name each
    other as parent, no bound lets the ancestor walk or the descendant
    collection return. *)
Lemma queries_diverge_on_cycle :
  (∀ fuel, getAllParents fuel (NumId 1)
             {| store := cyclicStore; heap := emptyHeap |} = None) ∧
  (∀ fuel, getAllChildren fuel (NumId 1) cyclicStore = None).
Proof.
  split.
  - assert (Hloop : ∀ fuel acc,
      parentChainLoop fuel cyclicStore (Some (item 0 1 (Some 2%Z) "A")) acc = None ∧
      parentChainLoop fuel cyclicStore (Some (item 1 2 (Some 1%Z) "B")) acc = None).
    { induction fuel as [|fuel IH]; intros acc; [done|]. simpl.
      change (getItem (NumId 2) cyclicStore) with (Some (item 1 2 (Some 1%Z) "B")).
      change (getItem (NumId 1) cyclicStore) with (Some (item 0 1 (Some 2%Z) "A")).
      split; apply IH. }
    intros fuel. unfold getAllParents. cbn [store heap].
    change (parentChainCache cyclicStore !! NumId 1) with (@None loc).
    change (getItem (NumId 1) cyclicStore) with (Some (item 0 1 (Some 2%Z) "A")).
    by rewrite (proj1 (Hloop fuel [])).
  - assert (Hrec : ∀ fuel,
      getAllChildren fuel (NumId 1) cyclicStore = None ∧
      getAllChildren fuel (NumId 2) cyclicStore = None).
    { induction fuel as [|fuel [IH1 IH2]]; [done|]. simpl.
      change (getChildren (NumId 1) cyclicStore) with [item 1 2 (Some 1%Z) "B"].
      change (getChildren (NumId 2) cyclicStore) with [item 0 1 (Some 2%Z) "A"].
      simpl. by rewrite IH1, IH2. }
    intros fuel. apply Hrec.
Qed.

(** ** The arrays handed out by [getAllParents] *)

(** The state after a call of [getAllParents]: the array handed out holds
    the chain, the cache holds an array with the same contents at another
    address, and every cached address is older than the one handed out. *)
Lemma getAllParents_post fuel i w l1 w1 :
  cache_allocated w → getAllParents fuel i w = Some (l1, w1) →
  ∃ a lc,
    read l1 (heap w1) = Some a ∧
    parentChainCache (store w1) !! i = Some lc ∧
    read lc (heap w1) = Some a ∧
    cache_allocated w1 ∧
    (∀ j l, parentChainCache (store w1) !! j = Some l → l ≠ l1) ∧
    l1 < next (heap w1).
Proof.
  intros Halloc. unfold getAllParents.
  destruct (parentChainCache (store w) !! i) as [lc|] eqn:Hi.
  - destruct (read lc (heap w)) as [a|] eqn:Ha; simpl; [|done].
    intros [= <- <-]. destruct (Halloc i lc Hi) as [_ Hlt].
    exists a, lc. unfold read in *. simpl. split_and!.
    + apply lookup_insert_eq.
    + done.
    + rewrite lookup_insert_ne; [done|lia].
    + intros j l Hj. destruct (Halloc j l Hj) as [Hsome Hl]. unfold read. simpl.
      split; [|lia]. rewrite lookup_insert_ne; [done|lia].
    + intros j l Hj. destruct (Halloc j l Hj) as [_ Hl]. lia.
    + lia.
  - destruct (parentChainLoop fuel (store w) (getItem i (store w)) [])
      as [c|] eqn:Hc; simpl; [|done].
    intros [= <- <-]. exists c, (next (heap w)). unfold read. simpl. split_and!.
    + apply lookup_insert_eq.
    + apply lookup_insert_eq.
    + rewrite lookup_insert_ne by lia. apply lookup_insert_eq.
    + intros j l Hj. unfold read. simpl in Hj |- *.
      destruct (decide (i = j)) as [->|Hne].
      * rewrite lookup_insert_eq in Hj. injection Hj as <-.
        split; [|lia]. rewrite lookup_insert_ne by lia.
        rewrite lookup_insert_eq. by eexists.
      * rewrite lookup_insert_ne in Hj by done.
        destruct (Halloc j l Hj) as [Hsome Hl]. split; [|lia].
        by rewrite !lookup_insert_ne by lia.
    + intros j l Hj. simpl in Hj. destruct (decide (i = j)) as [->|Hne].
      * rewrite lookup_insert_eq in Hj. injection Hj as <-. lia.
      * rewrite lookup_insert_ne in Hj by done.
        destruct (Halloc j l Hj) as [_ Hl]. lia.
    + lia.
Qed.

(** A write to an array that is not a cache entry is invisible to every
    later call. *)
Lemma chainOf_callerWrites fuel j l1 f w :
  (∀ k l, parentChainCache (store w) !! k = Some l → l ≠ l1) →
  chainOf fuel j (callerWrites l1 f w) = chainOf fuel j w.
Proof.
  intros Hpriv. unfold chainOf, getAllParents, callerWrites. simpl.
  destruct (parentChainCache (store w) !! j) as [l|] eqn:Hj.
  - unfold read. simpl. rewrite lookup_alter_ne by (symmetry; by eapply Hpriv).
    destruct (cells (heap w) !! l) as [a|]; simpl; [|done].
    by rewrite !lookup_insert_eq.
  - destruct (parentChainLoop fuel (store w) (getItem j (store w)) []) as [c|];
      simpl; [|done].
    unfold read. simpl. by rewrite !lookup_insert_eq.
Qed.

(** C6.  When a call of [getAllParents] has handed out an array [l1]
    holding the chain [a], then
    - an immediately following call for the same identifier returns, with
      any bound, an array with the same contents [a] at another address;
    - neither array is the array the cache holds;
    - whatever the caller does to the array [l1] in place, every later
      call, for any identifier, yields what it would have yielded
      otherwise, and for this identifier still yields [a]. *)
Theorem getAllParents_fresh_copy fuel i w l1 w1 :
  cache_allocated w → getAllParents fuel i w = Some (l1, w1) →
  ∃ a,
    read l1 (heap w1) = Some a ∧
    (∀ fuel', ∃ l2 w2,
        getAllParents fuel' i w1 = Some (l2, w2) ∧
        read l2 (heap w2) = Some a ∧ l2 ≠ l1 ∧
        (∀ j l, parentChainCache (store w2) !! j = Some l → l ≠ l1 ∧ l ≠ l2)) ∧
    (∀ j l, parentChainCache (store w1) !! j = Some l → l ≠ l1) ∧
    (∀ f j fuel',
        chainOf fuel' j (callerWrites l1 f w1) = chainOf fuel' j w1) ∧
    (∀ f fuel', chainOf fuel' i (callerWrites l1 f w1) = Some a).
Proof.
  intros Halloc Hcall.
  destruct (getAllParents_post fuel i w l1 w1 Halloc Hcall)
    as (a & lc & Ha & Hi & Hlc & Halloc1 & Hpriv & Hlt).
  assert (Hsecond : ∀ fuel', ∃ l2 w2,
        getAllParents fuel' i w1 = Some (l2, w2) ∧
        read l2 (heap w2) = Some a ∧ l2 ≠ l1 ∧
        (∀ j l, parentChainCache (store w2) !! j = Some l → l ≠ l1 ∧ l ≠ l2)).
  { intros fuel'. rewrite (getAllParents_hit fuel' i w1 lc a) by done.
    eexists _, _. split; [done|]. unfold read. simpl. split_and!.
    - apply lookup_insert_eq.
    - lia.
    - intros j l Hj. split; [by eapply Hpriv|].
      destruct (Halloc1 j l Hj) as [_ Hl]. lia. }
  exists a. split_and!; [done|done|done| |].
  - intros f j fuel'. by apply chainOf_callerWrites.
  - intros f fuel'. rewrite chainOf_callerWrites by done.
    destruct (Hsecond fuel') as (l2 & w2 & Hcall2 & Hread2 & _).
    unfold chainOf. by rewrite Hcall2.
Qed.

Lemma getAllParents_fresh_copy_witness :
  ∃ l1 w1 a,
    getAllParents 5 (NumId 4) {| store := mockStore; heap := emptyHeap |} = Some (l1, w1) ∧
    read l1 (heap w1) = Some a ∧
    (∀ fuel', ∃ l2 w2,
        getAllParents fuel' (NumId 4) w1 = Some (l2, w2) ∧
        read l2 (heap w2) = Some a ∧ l2 ≠ l1 ∧
        (∀ j l, parentChainCache (store w2) !! j = Some l → l ≠ l1 ∧ l ≠ l2)) ∧
    (∀ fuel', chainOf fuel' (NumId 4) (callerWrites l1 reverse w1) = Some a).
Proof.
  destruct (getAllParents 5 (NumId 4) {| store := mockStore; heap := emptyHeap |})
    as [[l1 w1]|] eqn:Hcall; [|by vm_compute in Hcall].
  destruct (getAllParents_fresh_copy 5 (NumId 4)
              {| store := mockStore; heap := emptyHeap |} l1 w1)
    as (a & Ha & Hsecond & _ & _ & Hwrite).
  - apply newHeap_cache_allocated. vm_compute. reflexivity.
  - exact Hcall.
  - exists l1, w1, a. split_and!; [done|done|done|]. intros fuel'. apply Hwrite.
Defined.

(** ** Moving a record under another parent *)

Lemma unlinked_sublist c l : unlinked c l `sublist_of` l.
Proof.
  unfold unlinked, splice1. destruct (findIndex _ l); [apply sublist_delete|done].
Qed.

Lemma elem_of_unlinked c l x :
  NoDup (id <$> l) → x ∈ unlinked c l ↔ x ∈ l ∧ id x ≠ c.
Proof.
  intros Hnd. unfold unlinked, splice1.
  destruct (findIndex _ l) as [i|] eqn:Hi.
  - apply findIndex_Some in Hi as (y & Hy & Hpy & _).
    apply bool_decide_eq_true in Hpy.
    rewrite delete_take_drop.
    rewrite <- (take_drop_middle l i y Hy) in Hnd at 1.
    rewrite fmap_app, fmap_cons in Hnd.
    apply NoDup_app in Hnd as (_ & Hdisj & Hnd).
    apply NoDup_cons in Hnd as [Hy' _].
    assert (Hl : x ∈ l ↔ x ∈ take i l ∨ x = y ∨ x ∈ drop (S i) l).
    { rewrite <- (take_drop_middle l i y Hy) at 1.
      by rewrite elem_of_app, elem_of_cons. }
    rewrite Hl, elem_of_app. split.
    + intros [Hx|Hx].
      * split; [by left|]. intros Hc.
        apply (Hdisj (id x)); [by apply list_elem_of_fmap_2|].
        rewrite Hc, <- Hpy. left.
      * split; [by right; right|]. intros Hc.
        apply Hy'. rewrite Hpy, <- Hc. by apply list_elem_of_fmap_2.
    + intros [[Hx|[->|Hx]] Hc]; [by left|done|by right].
  - split; [|tauto]. intros Hx. split; [done|].
    apply (findIndex_None _ _ Hi) in Hx. by apply bool_decide_eq_false in Hx.
Qed.

Lemma removeFromChildrenMap_getChildren p c s q :
  getChildren q (removeFromChildrenMap p c s) =
    if decide (q = p) then unlinked c (getChildren p s) else getChildren q s.
Proof.
  unfold removeFromChildrenMap, getChildren, unlinked.
  destruct (childrenMap s !! p) as [cs|] eqn:Hp; simpl.
  - destruct (findIndex _ cs) as [i|]; simpl.
    + destruct (decide (q = p)) as [->|Hne].
      * by rewrite lookup_insert_eq.
      * by rewrite lookup_insert_ne.
    + destruct (decide (q = p)) as [->|Hne]; [by rewrite Hp|done].
  - destruct (decide (q = p)) as [->|Hne]; [by rewrite Hp|done].
Qed.

Lemma removeFromChildrenMap_frame p c s :
  items (removeFromChildrenMap p c s) = items s ∧
  itemsMap (removeFromChildrenMap p c s) = itemsMap s ∧
  parentChainCache (removeFromChildrenMap p c s) = parentChainCache s.
Proof.
  unfold removeFromChildrenMap.
  destruct (childrenMap s !! p) as [cs|]; [|done].
  by destruct (findIndex _ cs).
Qed.

Lemma below_trans s a b c : below s a b → below s b c → below s a c.
Proof.
  induction 1 as [k|k x d Hx _ IH]; [done|].
  intros Hc. apply (below_child _ _ x); [done|by apply IH].
Qed.

(** With a complete children index, every record of the ancestor chain of
    [d] has [d] in the subtree the children index hangs under it. *)
Lemma chain_below s d c y :
  (∀ k x, getItem k s = Some x → id x = k) →
  (∀ k x p, getItem k s = Some x → parent x = Some p →
     ∃ c, c ∈ getChildren p s ∧ id c = k) →
  chain s d c → y ∈ c → below s (id y) d.
Proof.
  intros Hids Hcomplete Hchain. revert y.
  induction Hchain as [k Hk|k x Hk Hroot|k x p c Hk Hp _ IH]; intros y Hy.
  - by apply elem_of_nil in Hy.
  - apply list_elem_of_singleton in Hy as ->.
    rewrite (Hids k x Hk). constructor.
  - apply elem_of_cons in Hy as [->|Hy].
    + rewrite (Hids k x Hk). constructor.
    + apply (below_trans _ _ p); [by apply IH|].
      destruct (Hcomplete k x p Hk Hp) as (c0 & Hc0 & <-).
      apply (below_child _ _ c0); [done|constructor].
Qed.

Lemma acyclic_same_itemsMap s s' :
  itemsMap s' = itemsMap s → acyclic s → acyclic s'.
Proof.
  intros Hm [rank Hrank]. exists rank. intros k x p. unfold getItem.
  rewrite Hm. apply Hrank.
Qed.

Lemma chainOf_miss fuel d s h c :
  parentChainCache s !! d = None → chain s d c → length c ≤ fuel →
  chainOf fuel d {| store := s; heap := h |} = Some c.
Proof.
  intros Hmiss Hc Hlen. unfold chainOf.
  rewrite (getAllParents_miss fuel d {| store := s; heap := h |} c) by done.
  unfold read. simpl. apply lookup_insert_eq.
Qed.

Lemma ranked_invalidated rank s s' : invalidated s s' → ranked rank s → ranked rank s'.
Proof.
  intros Hinv Hr p c. rewrite (invalidated_getChildren s s') by done. apply Hr.
Qed.

Lemma invalidate_ranked rank fuel i s :
  ranked rank s → rank i < fuel →
  ∃ s', invalidateParentChainCacheRecursive fuel i s = Some s' ∧
        invalidated s s' ∧
        ∀ d, below s i d → parentChainCache s' !! d = None.
Proof.
  intros Hr Hlt.
  destruct (invalidate_terminates rank s Hr fuel i s) as [s' Hs'];
    [apply invalidated_refl|done|].
  exists s'. split; [done|]. by apply invalidate_spec in Hs'.
Qed.

Lemma link_getChildren np u s q :
  getChildren q
    (set_childrenMap (<[np := default [] (childrenMap s !! np) ++ [u]]> (childrenMap s)) s) =
  if decide (q = np) then getChildren np s ++ [u] else getChildren q s.
Proof.
  unfold getChildren. simpl. destruct (decide (q = np)) as [->|Hne].
  - by rewrite lookup_insert_eq.
  - by rewrite lookup_insert_ne.
Qed.

(** The first stage of a parent change: unlink from the old parent, if
    any, and invalidate below it. *)
Lemma updateItem_unlink_stage rank fuel (oldParent : option TreeItemId) c s :
  (∀ q x, x ∈ (if decide (oldParent = Some q) then unlinked c (getChildren q s)
               else getChildren q s) → rank (id x) < rank q) →
  from_option rank 0 oldParent < fuel →
  ∃ s',
    match oldParent with
    | Some op => invalidateParentChainCache fuel op (removeFromChildrenMap op c s)
    | None => Some s
    end = Some s' ∧
    items s' = items s ∧ itemsMap s' = itemsMap s ∧
    (∀ q, getChildren q s' =
          if decide (oldParent = Some q) then unlinked c (getChildren q s)
          else getChildren q s) ∧
    (∀ i l, parentChainCache s' !! i = Some l → parentChainCache s !! i = Some l).
Proof.
  intros Hr Hlt. destruct oldParent as [op|]; simpl in *.
  - assert (Hch : ∀ q, getChildren q (removeFromChildrenMap op c s) =
        if decide (Some op = Some q) then unlinked c (getChildren q s)
        else getChildren q s).
    { intros q. rewrite removeFromChildrenMap_getChildren.
      destruct (decide (q = op)) as [->|Hne].
      - by rewrite decide_True.
      - rewrite decide_False; [done|congruence]. }
    destruct (removeFromChildrenMap_frame op c s) as (Hi & Hm & Hp).
    destruct (invalidate_ranked rank fuel op (removeFromChildrenMap op c s))
      as (s' & Hs' & Hinv & _); [|done|].
    { intros q x. rewrite Hch. apply Hr. }
    exists s'. split; [done|].
    destruct Hinv as (Hi' & Hm' & Hc' & Hp').
    split_and!; [congruence|congruence| |].
    + intros q. rewrite <- Hch. unfold getChildren. by rewrite Hc'.
    + intros i l Hl. rewrite <- Hp. by apply Hp'.
  - exists s. by split_and!.
Qed.

(** The second stage: link under the new parent, if any, and invalidate
    below it. *)
Lemma updateItem_link_stage rank fuel (newParent : option TreeItemId) u s :
  (∀ q x, x ∈ (if decide (newParent = Some q) then getChildren q s ++ [u]
               else getChildren q s) → rank (id x) < rank q) →
  from_option rank 0 newParent < fuel →
  ∃ s',
    match newParent with
    | Some np =>
        invalidateParentChainCache fuel np
          (set_childrenMap
             (<[np := default [] (childrenMap s !! np) ++ [u]]> (childrenMap s)) s)
    | None => Some s
    end = Some s' ∧
    items s' = items s ∧ itemsMap s' = itemsMap s ∧
    (∀ q, getChildren q s' =
          if decide (newParent = Some q) then getChildren q s ++ [u]
          else getChildren q s) ∧
    (∀ i l, parentChainCache s' !! i = Some l → parentChainCache s !! i = Some l).
Proof.
  intros Hr Hlt. destruct newParent as [np|]; simpl in *.
  - set (s1 := set_childrenMap _ s).
    assert (Hch : ∀ q, getChildren q s1 =
        if decide (Some np = Some q) then getChildren q s ++ [u]
        else getChildren q s).
    { intros q. unfold s1. rewrite link_getChildren.
      destruct (decide (q = np)) as [->|Hne].
      - by rewrite decide_True.
      - rewrite decide_False; [done|congruence]. }
    destruct (invalidate_ranked rank fuel np s1) as (s' & Hs' & Hinv & _); [|done|].
    { intros q x. rewrite Hch. apply Hr. }
    exists s'. split; [done|].
    destruct Hinv as (Hi' & Hm' & Hc' & Hp').
    split_and!; [done|done| |done].
    intros q. rewrite <- Hch. unfold getChildren. by rewrite Hc'.
  - exists s. by split_and!.
Qed.

Lemma replaceStored_frame u e s :
  itemsMap (replaceStored u e s) = <[id u := u]> (itemsMap s) ∧
  childrenMap (replaceStored u e s) = childrenMap s ∧
  parentChainCache (replaceStored u e s) = parentChainCache s.
Proof. unfold replaceStored. by destruct (indexOf e (items s)). Qed.

Lemma updateItem_reparent_eq fuel u e s :
  getItem (id u) s = Some e → parent e ≠ parent u →
  updateItem fuel u s =
    (sB ← match parent e with
          | Some op =>
              invalidateParentChainCache fuel op
                (removeFromChildrenMap op (id u) (replaceStored u e s))
          | None => Some (replaceStored u e s)
          end;
     sC ← match parent u with
          | Some np =>
              invalidateParentChainCache fuel np
                (set_childrenMap
                   (<[np := default [] (childrenMap sB !! np) ++ [u]]> (childrenMap sB)) sB)
          | None => Some sB
          end;
     sD ← invalidateParentChainCacheRecursive fuel (id u) sC;
     Some (true, sD)).
Proof.
  intros Hget Hpar. unfold updateItem, replaceStored. rewrite Hget. cbv zeta.
  rewrite bool_decide_eq_true_2 by done.
  by destruct (indexOf e (items s)).
Qed.

Lemma updateItem_fuel_mono fuel fuel' u s r :
  updateItem fuel u s = Some r → fuel ≤ fuel' → updateItem fuel' u s = Some r.
Proof.
  intros Hrun Hle.
  destruct (getItem (id u) s) as [e|] eqn:Hget;
    [|unfold updateItem in *; by rewrite Hget in *].
  destruct (decide (parent u = parent e)) as [Hsame|Hdiff].
  { rewrite (updateItem_same_parent fuel u e s) in Hrun by done.
    by rewrite (updateItem_same_parent fuel' u e s). }
  rewrite (updateItem_reparent_eq fuel u e s) in Hrun by done.
  rewrite (updateItem_reparent_eq fuel' u e s) by done.
  unfold invalidateParentChainCache in *.
  match type of Hrun with
  | (?a ≫= _) = _ => destruct a as [sB|] eqn:HB; simpl in Hrun; [|done]
  end.
  match type of Hrun with
  | (?a ≫= _) = _ => destruct a as [sC|] eqn:HC; simpl in Hrun; [|done]
  end.
  match type of Hrun with
  | (?a ≫= _) = _ => destruct a as [sD|] eqn:HD; simpl in Hrun; [|done]
  end.
  assert (HB' : match parent e with
    | Some op => invalidateParentChainCacheRecursive fuel' op
        (removeFromChildrenMap op (id u) (replaceStored u e s))
    | None => Some (replaceStored u e s)
    end = Some sB).
  { destruct (parent e); [|done]. by apply (invalidate_fuel_mono fuel). }
  rewrite HB'. simpl.
  assert (HC' : match parent u with
    | Some np => invalidateParentChainCacheRecursive fuel' np
        (set_childrenMap
           (<[np := default [] (childrenMap sB !! np) ++ [u]]> (childrenMap sB)) sB)
    | None => Some sB
    end = Some sC).
  { destruct (parent u); [|done]. by apply (invalidate_fuel_mono fuel). }
  rewrite HC'. simpl.
  by rewrite (invalidate_fuel_mono fuel fuel' _ _ sD).
Qed.

(** What a parent change does to the indices, on a consistent store whose
    parent links stay acyclic with the record under its new parent. *)
Lemma updateItem_reparent_spec rank u e s :
  consistent s →
  getItem (id u) s = Some e → parent e ≠ parent u →
  (∀ k x p, <[id u := u]> (itemsMap s) !! k = Some x → parent x = Some p →
     rank k < rank p) →
  ∃ fuel0 s',
    (∀ fuel, fuel0 ≤ fuel → updateItem fuel u s = Some (true, s')) ∧
    itemsMap s' = <[id u := u]> (itemsMap s) ∧
    (∀ q, getChildren q s' =
       let l := if decide (parent e = Some q)
                then unlinked (id u) (getChildren q s) else getChildren q s in
       if decide (parent u = Some q) then l ++ [u] else l) ∧
    (∀ i l, parentChainCache s' !! i = Some l → parentChainCache s !! i = Some l) ∧
    (∀ d, below s' (id u) d → parentChainCache s' !! d = None).
Proof.
  intros Hcons Hget Hpar Hrank.
  set (F1 := λ q, if decide (parent e = Some q)
                  then unlinked (id u) (getChildren q s) else getChildren q s).
  set (F2 := λ q, if decide (parent u = Some q) then F1 q ++ [u] else F1 q).
  assert (HF1 : ∀ q x, x ∈ F1 q → rank (id x) < rank q).
  { intros q x Hx.
    assert (Hin : x ∈ getChildren q s ∧ (parent e = Some q → id x ≠ id u)).
    { unfold F1 in Hx. destruct (decide (parent e = Some q)) as [Hq|Hq].
      - apply elem_of_unlinked in Hx; [|apply (children_nodup s Hcons)].
        tauto.
      - tauto. }
    destruct Hin as [Hin Hne].
    destruct (children_sound s Hcons q x Hin) as (y & Hy & Hyp).
    destruct (decide (id x = id u)) as [Heq|Hneq].
    - rewrite Heq in Hy. assert (y = e) as -> by congruence. by destruct (Hne Hyp).
    - apply (Hrank (id x) y q); [|done]. by rewrite lookup_insert_ne. }
  assert (HF2 : ∀ q x, x ∈ F2 q → rank (id x) < rank q).
  { intros q x. unfold F2. destruct (decide (parent u = Some q)) as [Hq|Hq].
    - intros [Hx|Hx]%elem_of_app; [by apply HF1|].
      apply list_elem_of_singleton in Hx as ->.
      apply (Hrank (id u) u q); [apply lookup_insert_eq|done].
    - apply HF1. }
  set (fuel0 := S (Nat.max (rank (id u))
                     (Nat.max (from_option rank 0 (parent e))
                              (from_option rank 0 (parent u))))).
  destruct (replaceStored_frame u e s) as (HmA & HcA & HpA).
  assert (HchA : ∀ q, getChildren q (replaceStored u e s) = getChildren q s).
  { intros q. unfold getChildren. by rewrite HcA. }
  destruct (updateItem_unlink_stage rank fuel0 (parent e) (id u) (replaceStored u e s))
    as (sB & HsB & HiB & HmB & HchB & HpB).
  { intros q x. rewrite !HchA. apply HF1. }
  { unfold fuel0. lia. }
  assert (HchB' : ∀ q, getChildren q sB = F1 q).
  { intros q. rewrite HchB. by rewrite !HchA. }
  destruct (updateItem_link_stage rank fuel0 (parent u) u sB)
    as (sC & HsC & HiC & HmC & HchC & HpC).
  { intros q x. rewrite !HchB'. apply HF2. }
  { unfold fuel0. lia. }
  assert (HchC' : ∀ q, getChildren q sC = F2 q).
  { intros q. rewrite HchC. by rewrite !HchB'. }
  destruct (invalidate_ranked rank fuel0 (id u) sC)
    as (sD & HsD & HinvD & HbelowD).
  { intros q x. rewrite HchC'. apply HF2. }
  { unfold fuel0. lia. }
  exists fuel0, sD. split_and!.
  - intros fuel Hfuel. apply (updateItem_fuel_mono fuel0); [|done].
    rewrite (updateItem_reparent_eq fuel0 u e s) by done.
    rewrite HsB. cbn [mbind option_bind]. rewrite HsC. cbn [mbind option_bind].
    by rewrite HsD.
  - destruct HinvD as (_ & -> & _ & _). congruence.
  - intros q. rewrite (invalidated_getChildren sC sD) by done. apply HchC'.
  - intros i l Hl. destruct HinvD as (_ & _ & _ & HpD).
    rewrite <- HpA. by apply HpB, HpC, HpD.
  - intros d Hd. apply HbelowD.
    eapply below_same_children; [|done].
    intros q. symmetry. by apply invalidated_getChildren.
Qed.

(** C3.  On a consistent store (every identifier used once), an [updateItem]
    that changes the parent of a stored record, and leaves the parent links
    acyclic, returns [true] as soon as the recursion bound is large enough,
    and afterwards: the children list of the new parent holds the record;
    the children list of the old parent holds no entry with its identifier;
    every identifier has an ancestor chain; and for the record and each of
    its descendants [d] (the identifiers whose chain goes through the
    record) no cached chain is left, so that [getAllParents d] yields the
    chain over the new links. *)
Theorem updateItem_reparent u e s :
  consistent s →
  getItem (id u) s = Some e → parent e ≠ parent u →
  acyclic (set_itemsMap (<[id u := u]> (itemsMap s)) s) →
  ∃ fuel0 s',
    (∀ fuel, fuel0 ≤ fuel → updateItem fuel u s = Some (true, s')) ∧
    getItem (id u) s' = Some u ∧
    (∀ np, parent u = Some np → u ∈ getChildren np s') ∧
    (∀ op, parent e = Some op → ∀ c, c ∈ getChildren op s' → id c ≠ id u) ∧
    (∀ d, ∃ c, chain s' d c) ∧
    (∀ d c, chain s' d c → u ∈ c →
       parentChainCache s' !! d = None ∧
       ∀ h fuel, length c ≤ fuel →
         chainOf fuel d {| store := s'; heap := h |} = Some c).
Proof.
  intros Hcons Hget Hpar Hacyc.
  assert (Hacyc' := Hacyc). destruct Hacyc' as [rank Hrank].
  destruct (updateItem_reparent_spec rank u e s Hcons Hget Hpar Hrank)
    as (fuel0 & s' & Hrun & Hm & Hch & _ & Hbelow).
  assert (Hids : ∀ k x, getItem k s' = Some x → id x = k).
  { intros k x. unfold getItem. rewrite Hm.
    destruct (decide (id u = k)) as [<-|Hne].
    - rewrite lookup_insert_eq. by intros [= <-].
    - rewrite lookup_insert_ne by done. apply (map_ids s Hcons). }
  assert (Hcomplete : ∀ k x p, getItem k s' = Some x → parent x = Some p →
            ∃ c, c ∈ getChildren p s' ∧ id c = k).
  { intros k x p. unfold getItem at 1. rewrite Hm.
    destruct (decide (id u = k)) as [<-|Hne].
    - rewrite lookup_insert_eq. intros [= <-] Hp. exists u. split; [|done].
      rewrite Hch. simpl. rewrite decide_True by done.
      apply elem_of_app. right. by apply list_elem_of_singleton.
    - rewrite lookup_insert_ne by done. intros Hk Hp.
      destruct (children_complete s Hcons k x p Hk Hp) as (c & Hc & Hck).
      exists c. split; [|done]. rewrite Hch. simpl.
      assert (Hl : c ∈ (if decide (parent e = Some p)
                        then unlinked (id u) (getChildren p s) else getChildren p s)).
      { destruct (decide (parent e = Some p)); [|done].
        apply elem_of_unlinked; [apply (children_nodup s Hcons)|].
        split; [done|congruence]. }
      destruct (decide (parent u = Some p)); [|done].
      apply elem_of_app. by left. }
  exists fuel0, s'. split_and!.
  - done.
  - unfold getItem. rewrite Hm. apply lookup_insert_eq.
  - intros np Hnp. rewrite Hch. simpl. rewrite decide_True by done.
    apply elem_of_app. right. by apply list_elem_of_singleton.
  - intros op Hop c. rewrite Hch. simpl.
    rewrite (decide_True _ _ Hop).
    rewrite decide_False by congruence.
    intros Hc. apply elem_of_unlinked in Hc; [tauto|apply (children_nodup s Hcons)].
  - intros d. apply acyclic_chain.
    by apply (acyclic_same_itemsMap (set_itemsMap (<[id u := u]> (itemsMap s)) s)).
  - intros d c Hchain Hu.
    assert (Hmiss : parentChainCache s' !! d = None).
    { apply Hbelow. by apply (chain_below s' d c u). }
    split; [done|]. intros h fuel Hlen. by apply chainOf_miss.
Qed.

Lemma updateItem_reparent_witness :
  ∃ fuel0 s',
    (∀ fuel, fuel0 ≤ fuel →
       updateItem fuel (item 9 4 (Some 3%Z) "Grandchild 1") mockStore = Some (true, s')) ∧
    getItem (NumId 4) s' = Some (item 9 4 (Some 3%Z) "Grandchild 1") ∧
    (∀ np, Some (NumId 3) = Some np →
       item 9 4 (Some 3%Z) "Grandchild 1" ∈ getChildren np s') ∧
    (∀ op, Some (NumId 2) = Some op → ∀ c, c ∈ getChildren op s' → id c ≠ NumId 4) ∧
    (∀ d, ∃ c, chain s' d c) ∧
    (∀ d c, chain s' d c → item 9 4 (Some 3%Z) "Grandchild 1" ∈ c →
       parentChainCache s' !! d = None ∧
       ∀ h fuel, length c ≤ fuel →
         chainOf fuel d {| store := s'; heap := h |} = Some c).
Proof.
  apply (updateItem_reparent (item 9 4 (Some 3%Z) "Grandchild 1")
           (item 3 4 (Some 2%Z) "Grandchild 1") mockStore).
  - exact mockStore_consistent.
  - vm_compute. reflexivity.
  - simpl. discriminate.
  - exists mockRank. intros k x p. unfold getItem. simpl.
    destruct (decide (NumId 4 = k)) as [<-|Hne].
    + rewrite lookup_insert_eq. intros [= <-]. simpl. intros [= <-]. simpl. lia.
    + rewrite lookup_insert_ne by done. apply mockStore_ranked.
Defined.

(** Invalidation never returns once the children lists lead from 4 to 1,
    from 1 to 2 and from 2 back to 4. *)
Lemma invalidate_loops_1_2_4 c1 c2 c3 c4 c5 :
  id c1 = NumId 1 → id c2 = NumId 2 → id c4 = NumId 4 →
  ∀ fuel s,
    getChildren (NumId 4) s = [c1] →
    getChildren (NumId 1) s = [c2; c3] →
    getChildren (NumId 2) s = [c4; c5] →
    invalidateParentChainCacheRecursive fuel (NumId 4) s = None ∧
    invalidateParentChainCacheRecursive fuel (NumId 1) s = None ∧
    invalidateParentChainCacheRecursive fuel (NumId 2) s = None.
Proof.
  intros Hc1 Hc2 Hc4.
  induction fuel as [|fuel IH]; intros s H4 H1 H2; [done|].
  set (drop := λ k, set_parentChainCache (delete k (parentChainCache s)) s).
  assert (Hdrop : ∀ k,
    invalidateParentChainCacheRecursive fuel (NumId 4) (drop k) = None ∧
    invalidateParentChainCacheRecursive fuel (NumId 1) (drop k) = None ∧
    invalidateParentChainCacheRecursive fuel (NumId 2) (drop k) = None).
  { intros k. by apply IH. }
  split_and!.
  - change (for_of (getChildren (NumId 4) (drop (NumId 4)))
              (λ child st, invalidateParentChainCacheRecursive fuel (id child) st)
              (drop (NumId 4)) = None).
    change (getChildren (NumId 4) (drop (NumId 4))) with (getChildren (NumId 4) s).
    rewrite H4. simpl. rewrite Hc1. by destruct (Hdrop (NumId 4)) as (_ & -> & _).
  - change (for_of (getChildren (NumId 1) (drop (NumId 1)))
              (λ child st, invalidateParentChainCacheRecursive fuel (id child) st)
              (drop (NumId 1)) = None).
    change (getChildren (NumId 1) (drop (NumId 1))) with (getChildren (NumId 1) s).
    rewrite H1. simpl. rewrite Hc2. by destruct (Hdrop (NumId 1)) as (_ & _ & ->).
  - change (for_of (getChildren (NumId 2) (drop (NumId 2)))
              (λ child st, invalidateParentChainCacheRecursive fuel (id child) st)
              (drop (NumId 2)) = None).
    change (getChildren (NumId 2) (drop (NumId 2))) with (getChildren (NumId 2) s).
    rewrite H2. simpl. rewrite Hc4. by destruct (Hdrop (NumId 2)) as (-> & _ & _).
Qed.

(** C3 as stated fails: the fixture has unique identifiers and acyclic
    parent links, and [updateItem] accepts a record that puts the root 1
    under its grandchild 4; the children lists then lead from 4 to 1 and
    back, and no recursion bound lets the cache invalidation, hence the
    update, return. *)
Lemma updateItem_reparent_counterexample :
  consistent mockStore ∧ acyclic mockStore ∧
  getItem (NumId 1) mockStore = Some (item 0 1 None "Root") ∧
  parent (item 0 1 None "Root") ≠ parent (item 9 1 (Some 4%Z) "Root") ∧
  ∀ fuel, updateItem fuel (item 9 1 (Some 4%Z) "Root") mockStore = None.
Proof.
  split_and!; [exact mockStore_consistent|exact mockStore_acyclic|
               vm_compute; reflexivity|discriminate|].
  intros fuel.
  rewrite (updateItem_reparent_eq fuel (item 9 1 (Some 4%Z) "Root")
             (item 0 1 None "Root") mockStore);
    [|vm_compute; reflexivity|discriminate].
  change (parent (item 0 1 None "Root")) with (@None TreeItemId).
  change (parent (item 9 1 (Some 4%Z) "Root")) with (Some (NumId 4)).
  cbn [mbind option_bind]. unfold invalidateParentChainCache.
  match goal with
  | |- invalidateParentChainCacheRecursive fuel (NumId 4) ?t ≫= _ = None =>
      destruct (invalidate_loops_1_2_4
                  (item 9 1 (Some 4%Z) "Root") (item 1 2 (Some 1%Z) "Child 1")
                  (item 2 3 (Some 1%Z) "Child 2")
                  (item 3 4 (Some 2%Z) "Grandchild 1")
                  (item 4 5 (Some 2%Z) "Grandchild 2")
                  eq_refl eq_refl eq_refl fuel t) as (-> & _);
        [vm_compute; reflexivity..|done]
  end.
Qed.

(** ** Depth-first order *)

Lemma traverse_list fuel s (cs : list ITreeItem) :
  (∀ c r (V : gset TreeItemId) R, c ∈ cs →
     preorder fuel s (id c) = Some r → NoDup (id <$> r) →
     (∀ x, x ∈ r → id x ∉ V) →
     traverse fuel s (id c) (V, R) = Some (V ∪ list_to_set (id <$> r), R ++ r)) →
  ∀ sub (V : gset TreeItemId) R,
    mapM (λ c, preorder fuel s (id c)) cs = Some sub →
    NoDup (id <$> concat sub) → (∀ x, x ∈ concat sub → id x ∉ V) →
    for_of cs (λ c st, traverse fuel s (id c) st) (V, R) =
      Some (V ∪ list_to_set (id <$> concat sub), R ++ concat sub).
Proof.
  induction cs as [|c cs IH]; intros Hone sub V R Hsub Hnd Hfresh.
  - injection Hsub as <-. simpl.
    by rewrite app_nil_r, union_empty_r_L.
  - simpl in Hsub.
    destruct (preorder fuel s (id c)) as [rc|] eqn:Hrc; simpl in Hsub; [|done].
    destruct (mapM _ cs) as [sub'|] eqn:Hsub'; simpl in Hsub; [|done].
    injection Hsub as <-. simpl in Hnd, Hfresh |- *.
    rewrite fmap_app in Hnd. apply NoDup_app in Hnd as (Hnd1 & Hdisj & Hnd2).
    rewrite (Hone c rc V R); [|left|done|done|].
    2:{ intros x Hx. apply Hfresh, elem_of_app. by left. }
    assert (Hrest : ∀ c' r (V' : gset TreeItemId) R', c' ∈ cs →
       preorder fuel s (id c') = Some r → NoDup (id <$> r) →
       (∀ x, x ∈ r → id x ∉ V') →
       traverse fuel s (id c') (V', R') = Some (V' ∪ list_to_set (id <$> r), R' ++ r)).
    { intros c' r V' R' Hc'. apply Hone. by right. }
    simpl. rewrite (IH Hrest sub'); [|done|done|].
    + f_equal. f_equal.
      * rewrite fmap_app, list_to_set_app_L. by rewrite (assoc_L (∪)).
      * by rewrite app_assoc.
    + intros x Hx. apply not_elem_of_union. split.
      * apply Hfresh, elem_of_app. by right.
      * rewrite elem_of_list_to_set. intros Hin.
        apply (Hdisj (id x)); [done|]. by apply list_elem_of_fmap_2.
Qed.

(** Where no identifier is listed twice, the visited set never stops
    [traverse]: it emits the pre-order listing of the subtree. *)
Lemma traverse_preorder fuel s :
  (∀ k x, getItem k s = Some x → id x = k) →
  ∀ k r (V : gset TreeItemId) R,
    preorder fuel s k = Some r → NoDup (id <$> r) →
    (∀ x, x ∈ r → id x ∉ V) →
    traverse fuel s k (V, R) = Some (V ∪ list_to_set (id <$> r), R ++ r).
Proof.
  intros Hids. induction fuel as [|fuel IH]; intros k r V R; simpl; [done|].
  destruct (getItem k s) as [x|] eqn:Hk.
  - destruct (mapM _ (getChildren k s)) as [sub|] eqn:Hsub; simpl; [|done].
    intros [= <-] Hnd Hfresh.
    assert (Hx : id x = k) by by apply Hids.
    rewrite decide_False.
    2:{ rewrite <- Hx. apply Hfresh. left. }
    rewrite fmap_cons in Hnd. apply NoDup_cons in Hnd as [Hxsub Hnd].
    rewrite (traverse_list fuel s (getChildren k s) (λ c r V R _, IH (id c) r V R) sub);
      [|done|done|].
    + f_equal. f_equal.
      * rewrite fmap_cons, list_to_set_cons, Hx.
        by rewrite (assoc_L (∪)).
      * by rewrite <- app_assoc.
    + intros y Hy. apply not_elem_of_union. split.
      * apply Hfresh. by right.
      * rewrite elem_of_singleton. intros Hyk. apply Hxsub.
        rewrite Hx, <- Hyk. by apply list_elem_of_fmap_2.
  - intros [= <-] _ _. rewrite app_nil_r. simpl. rewrite union_empty_r_L.
    by destruct (decide (k ∈ V)).
Qed.

(** C7.  Where no identifier is listed twice, [sortTreeItemsDFS] returns
    the roots ([parent = null]) of the input sequence in their given order,
    each followed, pre-order, by its children in children-list order.  On
    the records [{1:null, 2:1, 3:1, 4:2, 5:2, 6:3}] it yields the
    identifiers [1,2,4,5,3,6], and on [{1:null, 2:null, 3:1, 4:2}] it
    yields [1,3,2,4]. *)
Theorem sortTreeItemsDFS_preorder :
  (∀ fuel allItems s (r : list ITreeItem),
     (∀ k x, getItem k s = Some x → id x = k) →
     depthFirstOrder fuel allItems s = Some r → NoDup (id <$> r) →
     sortTreeItemsDFS fuel allItems s = Some r) ∧
  (fmap (M := list) id <$> sortTreeItemsDFS 3 mockItems mockStore =
     Some [NumId 1; NumId 2; NumId 4; NumId 5; NumId 3; NumId 6]) ∧
  (fmap (M := list) id <$>
     sortTreeItemsDFS 2 multiRootItems (update multiRootItems newStore) =
     Some [NumId 1; NumId 3; NumId 2; NumId 4]).
Proof.
  split_and!.
  - intros fuel allItems s r Hids. unfold depthFirstOrder, sortTreeItemsDFS.
    destruct (mapM _ _) as [sub|] eqn:Hsub; simpl; [|done].
    intros [= <-] Hnd.
    rewrite (traverse_list fuel s _
               (λ c r V R _, traverse_preorder fuel s Hids (id c) r V R) sub);
      [done|done|done|].
    intros x _. apply not_elem_of_empty.
  - vm_compute. reflexivity.
  - vm_compute. reflexivity.
Qed.

Lemma sortTreeItemsDFS_preorder_witness :
  ∃ r, depthFirstOrder 3 mockItems mockStore = Some r ∧
       id <$> r = [NumId 1; NumId 2; NumId 4; NumId 5; NumId 3; NumId 6] ∧
       sortTreeItemsDFS 3 mockItems mockStore = Some r.
Proof.
  destruct (depthFirstOrder 3 mockItems mockStore) as [r|] eqn:Hr;
    [|by vm_compute in Hr].
  exists r. split_and!; [done| |].
  - vm_compute in Hr. injection Hr as <-. reflexivity.
  - apply (proj1 sortTreeItemsDFS_preorder 3 mockItems mockStore r).
    + apply (map_ids mockStore mockStore_consistent).
    + exact Hr.
    + vm_compute in Hr. injection Hr as <-.
      apply (bool_decide_unpack _). vm_compute. exact I.
Defined.

(** ** Two defects of the incremental operations *)

(** C2 (evaluation at the failing input).  The chain of an orphan is
    cached when it is first read.  [addItem] of the missing parent as a
    root invalidates nothing, so the next read still returns the chain that
    stops at the orphan, although its parent now resolves.  In the same
    way the empty chain cached for an unknown identifier survives the
    insertion of a root with that identifier. *)
Theorem getAllParents_stale_after_addItem :
  (∃ l1 w1 s2 l2 w2,
     getAllParents 3 (NumId 2)
       {| store := update [item 0 2 (Some 7%Z) "Orphan"] newStore;
          heap := emptyHeap |} = Some (l1, w1) ∧
     read l1 (heap w1) = Some [item 0 2 (Some 7%Z) "Orphan"] ∧
     addItem 3 (item 1 7 None "Late parent") (store w1) = Some s2 ∧
     getAllParents 3 (NumId 2) {| store := s2; heap := heap w1 |} = Some (l2, w2) ∧
     read l2 (heap w2) = Some [item 0 2 (Some 7%Z) "Orphan"] ∧
     chain s2 (NumId 2)
       [item 0 2 (Some 7%Z) "Orphan"; item 1 7 None "Late parent"]) ∧
  (∃ l1 w1 s2 l2 w2,
     getAllParents 3 (NumId 7)
       {| store := update [] newStore; heap := emptyHeap |} = Some (l1, w1) ∧
     read l1 (heap w1) = Some [] ∧
     addItem 3 (item 1 7 None "Late parent") (store w1) = Some s2 ∧
     getAllParents 3 (NumId 7) {| store := s2; heap := heap w1 |} = Some (l2, w2) ∧
     read l2 (heap w2) = Some [] ∧
     chain s2 (NumId 7) [item 1 7 None "Late parent"]).
Proof.
  split.
  - do 5 eexists. split_and!.
    + vm_compute. reflexivity.
    + vm_compute. reflexivity.
    + vm_compute. reflexivity.
    + vm_compute. reflexivity.
    + vm_compute. reflexivity.
    + eapply chain_step; [vm_compute; reflexivity|reflexivity|].
      apply chain_root; [vm_compute; reflexivity|reflexivity].
  - do 5 eexists. split_and!.
    + vm_compute. reflexivity.
    + vm_compute. reflexivity.
    + vm_compute. reflexivity.
    + vm_compute. reflexivity.
    + vm_compute. reflexivity.
    + apply chain_root; [vm_compute; reflexivity|reflexivity].
Qed.

(** C4 (evaluation at the failing input).  After a label-only update of
    record [2], the children index still holds the object stored before.
    [removeItem 1] collects its descendants from the children index and
    looks each of them up in the canonical sequence with [indexOf]: the
    object it looks for is no longer there, and the renamed record stays in
    the canonical sequence while it is gone from the id index. *)
Theorem removeItem_keeps_renamed_descendant :
  ∃ s1 s2,
    updateItem 3 (item 2 2 (Some 1%Z) "Renamed")
      (update [item 0 1 None "Root"; item 1 2 (Some 1%Z) "Child"] newStore)
      = Some (true, s1) ∧
    removeItem 3 (NumId 1) s1 = Some (true, s2) ∧
    getAll s2 = [item 2 2 (Some 1%Z) "Renamed"] ∧
    getItem (NumId 1) s2 = None ∧
    getItem (NumId 2) s2 = None.
Proof.
  do 2 eexists. split_and!.
  - vm_compute. reflexivity.
  - vm_compute. reflexivity.
  - vm_compute. reflexivity.
  - vm_compute. reflexivity.
  - vm_compute. reflexivity.
Qed.

(** [removeItem] of an identifier that is not stored reports [false] and
    leaves the store as it is. *)
Lemma removeItem_not_found fuel i s :
  getItem i s = None → removeItem fuel i s = Some (false, s).
Proof. intros Hi. unfold removeItem. by rewrite Hi. Qed.

(** ** The subtree collected by [getAllChildren] *)

Lemma for_of_collect (f : ITreeItem → option (list ITreeItem)) cs acc r :
  for_of cs (λ c result, d ← f c; Some ((result ++ [c]) ++ d)) acc = Some r →
  (∀ c, c ∈ cs → is_Some (f c)) ∧
  ∀ x, x ∈ r ↔ x ∈ acc ∨ ∃ c d, c ∈ cs ∧ f c = Some d ∧ (x = c ∨ x ∈ d).
Proof.
  revert acc. induction cs as [|c cs IH]; intros acc; simpl.
  - intros [= <-]. split.
    + intros c Hc. by apply elem_of_nil in Hc.
    + intros x. split; [by left|]. intros [Hx|(c & d & Hc & _)]; [done|].
      by apply elem_of_nil in Hc.
  - destruct (f c) as [d|] eqn:Hd; simpl; [|done].
    intros Hrun. destruct (IH _ Hrun) as [Hsome Hmem]. split.
    + intros c' [-> | Hc']%elem_of_cons; [by rewrite Hd|by apply Hsome].
    + intros x. rewrite Hmem, !elem_of_app, list_elem_of_singleton. split.
      * intros [[[Hx | ->] | Hx] | (c' & d' & Hc' & Hd' & Hx)].
        -- by left.
        -- right. exists c, d. split_and!; [left|done|by left].
        -- right. exists c, d. split_and!; [left|done|by right].
        -- right. exists c', d'. split_and!; [by right|done|done].
      * intros [Hx|(c' & d' & Hc' & Hd' & Hx)]; [by left; left; left|].
        apply elem_of_cons in Hc' as [-> | Hc'].
        -- left. rewrite Hd in Hd'. injection Hd' as <-.
           destruct Hx as [-> | Hx]; [left; by right|by right].
        -- right. by exists c', d'.
Qed.

(** The objects listed by [getAllChildren i] are the entries of the
    children lists of [i] and of everything below [i]. *)
Lemma getAllChildren_spec fuel i s r :
  getAllChildren fuel i s = Some r →
  ∀ x, x ∈ r ↔ ∃ q, below s i q ∧ x ∈ getChildren q s.
Proof.
  revert i r. induction fuel as [|fuel IH]; intros i r; simpl; [done|].
  intros Hrun. apply for_of_collect in Hrun as [Hsome Hmem].
  intros x. rewrite Hmem. split.
  - intros [Hx|(c & d & Hc & Hd & Hx)]; [by apply elem_of_nil in Hx|].
    destruct Hx as [->|Hx].
    + exists i. split; [constructor|done].
    + apply (IH _ _ Hd) in Hx as (q & Hq & Hx).
      exists q. split; [by apply (below_child _ _ c)|done].
  - intros (q & Hq & Hx). right.
    inversion Hq as [|k c q' Hc Hbelow]; subst.
    + destruct (Hsome x Hx) as [d Hd]. exists x, d. by split_and!; [| |left].
    + destruct (Hsome c Hc) as [d Hd]. exists c, d. split_and!; [done|done|].
      right. apply (IH _ _ Hd). by exists q.
Qed.

Lemma below_step s i q x : below s i q → x ∈ getChildren q s → below s i (id x).
Proof.
  intros Hq Hx. apply (below_trans _ _ q); [done|].
  apply (below_child _ _ x); [done|constructor].
Qed.

Lemma below_inv s i k :
  below s i k → k = i ∨ ∃ q x, below s i q ∧ x ∈ getChildren q s ∧ id x = k.
Proof.
  induction 1 as [k|k c d Hc Hbelow IH]; [by left|]. right.
  destruct IH as [->|(q & x & Hq & Hx & <-)].
  - exists k, c. split_and!; [constructor|done|done].
  - exists q, x. split_and!; [by apply (below_child _ _ c)|done|done].
Qed.

(** The identifiers removed by [removeItem i]: [i] and those of the
    objects listed by [getAllChildren i], i.e. everything below [i]. *)
Lemma removed_ids fuel i s item r k :
  getAllChildren fuel i s = Some r → id item = i →
  k ∈ id <$> (item :: r) ↔ below s i k.
Proof.
  intros Hr Hitem. rewrite fmap_cons, elem_of_cons, list_elem_of_fmap. split.
  - intros [->|(x & -> & Hx)]; [rewrite Hitem; constructor|].
    apply (getAllChildren_spec _ _ _ _ Hr) in Hx as (q & Hq & Hx).
    by apply (below_step _ _ q).
  - intros Hk. apply below_inv in Hk as [->|(q & x & Hq & Hx & <-)]; [by left|].
    right. exists x. split; [done|].
    apply (getAllChildren_spec _ _ _ _ Hr). by exists q.
Qed.

Lemma removeOne_sublist s x : items (removeOne s x) `sublist_of` items s.
Proof.
  unfold removeOne, splice1. destruct (indexOf x (items s)); simpl;
    [apply sublist_delete|done].
Qed.

Lemma foldl_removeOne l s :
  (∀ k, itemsMap (foldl removeOne s l) !! k =
        if decide (k ∈ id <$> l) then None else itemsMap s !! k) ∧
  (∀ k, childrenMap (foldl removeOne s l) !! k =
        if decide (k ∈ id <$> l) then None else childrenMap s !! k) ∧
  (∀ k, parentChainCache (foldl removeOne s l) !! k =
        if decide (k ∈ id <$> l) then None else parentChainCache s !! k) ∧
  items (foldl removeOne s l) `sublist_of` items s.
Proof.
  revert s. induction l as [|x l IH]; intros s; simpl.
  - split_and!; try done; intros k; rewrite decide_False; try done;
      apply not_elem_of_nil.
  - destruct (IH (removeOne s x)) as (Hm & Hc & Hp & Hi).
    assert (Hdec : ∀ {V} (m : gmap TreeItemId V) k,
      (if decide (k ∈ id <$> l) then None else delete (id x) m !! k) =
      (if decide (k ∈ id x :: (id <$> l)) then None else m !! k)).
    { intros V m k. destruct (decide (k = id x)) as [->|Hne].
      - rewrite lookup_delete_eq. rewrite (decide_True (P := id x ∈ id x :: _));
          [by destruct (decide _)|left].
      - rewrite lookup_delete_ne by done.
        destruct (decide (k ∈ id <$> l)) as [Hin|Hnin].
        + rewrite decide_True; [done|by right].
        + rewrite decide_False; [done|].
          intros [?|?]%elem_of_cons; done. }
    split_and!.
    + intros k. rewrite Hm. unfold removeOne. simpl.
      destruct (indexOf x (items s)); apply Hdec.
    + intros k. rewrite Hc. unfold removeOne. simpl.
      destruct (indexOf x (items s)); apply Hdec.
    + intros k. rewrite Hp. unfold removeOne. simpl.
      destruct (indexOf x (items s)); apply Hdec.
    + etrans; [done|]. apply removeOne_sublist.
Qed.

(** * Further properties of the store and of the derivations *)

(** ** Replace: what the two passes of [buildIndexes] produce *)

(** X1.  After [update newItems] the canonical sequence is [newItems], the
    cache is empty, and the id index maps an identifier to the last record
    of the sequence carrying it ([undefined] when there is none): with a
    repeated identifier the later record wins.  Nothing of the previous
    store survives. *)
Theorem update_id_index l s :
  getAll (update l s) = l ∧
  parentChainCache (update l s) = ∅ ∧
  (∀ k, getItem k (update l s) = last (filter (λ x : ITreeItem, id x = k) l)) ∧
  (∀ k, k ∉ id <$> l → getItem k (update l s) = None) ∧
  (∀ s0, update l s = update l s0).
Proof.
  split_and!.
  - apply update_items.
  - apply update_parentChainCache.
  - apply update_getItem.
  - intros k Hk. rewrite update_getItem.
    destruct (filter _ l) as [|y f] eqn:Hf using rev_ind; [done|].
    destruct Hk.
    assert (Hy : y ∈ filter (λ x : ITreeItem, id x = k) l).
    { rewrite Hf. apply elem_of_app. right. by apply list_elem_of_singleton. }
    apply list_elem_of_filter in Hy as [<- Hy]. by apply list_elem_of_fmap_2.
  - done.
Qed.

Lemma update_id_index_witness :
  getItem (NumId 999) (update mockItems mockStore) = None ∧
  update mockItems mockStore = update mockItems newStore.
Proof.
  destruct (update_id_index mockItems mockStore) as (_ & _ & _ & Hnone & Hsame).
  split; [|apply Hsame].
  apply Hnone. apply (bool_decide_unpack _). vm_compute. exact I.
Defined.

(** X2.  After [update newItems] the children list of any identifier [p],
    stored or not, is the subsequence of the records naming [p] as parent,
    in the order of [newItems]: records placed before their parent, and
    records whose parent is not in the sequence, are linked all the same. *)
Theorem update_children_index l s p :
  getChildren p (update l s) = filter (λ x : ITreeItem, parent x = Some p) l ∧
  (∀ l1 l2 x, l = l1 ++ x :: l2 → parent x = Some p →
     ∃ n, getChildren p (update l s) !! n = Some x ∧
          n = length (filter (λ x : ITreeItem, parent x = Some p) l1)).
Proof.
  split; [apply update_getChildren|].
  intros l1 l2 x -> Hx. rewrite update_getChildren, filter_app.
  rewrite filter_cons_True by done.
  eexists. split; [|done].
  by rewrite lookup_app_r, Nat.sub_diag.
Qed.

Lemma update_children_index_witness :
  ∃ n, getChildren (NumId 7)
         (update [item 0 8 (Some 7%Z) "Early"; item 1 7 None "Late";
                  item 2 9 (Some 7%Z) "After"] newStore) !! n
       = Some (item 2 9 (Some 7%Z) "After") ∧
       n = length (filter (λ x : ITreeItem, parent x = Some (NumId 7))
                     [item 0 8 (Some 7%Z) "Early"; item 1 7 None "Late"]).
Proof.
  destruct (update_children_index
              [item 0 8 (Some 7%Z) "Early"; item 1 7 None "Late";
               item 2 9 (Some 7%Z) "After"] newStore (NumId 7)) as [_ H].
  apply (H [item 0 8 (Some 7%Z) "Early"; item 1 7 None "Late"] []
           (item 2 9 (Some 7%Z) "After")); reflexivity.
Defined.

(** X3.  A replace by a sequence in which every identifier occurs once
    yields consistent indices: a stored record is found under its own
    identifier, the children lists hold exactly the stored records that name
    the list's key as parent, and no list holds an identifier twice. *)
Theorem update_unique_consistent l s :
  NoDup (id <$> l) →
  consistent (update l s) ∧ listed (update l s) ∧
  ∀ x, x ∈ l → getItem (id x) (update l s) = Some x.
Proof.
  intros Hnd. split_and!.
  - by apply update_consistent.
  - intros k x Hk. rewrite update_items. by apply update_getItem_elem in Hk as [? _].
  - intros x Hx. by apply update_getItem_unique.
Qed.

Lemma update_unique_consistent_witness :
  consistent (update mockItems newStore) ∧ listed (update mockItems newStore) ∧
  ∀ x, x ∈ mockItems → getItem (id x) (update mockItems newStore) = Some x.
Proof.
  apply (update_unique_consistent mockItems newStore).
  apply (bool_decide_unpack _). vm_compute. exact I.
Defined.

(** ** Descendants *)

Lemma for_of_collect_mapM (f : ITreeItem → option (list ITreeItem)) cs acc :
  for_of cs (λ c result, d ← f c; Some ((result ++ [c]) ++ d)) acc =
  (λ subs, acc ++ concat subs) <$> mapM (λ c, cons c <$> f c) cs.
Proof.
  revert acc. induction cs as [|c cs IH]; intros acc; simpl.
  - by rewrite app_nil_r.
  - destruct (f c) as [d|]; simpl; [|done].
    rewrite IH. destruct (mapM _ cs) as [subs|]; simpl; [|done].
    by rewrite <- !app_assoc.
Qed.

Lemma acyclic_ranked s :
  consistent s → acyclic s → ∃ rank, ranked rank s ∧
    ∀ k x p, getItem k s = Some x → parent x = Some p → rank k < rank p.
Proof.
  intros Hcons [rank Hrank]. exists rank. split; [|done].
  intros p c. by apply (consistent_children_rank s rank).
Qed.

(** One call of [getAllChildren]: the blocks of the direct children, each
    child followed by its own descendants, one after the other. *)
Lemma getAllChildren_blocks fuel i s r :
  getAllChildren (S fuel) i s = Some r →
  ∃ subs, r = concat subs ∧
    Forall2 (λ c blk, ∃ d, getAllChildren fuel (id c) s = Some d ∧ blk = c :: d)
      (getChildren i s) subs.
Proof.
  simpl. rewrite for_of_collect_mapM.
  destruct (mapM _ (getChildren i s)) as [subs|] eqn:Hm; simpl; [|done].
  intros [= <-]. exists subs. split; [done|].
  apply mapM_Some in Hm. eapply Forall2_impl; [done|].
  intros c blk Hblk. simpl in Hblk.
  destruct (getAllChildren fuel (id c) s) as [d|]; simpl in Hblk; [|done].
  injection Hblk as <-. by exists d.
Qed.

(** On consistent indices an identifier is in the children list of one
    parent only. *)
Lemma unique_parent s q q' c c' :
  consistent s → c ∈ getChildren q s → c' ∈ getChildren q' s →
  id c = id c' → q = q'.
Proof.
  intros Hcons Hc Hc' Hid.
  destruct (children_sound s Hcons q c Hc) as (y & Hy & Hq).
  destruct (children_sound s Hcons q' c' Hc') as (y' & Hy' & Hq').
  rewrite Hid in Hy. congruence.
Qed.

Lemma below_rank rank s a b : ranked rank s → below s a b → rank b ≤ rank a.
Proof.
  intros Hr. induction 1 as [k|k c d Hc _ IH]; [done|].
  specialize (Hr k c Hc). lia.
Qed.

(** The identifiers above a given one are linearly ordered. *)
Lemma below_linear s a b k :
  consistent s → below s a k → below s b k → below s a b ∨ below s b a.
Proof.
  intros Hcons Ha. revert b. induction Ha as [a|a c k Hc Hck IH]; intros b Hb.
  - by right.
  - destruct (IH b Hb) as [H|H].
    + left. by apply (below_child _ _ c).
    + apply below_inv in H as [Heq|(q & x & Hq & Hx & Hid)].
      * left. rewrite <- Heq. apply (below_child _ _ c); [done|constructor].
      * right. by rewrite (unique_parent s a q c x Hcons Hc Hx (eq_sym Hid)).
Qed.

(** The subtrees of two children of one parent share no identifier. *)
Lemma siblings_disjoint rank s i c1 c2 k :
  consistent s → ranked rank s →
  c1 ∈ getChildren i s → c2 ∈ getChildren i s → id c1 ≠ id c2 →
  below s (id c1) k → below s (id c2) k → False.
Proof.
  intros Hcons Hr H1 H2 Hne Hb1 Hb2.
  assert (Hup : ∀ a b, a ∈ getChildren i s → b ∈ getChildren i s →
            id a ≠ id b → below s (id a) (id b) → False).
  { intros a b Ha Hb Hab H.
    apply below_inv in H as [Heq|(q & x & Hq & Hx & Hid)]; [congruence|].
    assert (q = i) as -> by apply (unique_parent s q i x b Hcons Hx Hb Hid).
    apply (below_rank rank) in Hq; [|done]. specialize (Hr i a Ha). lia. }
  destruct (below_linear s (id c1) (id c2) k Hcons Hb1 Hb2) as [H|H].
  - by apply (Hup c1 c2).
  - apply (Hup c2 c1); [done|done|congruence|done].
Qed.

Lemma blocks_once rank s fuel i cs subs :
  consistent s → ranked rank s →
  (∀ j r, getAllChildren fuel j s = Some r →
     NoDup (id <$> r) ∧
     (∀ r1 x r2 q, r = r1 ++ x :: r2 → x ∈ getChildren q s →
        q = j ∨ q ∈ id <$> r1)) →
  Forall2 (λ c blk, ∃ d, getAllChildren fuel (id c) s = Some d ∧ blk = c :: d)
    cs subs →
  (∀ c, c ∈ cs → c ∈ getChildren i s) → NoDup (id <$> cs) →
  NoDup (id <$> concat subs) ∧
  (∀ k, k ∈ id <$> concat subs → ∃ c, c ∈ cs ∧ below s (id c) k) ∧
  (∀ r1 x r2 q, concat subs = r1 ++ x :: r2 → x ∈ getChildren q s →
     q = i ∨ q ∈ id <$> r1) ∧
  cs `sublist_of` concat subs.
Proof.
  intros Hcons Hr IH.
  induction 1 as [|c blk cs subs (d & Hd & ->) _ IHb]; intros Hin Hnd.
  - simpl. split_and!; [constructor| | |done].
    + intros k Hk. by apply elem_of_nil in Hk.
    + intros r1 x r2 q Heq. by destruct r1.
  - rewrite fmap_cons in Hnd. apply NoDup_cons in Hnd as [Hc Hnd].
    destruct IHb as (IH1 & IH2 & IH3 & IH4);
      [intros c' Hc'; apply Hin; by right|done|].
    destruct (IH (id c) d Hd) as (Hd1 & Hd2).
    assert (Hblock : ∀ k, k ∈ id <$> (c :: d) ↔ below s (id c) k).
    { intros k. by apply (removed_ids fuel (id c) s c d). }
    assert (Hci : c ∈ getChildren i s) by (apply Hin; left).
    change (concat ((c :: d) :: subs)) with ((c :: d) ++ concat subs).
    split_and!.
    + rewrite fmap_app. apply NoDup_app. split_and!; [|intros k Hk1 Hk2|done].
      * rewrite fmap_cons. apply NoDup_cons. split; [|done].
        intros Hcd. apply list_elem_of_fmap in Hcd as (x & Hx1 & Hx2).
        apply (getAllChildren_spec fuel (id c) s d Hd) in Hx2 as (q & Hq & Hxq).
        apply (below_rank rank) in Hq; [|done].
        specialize (Hr q x Hxq). rewrite <- Hx1 in Hr. lia.
      * apply Hblock in Hk1. apply IH2 in Hk2 as (c' & Hc' & Hb').
        apply (siblings_disjoint rank s i c c' k); try done.
        -- apply Hin. by right.
        -- intros Heq. apply Hc. rewrite Heq. by apply list_elem_of_fmap_2.
    + intros k Hk. rewrite fmap_app in Hk. apply elem_of_app in Hk as [Hk|Hk].
      * exists c. split; [left|by apply Hblock].
      * apply IH2 in Hk as (c' & Hc' & Hb'). exists c'. split; [by right|done].
    + intros r1 x r2 q Heq Hx.
      apply app_eq_app in Heq as [l [[H1 H2]|[H1 H2]]].
      * destruct l as [|x' l'].
        -- simpl in H2. destruct (IH3 [] x r2 q (eq_sym H2) Hx) as [Hq|Hq];
             [by left|by apply elem_of_nil in Hq].
        -- simpl in H2. injection H2 as <- ->.
           destruct r1 as [|c0 r1']; simpl in H1.
           ++ injection H1 as <- _. left.
              by apply (unique_parent s q i c c Hcons Hx Hci).
           ++ injection H1 as <- ->. right.
              destruct (Hd2 r1' x l' q eq_refl Hx) as [->|Hq];
                [left|by right].
      * subst r1. destruct (IH3 l x r2 q H2 Hx) as [Hq|Hq]; [by left|].
        right. rewrite fmap_app. apply elem_of_app. by right.
    + apply sublist_skip. by apply sublist_inserts_l.
Qed.

Lemma getAllChildren_once_aux rank s :
  consistent s → ranked rank s →
  ∀ fuel i r, getAllChildren fuel i s = Some r →
    NoDup (id <$> r) ∧
    (∀ r1 x r2 q, r = r1 ++ x :: r2 → x ∈ getChildren q s →
       q = i ∨ q ∈ id <$> r1) ∧
    getChildren i s `sublist_of` r.
Proof.
  intros Hcons Hr. induction fuel as [|fuel IH]; intros i r Hrun; [done|].
  apply getAllChildren_blocks in Hrun as (subs & -> & Hblocks).
  destruct (blocks_once rank s fuel i (getChildren i s) subs Hcons Hr)
    as (H1 & _ & H3 & H4); try done.
  - intros j r Hj. destruct (IH j r Hj) as (? & ? & _). by split.
  - apply (children_nodup s Hcons).
Qed.

(** X4.  On a consistent store with acyclic parent links, [getAllChildren]
    returns as soon as the recursion bound is large enough.  Its result
    lists no identifier twice and does not list the identifier asked for;
    every record in it comes after the record of the parent in whose
    children list it is, unless that parent is the identifier asked for;
    and the direct children occur in it in children-list order. *)
Theorem getAllChildren_each_once i s :
  consistent s → acyclic s →
  ∃ fuel0 r,
    (∀ fuel, fuel0 ≤ fuel → getAllChildren fuel i s = Some r) ∧
    NoDup (id <$> r) ∧
    i ∉ id <$> r ∧
    (∀ r1 x r2 q, r = r1 ++ x :: r2 → x ∈ getChildren q s →
       q = i ∨ q ∈ id <$> r1) ∧
    getChildren i s `sublist_of` r.
Proof.
  intros Hcons Hacyc.
  destruct (acyclic_ranked s Hcons Hacyc) as (rank & Hr & _).
  destruct (getAllChildren_terminates rank s Hr (S (rank i)) i) as [r Hrun]; [lia|].
  destruct (getAllChildren_once_aux rank s Hcons Hr _ i r Hrun) as (H1 & H2 & H3).
  exists (S (rank i)), r. split_and!; [|done| |done|done].
  - intros fuel Hle. by apply (getAllChildren_fuel_mono (S (rank i))).
  - intros Hi. apply list_elem_of_fmap in Hi as (x & Hx1 & Hx2).
    apply (getAllChildren_spec _ i s r Hrun) in Hx2 as (q & Hq & Hxq).
    apply (below_rank rank) in Hq; [|done].
    specialize (Hr q x Hxq). rewrite <- Hx1 in Hr. lia.
Qed.

Lemma getAllChildren_each_once_witness :
  ∃ fuel0 r,
    (∀ fuel, fuel0 ≤ fuel → getAllChildren fuel (NumId 1) mockStore = Some r) ∧
    NoDup (id <$> r) ∧
    NumId 1 ∉ id <$> r ∧
    (∀ r1 x r2 q, r = r1 ++ x :: r2 → x ∈ getChildren q mockStore →
       q = NumId 1 ∨ q ∈ id <$> r1) ∧
    getChildren (NumId 1) mockStore `sublist_of` r.
Proof.
  apply (getAllChildren_each_once (NumId 1) mockStore).
  - exact mockStore_consistent.
  - exact mockStore_acyclic.
Defined.

(** X5.  The records listed by [getAllChildren i] are exactly the entries
    of the children lists of [i] and of every identifier below [i]; and a
    result does not depend on the recursion bound that produced it. *)
Theorem getAllChildren_members fuel i s r :
  getAllChildren fuel i s = Some r →
  (∀ x, x ∈ r ↔ ∃ q, below s i q ∧ x ∈ getChildren q s) ∧
  (∀ fuel', fuel ≤ fuel' → getAllChildren fuel' i s = Some r).
Proof.
  intros Hr. split.
  - by apply (getAllChildren_spec fuel).
  - intros fuel' Hle. by apply (getAllChildren_fuel_mono fuel).
Qed.

Lemma getAllChildren_members_witness :
  (∀ x, x ∈ [item 3 4 (Some 2%Z) "Grandchild 1"; item 4 5 (Some 2%Z) "Grandchild 2"] ↔
        ∃ q, below mockStore (NumId 2) q ∧ x ∈ getChildren q mockStore) ∧
  (∀ fuel', 2 ≤ fuel' →
     getAllChildren fuel' (NumId 2) mockStore =
     Some [item 3 4 (Some 2%Z) "Grandchild 1"; item 4 5 (Some 2%Z) "Grandchild 2"]).
Proof.
  apply (getAllChildren_members 2 (NumId 2) mockStore).
  vm_compute. reflexivity.
Defined.

(** ** Ancestor chains *)

(** The links of an ancestor chain over an id index keyed by the records'
    own identifiers. *)
Lemma chain_links s i c :
  (∀ k x, getItem k s = Some x → id x = k) →
  chain s i c →
  (c = [] ↔ getItem i s = None) ∧
  (∀ x, head c = Some x → getItem i s = Some x) ∧
  (∀ n x y, c !! n = Some x → c !! S n = Some y →
     parent x = Some (id y) ∧ getItem (id y) s = Some y) ∧
  (∀ x, last c = Some x →
     parent x = None ∨ ∃ p, parent x = Some p ∧ getItem p s = None).
Proof.
  intros Hids. induction 1 as [k Hk|k x Hk Hroot|k x p c Hk Hp Hc IH].
  - split_and!; try done.
  - split_and!.
    + split; [done|congruence].
    + by intros ? [= <-].
    + intros [|n] y z Hy Hz; simpl in *; done.
    + intros y [= <-]. by left.
  - destruct IH as (Hnil & Hhead & Hlink & Hlast). split_and!.
    + split; [done|congruence].
    + by intros ? [= <-].
    + intros [|n] y z Hy Hz; simpl in *.
      * injection Hy as <-. destruct c as [|z' c']; [done|].
        simpl in Hz. assert (z' = z) as -> by congruence.
        assert (Hpz : getItem p s = Some z) by by apply Hhead.
        rewrite (Hids p z Hpz). by split.
      * by apply (Hlink n).
    + intros y Hy. destruct c as [|z c'].
      * injection Hy as <-. right. exists p. split; [done|]. by apply Hnil.
      * apply Hlast. by rewrite last_cons_cons in Hy.
Qed.

Lemma parentChainLoop_short s k c :
  chain s k c →
  ∀ fuel acc, fuel < length c → parentChainLoop fuel s (getItem k s) acc = None.
Proof.
  induction 1 as [k Hk|k x Hk Hroot|k x p c Hk Hp _ IH]; intros fuel acc Hlen;
    simpl in Hlen.
  - lia.
  - rewrite Hk. destruct fuel; [done|lia].
  - rewrite Hk. destruct fuel as [|fuel]; [done|]. simpl. rewrite Hp.
    apply IH. lia.
Qed.

Lemma readWorld_eq : getAllParents 3 (NumId 4) mockWorld = Some (1, readWorld).
Proof. vm_compute. reflexivity. Qed.

(** X6.  The array a first [getAllParents] read hands out (no cache entry
    for the identifier), on a store whose id index is keyed by the records'
    own identifiers: it is empty exactly for an unknown identifier; its
    first record is the one stored under the identifier; each record is
    followed by the stored record its parent field names; its last record
    is a root or names a parent that is not stored; and the loop ran at
    most once per record. *)
Theorem getAllParents_first_read_shape fuel i w l w' a :
  (∀ k x, getItem k (store w) = Some x → id x = k) →
  parentChainCache (store w) !! i = None →
  getAllParents fuel i w = Some (l, w') → read l (heap w') = Some a →
  (a = [] ↔ getItem i (store w) = None) ∧
  (∀ x, head a = Some x → getItem i (store w) = Some x) ∧
  (∀ n x y, a !! n = Some x → a !! S n = Some y →
     parent x = Some (id y) ∧ getItem (id y) (store w) = Some y) ∧
  (∀ x, last a = Some x →
     parent x = None ∨ ∃ p, parent x = Some p ∧ getItem p (store w) = None) ∧
  length a ≤ fuel.
Proof.
  intros Hids Hmiss Hcall Ha. unfold getAllParents in Hcall. rewrite Hmiss in Hcall.
  destruct (parentChainLoop fuel (store w) (getItem i (store w)) [])
    as [r|] eqn:Hr; simpl in Hcall; [|done].
  injection Hcall as <- <-.
  unfold read in Ha. simpl in Ha. rewrite lookup_insert_eq in Ha.
  injection Ha as <-.
  assert (Hr' := Hr). apply parentChainLoop_inv in Hr' as (c & Hc & ->). simpl.
  destruct (chain_links (store w) i c Hids Hc) as (H1 & H2 & H3 & H4).
  split_and!; [done..|].
  destruct (decide (length c ≤ fuel)) as [Hle|Hgt]; [done|].
  rewrite (parentChainLoop_short (store w) i c Hc fuel []) in Hr; [done|lia].
Qed.

Lemma getAllParents_first_read_shape_witness :
  ([item 3 4 (Some 2%Z) "Grandchild 1"; item 1 2 (Some 1%Z) "Child 1";
    item 0 1 None "Root"] = [] ↔ getItem (NumId 4) (store mockWorld) = None) ∧
  (∀ x, head [item 3 4 (Some 2%Z) "Grandchild 1"; item 1 2 (Some 1%Z) "Child 1";
              item 0 1 None "Root"] = Some x →
        getItem (NumId 4) (store mockWorld) = Some x) ∧
  (∀ n x y,
     [item 3 4 (Some 2%Z) "Grandchild 1"; item 1 2 (Some 1%Z) "Child 1";
      item 0 1 None "Root"] !! n = Some x →
     [item 3 4 (Some 2%Z) "Grandchild 1"; item 1 2 (Some 1%Z) "Child 1";
      item 0 1 None "Root"] !! S n = Some y →
     parent x = Some (id y) ∧ getItem (id y) (store mockWorld) = Some y) ∧
  (∀ x, last [item 3 4 (Some 2%Z) "Grandchild 1"; item 1 2 (Some 1%Z) "Child 1";
              item 0 1 None "Root"] = Some x →
     parent x = None ∨
     ∃ p, parent x = Some p ∧ getItem p (store mockWorld) = None) ∧
  length [item 3 4 (Some 2%Z) "Grandchild 1"; item 1 2 (Some 1%Z) "Child 1";
          item 0 1 None "Root"] ≤ 3.
Proof.
  apply (getAllParents_first_read_shape 3 (NumId 4) mockWorld 1 readWorld).
  - apply (map_ids mockStore mockStore_consistent).
  - vm_compute. reflexivity.
  - exact readWorld_eq.
  - vm_compute. reflexivity.
Defined.

Lemma getAllParents_miss_chain_aux fuel i w c :
  parentChainCache (store w) !! i = None → chain (store w) i c →
  (length c ≤ fuel → chainOf fuel i w = Some c) ∧
  (∀ c', chainOf fuel i w = Some c' → c' = c).
Proof.
  intros Hmiss Hc. split.
  - intros Hlen. destruct w as [s h]. by apply chainOf_miss.
  - intros c'. unfold chainOf, getAllParents. rewrite Hmiss.
    destruct (parentChainLoop fuel (store w) (getItem i (store w)) [])
      as [r|] eqn:Hr; simpl; [|done].
    unfold read. simpl. rewrite lookup_insert_eq. intros [= <-].
    apply parentChainLoop_inv in Hr as (c0 & Hc0 & ->). simpl.
    by apply (chain_functional (store w) i).
Qed.

(** X7.  A first read (no cache entry for [i]) returns exactly the
    ancestor chain of [i] computed over the current id index, provided the
    loop bound is at least the length of the chain; with a smaller bound it
    does not return. *)
Theorem getAllParents_miss_chain fuel i w c :
  parentChainCache (store w) !! i = None → chain (store w) i c →
  (length c ≤ fuel → chainOf fuel i w = Some c) ∧
  (fuel < length c → getAllParents fuel i w = None) ∧
  (∀ c', chainOf fuel i w = Some c' → c' = c).
Proof.
  intros Hmiss Hc. split_and!.
  - intros Hlen. destruct w as [s h]. by apply chainOf_miss.
  - intros Hlen. unfold getAllParents. rewrite Hmiss.
    by rewrite (parentChainLoop_short _ _ c Hc).
  - intros c'. unfold chainOf, getAllParents. rewrite Hmiss.
    destruct (parentChainLoop fuel (store w) (getItem i (store w)) [])
      as [r|] eqn:Hr; simpl; [|done].
    unfold read. simpl. rewrite lookup_insert_eq. intros [= <-].
    apply parentChainLoop_inv in Hr as (c0 & Hc0 & ->). simpl.
    by apply (chain_functional (store w) i).
Qed.

Lemma getAllParents_miss_chain_witness :
  (length [item 0 2 (Some 7%Z) "Orphan"] ≤ 1 →
   chainOf 1 (NumId 2)
     {| store := update [item 0 2 (Some 7%Z) "Orphan"] newStore; heap := emptyHeap |}
   = Some [item 0 2 (Some 7%Z) "Orphan"]) ∧
  (1 < length [item 0 2 (Some 7%Z) "Orphan"] →
   getAllParents 1 (NumId 2)
     {| store := update [item 0 2 (Some 7%Z) "Orphan"] newStore; heap := emptyHeap |}
   = None) ∧
  (∀ c', chainOf 1 (NumId 2)
           {| store := update [item 0 2 (Some 7%Z) "Orphan"] newStore;
              heap := emptyHeap |} = Some c' →
         c' = [item 0 2 (Some 7%Z) "Orphan"]).
Proof.
  apply (getAllParents_miss_chain 1 (NumId 2)
           {| store := update [item 0 2 (Some 7%Z) "Orphan"] newStore;
              heap := emptyHeap |}).
  - vm_compute. reflexivity.
  - eapply chain_step; [vm_compute; reflexivity|reflexivity|].
    apply chain_unknown. vm_compute. reflexivity.
Defined.

Lemma getAllParents_keeps_indices fuel i w l w' :
  getAllParents fuel i w = Some (l, w') →
  items (store w') = items (store w) ∧
  itemsMap (store w') = itemsMap (store w) ∧
  childrenMap (store w') = childrenMap (store w).
Proof.
  unfold getAllParents.
  destruct (parentChainCache (store w) !! i) as [lc|].
  - destruct (read lc (heap w)) as [a|]; simpl; [|done]. by intros [= <- <-].
  - destruct (parentChainLoop fuel (store w) (getItem i (store w)) []) as [c|];
      simpl; [|done].
    by intros [= <- <-].
Qed.

(** X8.  [getAllParents] only reads the store: the canonical sequence, the
    id index and the children index are unchanged, the cache differs at
    most at the key that was read, the arrays that existed before the call
    keep their contents, and the array handed out is a new one. *)
Theorem getAllParents_frame fuel i w l w' :
  getAllParents fuel i w = Some (l, w') →
  items (store w') = items (store w) ∧
  itemsMap (store w') = itemsMap (store w) ∧
  childrenMap (store w') = childrenMap (store w) ∧
  (∀ j, j ≠ i → parentChainCache (store w') !! j = parentChainCache (store w) !! j) ∧
  is_Some (parentChainCache (store w') !! i) ∧
  (∀ l0, l0 < next (heap w) → read l0 (heap w') = read l0 (heap w)) ∧
  next (heap w) ≤ l ∧ l < next (heap w').
Proof.
  unfold getAllParents.
  destruct (parentChainCache (store w) !! i) as [lc|] eqn:Hi.
  - destruct (read lc (heap w)) as [a|]; simpl; [|done].
    intros [= <- <-]. simpl. split_and!; try done; try lia.
    intros l0 Hl0. unfold read. simpl. rewrite lookup_insert_ne; [done|lia].
  - destruct (parentChainLoop fuel (store w) (getItem i (store w)) []) as [c|];
      simpl; [|done].
    intros [= <- <-]. simpl.
    split_and!; try done; try lia;
      try (intros l0 Hl0; unfold read; simpl; by rewrite !lookup_insert_ne by lia);
      try (intros j Hj; by rewrite lookup_insert_ne);
      try (rewrite lookup_insert_eq; by eexists).
Qed.

Lemma getAllParents_frame_witness :
  ∃ l w',
    getAllParents 3 (NumId 4) mockWorld = Some (l, w') ∧
    items (store w') = items (store mockWorld) ∧
    itemsMap (store w') = itemsMap (store mockWorld) ∧
    childrenMap (store w') = childrenMap (store mockWorld) ∧
    is_Some (parentChainCache (store w') !! NumId 4) ∧
    next (heap mockWorld) ≤ l ∧ l < next (heap w').
Proof.
  destruct (getAllParents 3 (NumId 4) mockWorld) as [[l w']|] eqn:Hcall;
    [|by vm_compute in Hcall].
  exists l, w'.
  destruct (getAllParents_frame 3 (NumId 4) mockWorld l w' Hcall)
    as (H1 & H2 & H3 & _ & H5 & _ & H7 & H8).
  by split_and!.
Defined.

(** ** Derived fields *)

Lemma cache_allocated_callerWrites l f w :
  cache_allocated w → cache_allocated (callerWrites l f w).
Proof.
  intros Halloc i lc Hi. destruct (Halloc i lc Hi) as [[a Ha] Hlt].
  split; [|done]. unfold read, callerWrites in *. simpl.
  destruct (decide (l = lc)) as [->|Hne].
  - rewrite lookup_alter_eq, Ha. by eexists.
  - rewrite lookup_alter_ne by done. by eexists.
Qed.

Lemma chainOf_after_read fuel fuel' i w l1 w1 a :
  cache_allocated w → getAllParents fuel i w = Some (l1, w1) →
  read l1 (heap w1) = Some a →
  chainOf fuel' i w1 = Some a ∧
  ∀ f, chainOf fuel' i (callerWrites l1 f w1) = Some a.
Proof.
  intros Halloc Hcall Ha.
  destruct (getAllParents_post fuel i w l1 w1 Halloc Hcall)
    as (a' & lc & Ha' & Hi & Hlc & _ & Hpriv & _).
  assert (a' = a) as -> by congruence.
  assert (Hhit : chainOf fuel' i w1 = Some a).
  { unfold chainOf. rewrite (getAllParents_hit fuel' i w1 lc a) by done.
    unfold read. simpl. apply lookup_insert_eq. }
  split; [done|]. intros f. by rewrite chainOf_callerWrites.
Qed.

Lemma getItemPath_inv fuel x w p w' :
  getItemPath fuel x w = Some (p, w') →
  ∃ l1 w1 a,
    getAllParents fuel (id x) w = Some (l1, w1) ∧
    read l1 (heap w1) = Some a ∧
    p = label <$> reverse a ∧ w' = callerWrites l1 reverse w1.
Proof.
  unfold getItemPath.
  destruct (getAllParents fuel (id x) w) as [[l1 w1]|] eqn:Hcall; [|done].
  unfold read. simpl. rewrite lookup_alter_eq.
  destruct (cells (heap w1) !! l1) as [a|] eqn:Ha; simpl; [|done].
  intros [= <- <-]. by exists l1, w1, a.
Qed.

Lemma getItemLevel_inv fuel x w n w' :
  getItemLevel fuel x w = Some (n, w') →
  ∃ l a,
    getAllParents fuel (id x) w = Some (l, w') ∧
    read l (heap w') = Some a ∧ n = (Z.of_nat (length a) - 1)%Z.
Proof.
  unfold getItemLevel.
  destruct (getAllParents fuel (id x) w) as [[l w1]|] eqn:Hcall; [|done].
  destruct (read l (heap w1)) as [a|] eqn:Ha; [|done].
  intros [= <- <-]. by exists l, a.
Qed.

(** X9.  [getItemPath] returns the labels of the chain that
    [getAllParents] yields, root first.  It reverses the array it was
    handed in place, and the cache is not affected: a later
    [getAllParents] for the same identifier still yields the chain with the
    record itself first.  The indices of the store are unchanged. *)
Theorem getItemPath_root_first fuel x w p w' :
  cache_allocated w → getItemPath fuel x w = Some (p, w') →
  ∃ a,
    chainOf fuel (id x) w = Some a ∧
    p = reverse (label <$> a) ∧
    (∀ fuel', chainOf fuel' (id x) w' = Some a) ∧
    cache_allocated w' ∧
    items (store w') = items (store w) ∧
    itemsMap (store w') = itemsMap (store w) ∧
    childrenMap (store w') = childrenMap (store w).
Proof.
  intros Halloc Hpath.
  apply getItemPath_inv in Hpath as (l1 & w1 & a & Hcall & Ha & -> & ->).
  exists a.
  destruct (getAllParents_post fuel (id x) w l1 w1 Halloc Hcall)
    as (_ & _ & _ & _ & _ & Halloc1 & _ & _).
  destruct (getAllParents_keeps_indices fuel (id x) w l1 w1 Hcall)
    as (Hi & Hm & Hc).
  split_and!.
  - unfold chainOf. by rewrite Hcall.
  - by rewrite fmap_reverse.
  - intros fuel'. by apply (chainOf_after_read fuel fuel' (id x) w l1 w1 a).
  - by apply cache_allocated_callerWrites.
  - done.
  - done.
  - done.
Qed.

Lemma getItemPath_root_first_witness :
  ∃ p w' a,
    getItemPath 3 (item 3 4 (Some 2%Z) "Grandchild 1") mockWorld = Some (p, w') ∧
    chainOf 3 (id (item 3 4 (Some 2%Z) "Grandchild 1")) mockWorld = Some a ∧
    p = reverse (label <$> a) ∧
    (∀ fuel', chainOf fuel' (id (item 3 4 (Some 2%Z) "Grandchild 1")) w' = Some a).
Proof.
  destruct (getItemPath 3 (item 3 4 (Some 2%Z) "Grandchild 1") mockWorld)
    as [[p w']|] eqn:Hpath; [|by vm_compute in Hpath].
  destruct (getItemPath_root_first 3 (item 3 4 (Some 2%Z) "Grandchild 1")
              mockWorld p w') as (a & Ha & Hp & Hlater & _).
  - apply newHeap_cache_allocated. vm_compute. reflexivity.
  - exact Hpath.
  - exists p, w', a. split_and!; first [assumption|reflexivity].
Defined.

Lemma enrichTreeItem_post fuel x w e w' :
  cache_allocated w → enrichTreeItem fuel x w = Some (e, w') →
  e_id e = id x ∧ e_parent e = parent x ∧ e_label e = label x ∧
  hasChildren e = bool_decide (0 < length (getChildren (id x) (store w))) ∧
  category e = determineCategory x (store w) ∧
  (∃ a, chainOf fuel (id x) w = Some a ∧
        path e = reverse (label <$> a) ∧
        level e = (Z.of_nat (length a) - 1)%Z ∧
        ∀ fuel', chainOf fuel' (id x) w' = Some a) ∧
  cache_allocated w' ∧
  items (store w') = items (store w) ∧
  itemsMap (store w') = itemsMap (store w) ∧
  childrenMap (store w') = childrenMap (store w).
Proof.
  intros Halloc. unfold enrichTreeItem.
  destruct (getItemPath fuel x w) as [[p w1]|] eqn:Hpath; [|done].
  destruct (getItemLevel fuel x w1) as [[n w2]|] eqn:Hlevel; [|done].
  intros [= <- <-]. simpl.
  apply getItemPath_inv in Hpath as (l1 & w0 & a & Hcall & Ha & -> & ->).
  apply getItemLevel_inv in Hlevel as (l2 & a2 & Hcall2 & Ha2 & ->).
  destruct (getAllParents_post fuel (id x) w l1 w0 Halloc Hcall)
    as (_ & _ & _ & _ & _ & Halloc0 & _ & _).
  assert (Halloc1 : cache_allocated (callerWrites l1 reverse w0))
    by by apply cache_allocated_callerWrites.
  destruct (chainOf_after_read fuel fuel (id x) w l1 w0 a Halloc Hcall Ha)
    as [_ Hrev].
  specialize (Hrev reverse). unfold chainOf in Hrev. rewrite Hcall2 in Hrev.
  assert (a2 = a) as -> by congruence.
  destruct (getAllParents_post fuel (id x) _ l2 w2 Halloc1 Hcall2)
    as (_ & _ & _ & _ & _ & Halloc2 & _ & _).
  destruct (getAllParents_keeps_indices fuel (id x) w l1 w0 Hcall) as (Hi & Hm & Hc).
  destruct (getAllParents_keeps_indices fuel (id x) _ l2 w2 Hcall2)
    as (Hi2 & Hm2 & Hc2).
  simpl in Hi2, Hm2, Hc2.
  split_and!; try done; try congruence.
  exists a. split_and!.
  - unfold chainOf. by rewrite Hcall.
  - by rewrite fmap_reverse.
  - done.
  - intros fuel'.
    by apply (chainOf_after_read fuel fuel' (id x) _ l2 w2 a Halloc1 Hcall2).
Qed.

(** X10.  [enrichTreeItem] copies the three fields of the record and adds
    four: [hasChildren] tells whether the children list of the record is
    non-empty, [category] is the group category exactly when it is, [path]
    is the list of labels of the ancestor chain, root first, and [level] is
    the length of the chain minus one, so that [level = path.length - 1]
    (the second read of the chain is served from the cache and is not
    affected by the reversal done for [path]).  For a record that is not
    stored and has no cache entry, [path] is empty and [level] is [-1]. *)
Theorem enrichTreeItem_fields fuel x w e w' :
  cache_allocated w → enrichTreeItem fuel x w = Some (e, w') →
  e_id e = id x ∧ e_parent e = parent x ∧ e_label e = label x ∧
  (hasChildren e = true ↔ getChildren (id x) (store w) ≠ []) ∧
  (category e = Group ↔ hasChildren e = true) ∧
  level e = (Z.of_nat (length (path e)) - 1)%Z ∧
  (∃ a, chainOf fuel (id x) w = Some a ∧ path e = reverse (label <$> a)) ∧
  (getItem (id x) (store w) = None →
   parentChainCache (store w) !! id x = None →
   path e = [] ∧ level e = (-1)%Z).
Proof.
  intros Halloc Henrich.
  destruct (enrichTreeItem_post fuel x w e w' Halloc Henrich)
    as (Hid & Hpar & Hlab & Hhas & Hcat & (a & Ha & Hpath & Hlevel & _) & _).
  split_and!; try done.
  - rewrite Hhas, bool_decide_eq_true.
    destruct (getChildren (id x) (store w)); simpl; split; try done; lia.
  - rewrite Hcat, Hhas, bool_decide_eq_true. unfold determineCategory.
    by destruct (decide (0 < length (getChildren (id x) (store w)))).
  - by rewrite Hlevel, Hpath, length_reverse, length_fmap.
  - by exists a.
  - intros Hnone Hmiss.
    destruct (getAllParents_miss_chain_aux fuel (id x) w [] Hmiss) as [Hsome _].
    { by constructor. }
    rewrite Hsome in Ha by (simpl; lia). injection Ha as <-.
    by rewrite Hpath, Hlevel.
Qed.

Lemma enrichTreeItem_fields_witness :
  ∃ e w',
    enrichTreeItem 3 (item 3 4 (Some 2%Z) "Grandchild 1") mockWorld = Some (e, w') ∧
    e_id e = NumId 4 ∧ e_parent e = Some (NumId 2) ∧ e_label e = "Grandchild 1" ∧
    (hasChildren e = true ↔ getChildren (NumId 4) (store mockWorld) ≠ []) ∧
    (category e = Group ↔ hasChildren e = true) ∧
    level e = (Z.of_nat (length (path e)) - 1)%Z.
Proof.
  destruct (enrichTreeItem 3 (item 3 4 (Some 2%Z) "Grandchild 1") mockWorld)
    as [[e w']|] eqn:Henrich; [|by vm_compute in Henrich].
  exists e, w'.
  destruct (enrichTreeItem_fields 3 (item 3 4 (Some 2%Z) "Grandchild 1")
              mockWorld e w') as (H1 & H2 & H3 & H4 & H5 & H6 & _).
  - apply newHeap_cache_allocated. vm_compute. reflexivity.
  - exact Henrich.
  - by split_and!.
Defined.

Lemma chain_same_itemsMap s s' k c :
  itemsMap s' = itemsMap s → chain s k c → chain s' k c.
Proof.
  intros Hm. induction 1 as [k Hk|k x Hk Hroot|k x p c Hk Hp _ IH].
  - apply chain_unknown. unfold getItem in *. by rewrite Hm.
  - apply chain_root; [|done]. unfold getItem in *. by rewrite Hm.
  - eapply chain_step; [|done|done]. unfold getItem in *. by rewrite Hm.
Qed.

Lemma enrichTreeItem_is_Some fuel x w c :
  cache_allocated w → chain (store w) (id x) c → length c ≤ fuel →
  is_Some (enrichTreeItem fuel x w).
Proof.
  intros Halloc Hc Hlen. unfold enrichTreeItem, getItemPath.
  destruct (getAllParents_is_Some fuel (id x) w c Halloc Hc Hlen) as [[l1 w1] Hcall].
  rewrite Hcall.
  destruct (getAllParents_post fuel (id x) w l1 w1 Halloc Hcall)
    as (a & lc & Ha & Hi & Hlc & Halloc1 & Hpriv & _).
  unfold read in *. simpl. rewrite lookup_alter_eq, Ha. simpl.
  unfold getItemLevel.
  assert (Hne : lc ≠ l1) by by eapply Hpriv.
  rewrite (getAllParents_hit fuel (id x) _ lc a); simpl.
  - unfold read. simpl. rewrite lookup_insert_eq. by eexists.
  - done.
  - unfold read. simpl. by rewrite lookup_alter_ne.
Qed.

Lemma convertToAgGridFormat_post fuel l w es w' :
  cache_allocated w → convertToAgGridFormat fuel l w = Some (es, w') →
  Forall2 (λ x e,
     e_id e = id x ∧ e_parent e = parent x ∧ e_label e = label x ∧
     hasChildren e = bool_decide (0 < length (getChildren (id x) (store w))) ∧
     category e = determineCategory x (store w) ∧
     level e = (Z.of_nat (length (path e)) - 1)%Z) l es ∧
  cache_allocated w' ∧
  items (store w') = items (store w) ∧
  itemsMap (store w') = itemsMap (store w) ∧
  childrenMap (store w') = childrenMap (store w).
Proof.
  revert w es w'. induction l as [|x l IH]; intros w es w' Halloc; simpl.
  - intros [= <- <-]. by split_and!.
  - destruct (enrichTreeItem fuel x w) as [[e w1]|] eqn:He; [|done].
    destruct (convertToAgGridFormat fuel l w1) as [[es1 w2]|] eqn:Hrest; [|done].
    intros [= <- <-].
    destruct (enrichTreeItem_post fuel x w e w1 Halloc He)
      as (H1 & H2 & H3 & H4 & H5 & (a & _ & Hpath & Hlevel & _) & Halloc1 & Hi & Hm & Hc).
    destruct (IH w1 es1 w2 Halloc1 Hrest) as (Hall & Halloc2 & Hi2 & Hm2 & Hc2).
    split_and!; [|done|congruence|congruence|congruence].
    constructor.
    + split_and!; try done.
      by rewrite Hlevel, Hpath, length_reverse, length_fmap.
    + eapply Forall2_impl; [done|]. intros y e' (? & ? & ? & ? & ? & ?).
      unfold determineCategory, getChildren in *. rewrite <- Hc.
      by split_and!.
Qed.

Lemma Forall2_fmap_eq {A B C : Type} (f : B → C) (g : A → C)
    (l : list A) (es : list B) :
  Forall2 (λ x e, f e = g x) l es → f <$> es = g <$> l.
Proof.
  induction 1 as [|x e l es Hxe _ IH]; [done|].
  rewrite !fmap_cons. by f_equal.
Qed.

(** X11.  [convertToAgGridFormat] maps the sequence in order: the result
    has the length of the input, and its n-th entry carries the identifier,
    parent and label of the n-th record, with [hasChildren] and [category]
    agreeing with the children index and [level = path.length - 1]; the
    indices of the store are unchanged.  The empty sequence gives the empty
    result. *)
Theorem convertToAgGridFormat_in_order fuel l w es w' :
  cache_allocated w → convertToAgGridFormat fuel l w = Some (es, w') →
  length es = length l ∧
  e_id <$> es = id <$> l ∧
  e_parent <$> es = parent <$> l ∧
  e_label <$> es = label <$> l ∧
  Forall (λ e,
    level e = (Z.of_nat (length (path e)) - 1)%Z ∧
    (category e = Group ↔ hasChildren e = true) ∧
    (hasChildren e = true ↔ getChildren (e_id e) (store w) ≠ [])) es ∧
  (l = [] → es = []) ∧
  items (store w') = items (store w) ∧
  itemsMap (store w') = itemsMap (store w) ∧
  childrenMap (store w') = childrenMap (store w).
Proof.
  intros Halloc Hrun.
  destruct (convertToAgGridFormat_post fuel l w es w' Halloc Hrun)
    as (Hall & _ & Hi & Hm & Hc).
  split_and!; try done.
  - symmetry. by eapply Forall2_length.
  - apply Forall2_fmap_eq. eapply Forall2_impl; [done|]. by intros x e (? & _).
  - apply Forall2_fmap_eq. eapply Forall2_impl; [done|]. by intros x e (_ & ? & _).
  - apply Forall2_fmap_eq. eapply Forall2_impl; [done|].
    by intros x e (_ & _ & ? & _).
  - clear Hrun. induction Hall as [|x e l es (Hid & _ & _ & Hhas & Hcat & Hlev) _ IH];
      constructor; [|done].
    split_and!; [done| |].
    + rewrite Hcat, Hhas, bool_decide_eq_true. unfold determineCategory.
      by destruct (decide (0 < length (getChildren (id x) (store w)))).
    + rewrite Hhas, Hid, bool_decide_eq_true.
      destruct (getChildren (id x) (store w)); simpl; split; try done; lia.
  - intros ->. by inversion Hall.
Qed.

Lemma convertToAgGridFormat_in_order_witness :
  ∃ es w',
    convertToAgGridFormat 3 mockItems mockWorld = Some (es, w') ∧
    length es = length mockItems ∧
    e_id <$> es = id <$> mockItems ∧
    e_label <$> es = label <$> mockItems ∧
    Forall (λ e,
      level e = (Z.of_nat (length (path e)) - 1)%Z ∧
      (category e = Group ↔ hasChildren e = true) ∧
      (hasChildren e = true ↔ getChildren (e_id e) (store mockWorld) ≠ [])) es.
Proof.
  destruct (convertToAgGridFormat 3 mockItems mockWorld)
    as [[es w']|] eqn:Hrun; [|by vm_compute in Hrun].
  exists es, w'.
  destruct (convertToAgGridFormat_in_order 3 mockItems mockWorld es w')
    as (H1 & H2 & _ & H4 & H5 & _).
  - apply newHeap_cache_allocated. vm_compute. reflexivity.
  - exact Hrun.
  - by split_and!.
Defined.

(** X12.  On a store with acyclic parent links, [convertToAgGridFormat]
    returns for every input sequence, as soon as the loop bound is large
    enough. *)
Theorem convertToAgGridFormat_terminates l w :
  cache_allocated w → acyclic (store w) →
  ∃ fuel0, ∀ fuel, fuel0 ≤ fuel → is_Some (convertToAgGridFormat fuel l w).
Proof.
  intros Halloc Hacyc.
  assert (Hbound : ∃ fuel0, ∀ x, x ∈ l →
            ∃ c, chain (store w) (id x) c ∧ length c ≤ fuel0).
  { induction l as [|x l [f0 IH]].
    - exists 0. intros x Hx. by apply elem_of_nil in Hx.
    - destruct (acyclic_chain (store w) (id x) Hacyc) as [c Hc].
      exists (Nat.max f0 (length c)). intros y [->|Hy]%elem_of_cons.
      + exists c. split; [done|lia].
      + destruct (IH y Hy) as (c' & Hc' & Hlen). exists c'. split; [done|lia]. }
  destruct Hbound as [fuel0 Hbound]. exists fuel0. intros fuel Hfuel.
  clear Hacyc. revert w Halloc Hbound.
  induction l as [|x l IH]; intros w Halloc Hbound; simpl; [by eexists|].
  destruct (Hbound x) as (c & Hc & Hlen); [left|].
  destruct (enrichTreeItem_is_Some fuel x w c Halloc Hc) as [[e w1] He]; [lia|].
  rewrite He.
  destruct (enrichTreeItem_post fuel x w e w1 Halloc He)
    as (_ & _ & _ & _ & _ & _ & Halloc1 & _ & Hm & _).
  destruct (IH w1 Halloc1) as [[es w2] Hrest].
  { intros y Hy. destruct (Hbound y) as (c' & Hc' & Hlen'); [by right|].
    exists c'. split; [|done]. by apply (chain_same_itemsMap (store w)). }
  rewrite Hrest. by eexists.
Qed.

Lemma convertToAgGridFormat_terminates_witness :
  ∃ fuel0, ∀ fuel, fuel0 ≤ fuel →
    is_Some (convertToAgGridFormat fuel mockItems mockWorld).
Proof.
  apply (convertToAgGridFormat_terminates mockItems mockWorld).
  - apply newHeap_cache_allocated. vm_compute. reflexivity.
  - exact mockStore_acyclic.
Defined.

(** ** The traversal always returns *)

Lemma traverse_total s fuel k (V : gset TreeItemId) R :
  size (dom (itemsMap s) ∖ V) < fuel →
  ∃ V' R', traverse fuel s k (V, R) = Some (V', R') ∧ V ⊆ V'.
Proof.
  revert k V R. induction fuel as [|fuel IH]; intros k V R Hsize; [lia|].
  simpl. destruct (decide (k ∈ V)) as [Hin|Hnin]; [by exists V, R|].
  destruct (getItem k s) as [x|] eqn:Hk; [|by exists V, R].
  assert (Hlt : size (dom (itemsMap s) ∖ (V ∪ {[k]})) < fuel).
  { assert (Hsub : dom (itemsMap s) ∖ (V ∪ {[k]}) ⊂ dom (itemsMap s) ∖ V).
    { assert (Hdom : k ∈ dom (itemsMap s)) by (apply elem_of_dom; by exists x).
      set_solver. }
    apply subset_size in Hsub. lia. }
  destruct (for_of_is_Some (λ st : gset TreeItemId * list ITreeItem, V ∪ {[k]} ⊆ st.1)
              (getChildren k s) (λ child st, traverse fuel s (id child) st)
              (V ∪ {[k]}, R ++ [x])) as ([V' R'] & Hrun & Hsub); [done| |].
  - intros c [V2 R2] _ HV2. simpl in HV2.
    destruct (IH (id c) V2 R2) as (V3 & R3 & Hrun & Hsub3).
    + assert (Hle : dom (itemsMap s) ∖ V2 ⊆ dom (itemsMap s) ∖ (V ∪ {[k]}))
        by set_solver.
      apply subseteq_size in Hle. lia.
    + exists (V3, R3). split; [done|]. simpl. set_solver.
  - exists V', R'. split; [done|]. simpl in Hsub. set_solver.
Qed.

Lemma extends_refl s a : extends s a a.
Proof.
  intros HV Hnd. split_and!; [done|done|].
  exists []. split; [by rewrite app_nil_r|].
  intros y Hy. by apply elem_of_nil in Hy.
Qed.

Lemma extends_trans s a b c : extends s a b → extends s b c → extends s a c.
Proof.
  intros Hab Hbc HV Hnd.
  destruct (Hab HV Hnd) as (HVb & Hndb & add1 & Hb & Hadd1).
  destruct (Hbc HVb Hndb) as (HVc & Hndc & add2 & Hc & Hadd2).
  split_and!; [done|done|]. exists (add1 ++ add2).
  split; [by rewrite Hc, Hb, <- app_assoc|].
  intros y [Hy|Hy]%elem_of_app; [by apply Hadd1|by apply Hadd2].
Qed.

(** What [traverse] keeps. *)
Lemma traverse_keeps s :
  (∀ k x, getItem k s = Some x → id x = k) →
  ∀ fuel k st st', traverse fuel s k st = Some st' → extends s st st'.
Proof.
  intros Hids fuel.
  induction fuel as [|fuel IH]; intros k [V R] st'; simpl; [done|].
  destruct (decide (k ∈ V)) as [Hin|Hnin].
  { intros [= <-]. apply extends_refl. }
  destruct (getItem k s) as [x|] eqn:Hk.
  2:{ intros [= <-]. apply extends_refl. }
  intros Hrun.
  assert (Hx : id x = k) by by apply Hids.
  pose proof (for_of_preserves (extends s) _ _ _ _
                (extends_refl s) (extends_trans s)
                (λ c a b _ Hc, IH (id c) a b Hc) Hrun) as Hstep.
  intros HV Hnd. simpl in HV, Hnd.
  destruct Hstep as (HV' & Hnd' & added & Hst' & Hadded); simpl.
  - rewrite fmap_app, list_to_set_app_L, HV. simpl. rewrite Hx.
    by rewrite union_empty_r_L.
  - rewrite fmap_app. apply NoDup_app. split_and!; [done| |].
    + intros y Hy. simpl. rewrite list_elem_of_singleton. intros ->.
      apply Hnin. rewrite HV, elem_of_list_to_set. by rewrite <- Hx.
    + simpl. apply NoDup_singleton.
  - split_and!; [done|done|]. exists (x :: added).
    split; [simpl in Hst'; by rewrite Hst', <- app_assoc|].
    intros y [->|Hy]%elem_of_cons; [by rewrite Hx|by apply Hadded].
Qed.

(** X13.  [sortTreeItemsDFS] returns on every store, cyclic or not, as
    soon as the recursion bound exceeds the number of stored records: each
    call that recurses has added a stored identifier to [visited].  Its
    result lists no identifier twice and consists of stored records; for an
    input without roots, in particular the empty input, it is empty. *)
Theorem sortTreeItemsDFS_total fuel l s :
  (∀ k x, getItem k s = Some x → id x = k) →
  size (itemsMap s) < fuel →
  ∃ r, sortTreeItemsDFS fuel l s = Some r ∧
       NoDup (id <$> r) ∧
       (∀ x, x ∈ r → getItem (id x) s = Some x) ∧
       (filter (λ x : ITreeItem, parent x = None) l = [] → r = []).
Proof.
  intros Hids Hsize. unfold sortTreeItemsDFS.
  set (roots := filter (λ x : ITreeItem, parent x = None) l).
  destruct (for_of_is_Some (λ _ : gset TreeItemId * list ITreeItem, True) roots
              (λ rootItem st, traverse fuel s (id rootItem) st) (∅, []))
    as ([V r] & Hrun & _); [done| |].
  { intros c [Va Ra] _ _.
    destruct (traverse_total s fuel (id c) Va Ra) as (Vb & Rb & Hb & _).
    - assert (Hle : dom (itemsMap s) ∖ Va ⊆ dom (itemsMap s)) by set_solver.
      apply subseteq_size in Hle. rewrite size_dom in Hle. lia.
    - by exists (Vb, Rb). }
  rewrite Hrun. simpl. exists r. split; [done|].
  pose proof (for_of_preserves (extends s) _ _ _ _
                (extends_refl s) (extends_trans s)
                (λ c a b _ Hc, traverse_keeps s Hids fuel (id c) a b Hc) Hrun)
    as Hstep.
  destruct Hstep as (_ & Hnd & added & Hr & Hadded); [done|constructor|].
  simpl in Hr, Hnd. subst r.
  split_and!; [done|done|].
  intros Hnil. fold roots in Hnil. rewrite Hnil in Hrun. simpl in Hrun.
  by injection Hrun as _ <-.
Qed.

Lemma sortTreeItemsDFS_total_witness :
  ∃ r, sortTreeItemsDFS 7 (mockItems ++ mockItems) (update mockItems newStore) = Some r ∧
       NoDup (id <$> r) ∧
       (∀ x, x ∈ r → getItem (id x) (update mockItems newStore) = Some x) ∧
       (filter (λ x : ITreeItem, parent x = None) (mockItems ++ mockItems) = [] →
        r = []).
Proof.
  apply (sortTreeItemsDFS_total 7 (mockItems ++ mockItems)
           (update mockItems newStore)).
  - intros k x Hk. by apply update_getItem_elem in Hk as [_ ->].
  - vm_compute. lia.
Defined.

(** ** Removal *)

Lemma removeFromChildrenMap_lookup p c s k :
  childrenMap (removeFromChildrenMap p c s) !! k =
    if decide (k = p) then unlinked c <$> (childrenMap s !! p)
    else childrenMap s !! k.
Proof.
  unfold removeFromChildrenMap, unlinked.
  destruct (childrenMap s !! p) as [cs|] eqn:Hp; simpl.
  - destruct (findIndex _ cs) as [n|]; simpl.
    + destruct (decide (k = p)) as [->|Hne].
      * by rewrite lookup_insert_eq.
      * by rewrite lookup_insert_ne.
    + destruct (decide (k = p)) as [->|Hne]; [by rewrite Hp|done].
  - destruct (decide (k = p)) as [->|Hne]; [by rewrite Hp|done].
Qed.

Lemma removeItem_eq fuel i s item :
  getItem i s = Some item →
  removeItem fuel i s =
    (allChildren ← getAllChildren fuel i s;
     match parent item with
     | Some p =>
         s3 ← invalidateParentChainCache fuel p
                (removeFromChildrenMap p i (foldl removeOne s (item :: allChildren)));
         Some (true, s3)
     | None => Some (true, foldl removeOne s (item :: allChildren))
     end).
Proof. intros Hi. unfold removeItem. by rewrite Hi. Qed.

Lemma elem_of_delete_other (l : list ITreeItem) n x y :
  l !! n = Some x → y ∈ l → y ≠ x → y ∈ delete n l.
Proof.
  intros Hn Hy Hne. rewrite delete_take_drop.
  rewrite <- (take_drop_middle l n x Hn) in Hy.
  apply elem_of_app in Hy as [Hy|Hy]; [apply elem_of_app; by left|].
  apply elem_of_cons in Hy as [->|Hy]; [done|]. apply elem_of_app. by right.
Qed.

Lemma foldl_removeOne_keeps l s y :
  y ∈ items s → y ∉ l → y ∈ items (foldl removeOne s l).
Proof.
  revert s. induction l as [|x l IH]; intros s Hy Hnin; simpl; [done|].
  apply IH.
  - unfold removeOne, splice1. destruct (indexOf x (items s)) as [n|] eqn:Hn; simpl.
    + apply (elem_of_delete_other _ _ x); [by apply indexOf_Some|done|].
      intros ->. apply Hnin. left.
    + done.
  - intros Hin. apply Hnin. by right.
Qed.

(** What a removal does to the indices, on a store whose children index
    descends along a rank. *)
Lemma removeItem_total rank i s item :
  ranked rank s → getItem i s = Some item → id item = i →
  ∃ fuel0 s',
    (∀ fuel, fuel0 ≤ fuel → removeItem fuel i s = Some (true, s')) ∧
    (∀ k, below s i k →
       getItem k s' = None ∧ childrenMap s' !! k = None ∧
       parentChainCache s' !! k = None) ∧
    (∀ k, ¬ below s i k →
       getItem k s' = getItem k s ∧
       getChildren k s' =
         if decide (parent item = Some k) then unlinked i (getChildren k s)
         else getChildren k s) ∧
    (∀ k l, parentChainCache s' !! k = Some l → parentChainCache s !! k = Some l) ∧
    items s' `sublist_of` items s ∧
    (∀ y, y ∈ items s → ¬ below s i (id y) → y ∈ items s').
Proof.
  intros Hranked Hi Hid.
  set (fuel0 := S (Nat.max (rank i) (from_option rank 0 (parent item)))).
  destruct (getAllChildren_terminates rank s Hranked fuel0 i) as [r Hr];
    [unfold fuel0; lia|].
  set (s1 := foldl removeOne s (item :: r)).
  destruct (foldl_removeOne (item :: r) s) as (Hm1 & Hc1 & Hp1 & Hi1).
  fold s1 in Hm1, Hc1, Hp1, Hi1.
  assert (HK : ∀ k, k ∈ id <$> item :: r ↔ below s i k).
  { intros k. by apply (removed_ids fuel0). }
  assert (Hin : ∀ {V} (m : gmap TreeItemId V) k, below s i k →
            (if decide (k ∈ id <$> item :: r) then None else m !! k) = None).
  { intros V m k Hk. rewrite decide_True; [done|by apply HK]. }
  assert (Hout : ∀ {V} (m : gmap TreeItemId V) k, ¬ below s i k →
            (if decide (k ∈ id <$> item :: r) then None else m !! k) = m !! k).
  { intros V m k Hk. rewrite decide_False; [done|]. by rewrite HK. }
  assert (Hch1 : ∀ k, getChildren k s1 `sublist_of` getChildren k s).
  { intros k. unfold getChildren. rewrite Hc1.
    destruct (decide (k ∈ id <$> item :: r)); [apply sublist_nil_l|done]. }
  assert (Hkeep1 : ∀ y, y ∈ items s → ¬ below s i (id y) → y ∈ items s1).
  { intros y Hy Hnb. apply foldl_removeOne_keeps; [done|].
    intros Hin'. apply Hnb, HK. by apply list_elem_of_fmap_2. }
  destruct (parent item) as [p|] eqn:Hp.
  - set (s2 := removeFromChildrenMap p i s1).
    destruct (removeFromChildrenMap_frame p i s1) as (Hi2 & Hm2 & Hp2).
    fold s2 in Hi2, Hm2, Hp2.
    assert (Hch2 : ∀ k, getChildren k s2 `sublist_of` getChildren k s).
    { intros k. unfold s2. rewrite removeFromChildrenMap_getChildren.
      destruct (decide (k = p)) as [->|_]; [|done].
      etrans; [apply unlinked_sublist|done]. }
    destruct (invalidate_ranked rank fuel0 p s2) as (s3 & Hs3 & Hinv3 & _).
    { intros q c Hc. apply Hranked. by eapply elem_of_sublist. }
    { unfold fuel0. simpl. lia. }
    destruct Hinv3 as (Hi3 & Hm3 & Hc3 & Hp3).
    exists fuel0, s3. split_and!.
    + intros fuel Hfuel. rewrite (removeItem_eq fuel i s item Hi).
      rewrite (getAllChildren_fuel_mono fuel0 fuel i s r) by done.
      cbn [mbind option_bind]. rewrite Hp. fold s1. fold s2.
      unfold invalidateParentChainCache.
      by rewrite (invalidate_fuel_mono fuel0 fuel p s2 s3).
    + intros k Hk. unfold getItem. rewrite Hm3, Hm2, Hm1, Hc3.
      split_and!.
      * by apply Hin.
      * unfold s2. rewrite removeFromChildrenMap_lookup.
        destruct (decide (k = p)) as [->|_].
        -- rewrite Hc1. by rewrite Hin.
        -- rewrite Hc1. by apply Hin.
      * destruct (parentChainCache s3 !! k) as [l|] eqn:Hl; [|done].
        apply Hp3 in Hl. rewrite Hp2, Hp1 in Hl. by rewrite Hin in Hl.
    + intros k Hk. unfold getItem. rewrite Hm3, Hm2, Hm1. split; [by apply Hout|].
      unfold getChildren at 1. rewrite Hc3. fold (getChildren k s2).
      unfold s2. rewrite removeFromChildrenMap_getChildren.
      assert (Hsame : ∀ q, ¬ below s i q → getChildren q s1 = getChildren q s).
      { intros q Hq. unfold getChildren. rewrite Hc1. by rewrite Hout. }
      destruct (decide (k = p)) as [->|Hne].
      * rewrite decide_True by done. by rewrite Hsame.
      * rewrite decide_False by congruence. by apply Hsame.
    + intros k l Hl. apply Hp3 in Hl. rewrite Hp2, Hp1 in Hl.
      by destruct (decide (k ∈ id <$> item :: r)).
    + by rewrite Hi3, Hi2.
    + intros y Hy Hnb. rewrite Hi3, Hi2. by apply Hkeep1.
  - exists fuel0, s1. split_and!.
    + intros fuel Hfuel. rewrite (removeItem_eq fuel i s item Hi).
      rewrite (getAllChildren_fuel_mono fuel0 fuel i s r) by done.
      cbn [mbind option_bind]. by rewrite Hp.
    + intros k Hk. unfold getItem. rewrite Hm1, Hc1, Hp1.
      split_and!; by apply Hin.
    + intros k Hk. unfold getItem. rewrite Hm1. split; [by apply Hout|].
      unfold getChildren. rewrite Hc1. by rewrite Hout.
    + intros k l. rewrite Hp1. by destruct (decide (k ∈ id <$> item :: r)).
    + done.
    + done.
Qed.

(** On a ranked children index, lying below an identifier is decidable:
    [getAllChildren] enumerates what lies below. *)
Lemma below_dec_ranked rank s i k :
  ranked rank s → below s i k ∨ ¬ below s i k.
Proof.
  intros Hranked.
  destruct (getAllChildren_terminates rank s Hranked (S (rank i)) i) as [r Hr]; [lia|].
  destruct (decide (k = i)) as [->|Hne]; [left; constructor|].
  destruct (decide (k ∈ id <$> r)) as [Hin|Hnin].
  - left. apply list_elem_of_fmap in Hin as (x & -> & Hx).
    apply (getAllChildren_spec _ _ _ _ Hr) in Hx as (q & Hq & Hx).
    by apply (below_step _ _ q).
  - right. intros Hb. apply below_inv in Hb as [->|(q & x & Hq & Hx & <-)]; [done|].
    apply Hnin, list_elem_of_fmap_2. apply (getAllChildren_spec _ _ _ _ Hr).
    by exists q.
Qed.

Lemma acyclic_insert_ranked (rank : TreeItemId → nat) s x :
  (∀ k y p, getItem k s = Some y → parent y = Some p → rank k < rank p) →
  (∀ p, parent x = Some p → rank (id x) < rank p) →
  acyclic (set_itemsMap (<[id x := x]> (itemsMap s)) s).
Proof.
  intros Hrank Hx. exists rank. intros k y p. unfold getItem. simpl.
  destruct (decide (id x = k)) as [<-|Hne].
  - rewrite lookup_insert_eq. intros [= <-]. apply Hx.
  - rewrite lookup_insert_ne by done. apply Hrank.
Qed.

(** X14.  On a consistent store with acyclic parent links, [removeItem] of
    a stored identifier returns [true] as soon as the recursion bound is
    large enough.  Afterwards the identifier and everything below it in the
    children index are gone from the id index, the children index and the
    cache; every other identifier keeps its record, and its children list
    except that the former parent's list has lost the entry of the removed
    identifier; the cache has gained nothing; and the canonical sequence is
    a subsequence of what it was. *)
Theorem removeItem_cascade i s item :
  consistent s → acyclic s → getItem i s = Some item →
  ∃ fuel0 s',
    (∀ fuel, fuel0 ≤ fuel → removeItem fuel i s = Some (true, s')) ∧
    (∀ k, below s i k →
       getItem k s' = None ∧ childrenMap s' !! k = None ∧
       parentChainCache s' !! k = None) ∧
    (∀ k, ¬ below s i k →
       getItem k s' = getItem k s ∧
       getChildren k s' =
         if decide (parent item = Some k) then unlinked i (getChildren k s)
         else getChildren k s) ∧
    (∀ p c, parent item = Some p → c ∈ getChildren p s' → id c ≠ i) ∧
    (∀ k l, parentChainCache s' !! k = Some l → parentChainCache s !! k = Some l) ∧
    getAll s' `sublist_of` getAll s.
Proof.
  intros Hcons Hacyc Hi.
  destruct (acyclic_ranked s Hcons Hacyc) as (rank & Hranked & Hrank).
  destruct (removeItem_total rank i s item Hranked Hi (map_ids s Hcons i item Hi))
    as (fuel0 & s' & Hrun & Hin & Hout & Hcache & Hsub & _).
  exists fuel0, s'. split_and!; try done.
  intros p c Hp Hc.
  destruct (decide (id c = i)) as [Heq|Hne]; [|done]. exfalso.
  assert (Hnb : ¬ below s i p).
  { intros Hb. apply below_inv in Hb as [->|(q & y & Hq & Hy & Hyp)].
    - specialize (Hrank i item i Hi Hp). lia.
    - assert (Hlt : ∀ a b, below s a b → rank b ≤ rank a).
      { induction 1 as [|a c0 b Hc0 _ IH]; [done|].
        specialize (Hranked a c0 Hc0). lia. }
      specialize (Hlt i q Hq). specialize (Hranked q y Hy).
      specialize (Hrank i item p Hi Hp). rewrite Hyp in Hranked. lia. }
  destruct (Hout p Hnb) as [_ Hch]. rewrite Hch, decide_True in Hc by done.
  apply elem_of_unlinked in Hc; [tauto|apply (children_nodup s Hcons)].
Qed.

Lemma removeItem_cascade_witness :
  ∃ fuel0 s',
    (∀ fuel, fuel0 ≤ fuel → removeItem fuel (NumId 2) mockStore = Some (true, s')) ∧
    (∀ k, below mockStore (NumId 2) k →
       getItem k s' = None ∧ childrenMap s' !! k = None ∧
       parentChainCache s' !! k = None) ∧
    (∀ k, ¬ below mockStore (NumId 2) k →
       getItem k s' = getItem k mockStore ∧
       getChildren k s' =
         if decide (parent (item 1 2 (Some 1%Z) "Child 1") = Some k)
         then unlinked (NumId 2) (getChildren k mockStore)
         else getChildren k mockStore) ∧
    (∀ p c, parent (item 1 2 (Some 1%Z) "Child 1") = Some p →
       c ∈ getChildren p s' → id c ≠ NumId 2) ∧
    (∀ k l, parentChainCache s' !! k = Some l →
       parentChainCache mockStore !! k = Some l) ∧
    getAll s' `sublist_of` getAll mockStore.
Proof.
  apply (removeItem_cascade (NumId 2) mockStore (item 1 2 (Some 1%Z) "Child 1")).
  - exact mockStore_consistent.
  - exact mockStore_acyclic.
  - vm_compute. reflexivity.
Defined.

(** X15.  [removeItem] keeps the indices consistent and the parent links
    acyclic, and every record still in the id index is still in the
    canonical sequence if that was so before. *)
Theorem removeItem_keeps_consistent i s item :
  consistent s → acyclic s → getItem i s = Some item →
  ∃ fuel0 s',
    (∀ fuel, fuel0 ≤ fuel → removeItem fuel i s = Some (true, s')) ∧
    consistent s' ∧ acyclic s' ∧ (listed s → listed s').
Proof.
  intros Hcons Hacyc Hi.
  destruct (acyclic_ranked s Hcons Hacyc) as (rank & Hranked & Hrank).
  assert (Hid : id item = i) by by apply (map_ids s Hcons).
  destruct (removeItem_total rank i s item Hranked Hi Hid)
    as (fuel0 & s' & Hrun & Hin & Hout & Hcache & Hsub & Hkeep).
  assert (Hdec : ∀ k, below s i k ∨ ¬ below s i k)
    by (intros k; by apply (below_dec_ranked rank)).
  assert (Hgone : ∀ k, below s i k → getChildren k s' = []).
  { intros k Hk. destruct (Hin k Hk) as (_ & Hc & _).
    unfold getChildren. by rewrite Hc. }
  assert (Hkept : ∀ p c, c ∈ getChildren p s' →
            ¬ below s i p ∧ c ∈ getChildren p s ∧ (parent item = Some p → id c ≠ i)).
  { intros p c Hc.
    destruct (Hdec p) as [Hb|Hnb].
    - rewrite (Hgone p Hb) in Hc. by apply elem_of_nil in Hc.
    - split; [done|]. destruct (Hout p Hnb) as [_ Hch]. rewrite Hch in Hc.
      destruct (decide (parent item = Some p)) as [Hp|Hp].
      + apply elem_of_unlinked in Hc; [tauto|apply (children_nodup s Hcons)].
      + tauto. }
  exists fuel0, s'. split_and!; [done| | |].
  - split.
    + intros k x Hk. destruct (Hdec k) as [Hb|Hnb].
      * destruct (Hin k Hb) as (Hnone & _). congruence.
      * destruct (Hout k Hnb) as [Hsame _]. rewrite Hsame in Hk.
        by apply (map_ids s Hcons).
    + intros p c Hc. destruct (Hkept p c Hc) as (Hnb & Hcs & Hne).
      destruct (children_sound s Hcons p c Hcs) as (x & Hx & Hxp).
      exists x. split; [|done].
      assert (Hnbc : ¬ below s i (id c)).
      { intros Hb. apply below_inv in Hb as [Heq|(q & y & Hq & Hy & Hyc)].
        - rewrite Heq in Hx. assert (x = item) as -> by congruence.
          by apply (Hne Hxp).
        - destruct (children_sound s Hcons q y Hy) as (x' & Hx' & Hxq).
          rewrite Hyc in Hx'. assert (x' = x) as -> by congruence.
          assert (q = p) as -> by congruence. done. }
      destruct (Hout (id c) Hnbc) as [Hsame _]. by rewrite Hsame.
    + intros k x p Hk Hp. destruct (Hdec k) as [Hb|Hnb].
      { destruct (Hin k Hb) as (Hnone & _). congruence. }
      destruct (Hout k Hnb) as [Hsame _]. rewrite Hsame in Hk.
      destruct (children_complete s Hcons k x p Hk Hp) as (c & Hc & Hck).
      exists c. split; [|done].
      assert (Hnbp : ¬ below s i p).
      { intros Hb. apply Hnb. rewrite <- Hck. by apply (below_step _ _ p). }
      destruct (Hout p Hnbp) as [_ Hch]. rewrite Hch.
      destruct (decide (parent item = Some p)); [|done].
      apply elem_of_unlinked; [apply (children_nodup s Hcons)|].
      split; [done|]. intros Heq. apply Hnb. rewrite <- Hck, Heq. constructor.
    + intros p. destruct (Hdec p) as [Hb|Hnb].
      * rewrite (Hgone p Hb). constructor.
      * destruct (Hout p Hnb) as [_ Hch]. rewrite Hch.
        destruct (decide (parent item = Some p)); [|apply (children_nodup s Hcons)].
        apply (sublist_NoDup _ (id <$> getChildren p s));
          [apply (children_nodup s Hcons)|].
        apply fmap_sublist, unlinked_sublist.
  - exists rank. intros k x p Hk. destruct (Hdec k) as [Hb|Hnb].
    + destruct (Hin k Hb) as (Hnone & _). congruence.
    + destruct (Hout k Hnb) as [Hsame _]. rewrite Hsame in Hk. by apply Hrank.
  - intros Hlisted k x Hk. destruct (Hdec k) as [Hb|Hnb].
    { destruct (Hin k Hb) as (Hnone & _). congruence. }
    destruct (Hout k Hnb) as [Hsame _]. rewrite Hsame in Hk.
    apply Hkeep; [by apply Hlisted in Hk|].
    by rewrite (map_ids s Hcons k x Hk).
Qed.

Lemma removeItem_keeps_consistent_witness :
  ∃ fuel0 s',
    (∀ fuel, fuel0 ≤ fuel → removeItem fuel (NumId 2) mockStore = Some (true, s')) ∧
    consistent s' ∧ acyclic s' ∧ (listed mockStore → listed s').
Proof.
  apply (removeItem_keeps_consistent (NumId 2) mockStore
           (item 1 2 (Some 1%Z) "Child 1")).
  - exact mockStore_consistent.
  - exact mockStore_acyclic.
  - vm_compute. reflexivity.
Defined.

(** ** Insertion *)

Lemma addItem_eq fuel x s :
  addItem fuel x s =
    (s2 ← match parent x with
          | Some p =>
              invalidateParentChainCacheRecursive fuel p
                (set_childrenMap
                   (<[p := default [] (childrenMap (appended x s) !! p) ++ [x]]>
                      (childrenMap (appended x s))) (appended x s))
          | None => Some (appended x s)
          end;
     Some (withOwnList x s2)).
Proof.
  unfold addItem, invalidateParentChainCache, appended, withOwnList.
  destruct (parent x) as [p|]; cbn [mbind option_bind].
  - destruct (invalidateParentChainCacheRecursive _ _ _) as [s2|];
      cbn [mbind option_bind]; [|done].
    by destruct (childrenMap s2 !! id x).
  - by destruct (childrenMap _ !! id x).
Qed.

Lemma addItem_total rank x s :
  (∀ q c, c ∈ (if decide (parent x = Some q) then getChildren q s ++ [x]
               else getChildren q s) → rank (id c) < rank q) →
  ∃ fuel0 s', ∀ fuel, fuel0 ≤ fuel → addItem fuel x s = Some s'.
Proof.
  intros Hr.
  destruct (parent x) as [p|] eqn:Hp.
  - set (s1 := set_childrenMap
                 (<[p := default [] (childrenMap (appended x s) !! p) ++ [x]]>
                    (childrenMap (appended x s))) (appended x s)).
    destruct (invalidate_ranked rank (S (rank p)) p s1) as (s2 & Hs2 & _); [|lia|].
    { intros q c. unfold s1. rewrite link_getChildren.
      intros Hc. apply Hr.
      destruct (decide (q = p)) as [->|Hne].
      - by rewrite decide_True.
      - rewrite decide_False; [done|congruence]. }
    exists (S (rank p)), (withOwnList x s2). intros fuel Hfuel.
    rewrite addItem_eq, Hp. fold s1.
    by rewrite (invalidate_fuel_mono (S (rank p)) fuel p s1 s2).
  - exists 0, (withOwnList x (appended x s)). intros fuel _.
    by rewrite addItem_eq, Hp.
Qed.

Lemma addItem_linked_ranked rank x s :
  consistent s → getItem (id x) s = None →
  (∀ k y p, getItem k (set_itemsMap (<[id x := x]> (itemsMap s)) s) = Some y →
     parent y = Some p → rank k < rank p) →
  ∀ q c, c ∈ (if decide (parent x = Some q) then getChildren q s ++ [x]
              else getChildren q s) → rank (id c) < rank q.
Proof.
  intros Hcons Hfresh Hrank q c Hc.
  assert (Hcase : c ∈ getChildren q s ∨ (c = x ∧ parent x = Some q)).
  { destruct (decide (parent x = Some q)); [|by left].
    apply elem_of_app in Hc as [Hc|Hc]; [by left|].
    apply list_elem_of_singleton in Hc. by right. }
  destruct Hcase as [Hc'|[-> Hq]].
  - destruct (children_sound s Hcons q c Hc') as (y & Hy & Hyq).
    apply (Hrank (id c) y q); [|done].
    unfold getItem. simpl. rewrite lookup_insert_ne; [done|congruence].
  - apply (Hrank (id x) x q); [|done].
    unfold getItem. simpl. apply lookup_insert_eq.
Qed.

(** X16.  On a consistent store, [addItem] of a record with an identifier
    that is not stored, which leaves the parent links acyclic, returns as
    soon as the recursion bound is large enough.  Afterwards the record is
    the last entry of the canonical sequence and is found under its
    identifier, the indices are consistent again, the parent links are
    acyclic, and every record of the id index is in the canonical sequence
    if that was so before. *)
Theorem addItem_keeps_consistent x s :
  consistent s → getItem (id x) s = None →
  acyclic (set_itemsMap (<[id x := x]> (itemsMap s)) s) →
  ∃ fuel0 s',
    (∀ fuel, fuel0 ≤ fuel → addItem fuel x s = Some s') ∧
    getAll s' = getAll s ++ [x] ∧
    getItem (id x) s' = Some x ∧
    consistent s' ∧ acyclic s' ∧ (listed s → listed s').
Proof.
  intros Hcons Hfresh Hacyc.
  assert (Hacyc' := Hacyc). destruct Hacyc' as [rank Hrank].
  assert (Hold : ∀ q c, c ∈ getChildren q s →
            id c ≠ id x ∧ ∃ y, getItem (id c) s = Some y ∧ parent y = Some q).
  { intros q c Hc. destruct (children_sound s Hcons q c Hc) as (y & Hy & Hyq).
    split; [congruence|by exists y]. }
  destruct (addItem_total rank x s) as (fuel0 & s' & Hrun).
  { by apply addItem_linked_ranked. }
  destruct (addItem_inv fuel0 x s s' (Hrun fuel0 (le_n _))) as (Hi & Hm & Hch & _).
  assert (Hget : ∀ k, getItem k s' = <[id x := x]> (itemsMap s) !! k).
  { intros k. unfold getItem. by rewrite Hm. }
  exists fuel0, s'. split_and!; [done|done| | | |].
  - rewrite Hget. apply lookup_insert_eq.
  - split.
    + intros k y. rewrite Hget. destruct (decide (id x = k)) as [<-|Hne].
      * rewrite lookup_insert_eq. by intros [= <-].
      * rewrite lookup_insert_ne by done. apply (map_ids s Hcons).
    + intros q c. rewrite Hch. intros Hc.
      assert (Hcase : c ∈ getChildren q s ∨ (c = x ∧ parent x = Some q)).
      { destruct (decide (parent x = Some q)); [|by left].
        apply elem_of_app in Hc as [Hc|Hc]; [by left|].
        apply list_elem_of_singleton in Hc. by right. }
      destruct Hcase as [Hc'|[-> Hq]].
      * destruct (Hold q c Hc') as (Hne & y & Hy & Hyq).
        exists y. split; [|done]. rewrite Hget. by rewrite lookup_insert_ne.
      * exists x. split; [|done]. rewrite Hget. apply lookup_insert_eq.
    + intros k y p. rewrite Hget. destruct (decide (id x = k)) as [<-|Hne].
      * rewrite lookup_insert_eq. intros [= <-] Hp. exists x. split; [|done].
        rewrite Hch, decide_True by done. apply elem_of_app. right.
        by apply list_elem_of_singleton.
      * rewrite lookup_insert_ne by done. intros Hk Hp.
        destruct (children_complete s Hcons k y p Hk Hp) as (c & Hc & Hck).
        exists c. split; [|done]. rewrite Hch.
        destruct (decide (parent x = Some p)); [|done]. apply elem_of_app. by left.
    + intros q. rewrite Hch.
      destruct (decide (parent x = Some q)); [|apply (children_nodup s Hcons)].
      rewrite fmap_app. apply NoDup_app. split_and!.
      * apply (children_nodup s Hcons).
      * intros k Hk Hkx. simpl in Hkx. apply list_elem_of_singleton in Hkx as ->.
        apply list_elem_of_fmap in Hk as (c & Hc1 & Hc2).
        destruct (Hold q c Hc2) as (Hne & _). congruence.
      * simpl. apply NoDup_singleton.
  - by apply (acyclic_same_itemsMap (set_itemsMap (<[id x := x]> (itemsMap s)) s)).
  - intros Hlisted k y. rewrite Hget. unfold getAll in *. rewrite Hi.
    destruct (decide (id x = k)) as [<-|Hne].
    + rewrite lookup_insert_eq. intros [= <-]. apply elem_of_app. right.
      by apply list_elem_of_singleton.
    + rewrite lookup_insert_ne by done. intros Hk. apply elem_of_app. left.
      by apply (Hlisted k).
Qed.

Lemma addItem_keeps_consistent_witness :
  ∃ fuel0 s',
    (∀ fuel, fuel0 ≤ fuel →
       addItem fuel (item 9 7 (Some 1%Z) "New Child") mockStore = Some s') ∧
    getAll s' = getAll mockStore ++ [item 9 7 (Some 1%Z) "New Child"] ∧
    getItem (id (item 9 7 (Some 1%Z) "New Child")) s' =
      Some (item 9 7 (Some 1%Z) "New Child") ∧
    consistent s' ∧ acyclic s' ∧ (listed mockStore → listed s').
Proof.
  apply (addItem_keeps_consistent (item 9 7 (Some 1%Z) "New Child") mockStore).
  - exact mockStore_consistent.
  - vm_compute. reflexivity.
  - apply (acyclic_insert_ranked mockRank).
    + apply mockStore_ranked.
    + intros p [= <-]. vm_compute. lia.
Defined.

(** ** Update *)

Lemma updateItem_items fuel u e s b s' :
  getItem (id u) s = Some e → updateItem fuel u s = Some (b, s') →
  items s' = items (replaceStored u e s).
Proof.
  intros Hget Hrun.
  destruct (decide (parent u = parent e)) as [Hsame|Hdiff].
  { rewrite (updateItem_same_parent fuel u e s) in Hrun by done.
    by injection Hrun as _ <-. }
  rewrite (updateItem_reparent_eq fuel u e s) in Hrun by done.
  unfold invalidateParentChainCache in Hrun.
  match type of Hrun with
  | (?a ≫= _) = _ => destruct a as [sB|] eqn:HB; simpl in Hrun; [|done]
  end.
  match type of Hrun with
  | (?a ≫= _) = _ => destruct a as [sC|] eqn:HC; simpl in Hrun; [|done]
  end.
  match type of Hrun with
  | (?a ≫= _) = _ => destruct a as [sD|] eqn:HD; simpl in Hrun; [|done]
  end.
  injection Hrun as _ <-.
  apply invalidate_spec in HD as [(-> & _) _].
  assert (HiC : items sC = items sB).
  { destruct (parent u); [|by injection HC as <-].
    by apply invalidate_spec in HC as [(-> & _) _]. }
  assert (HiB : items sB = items (replaceStored u e s)).
  { destruct (parent e) as [op|]; [|by injection HB as <-].
    apply invalidate_spec in HB as [(-> & _) _].
    by destruct (removeFromChildrenMap_frame op (id u) (replaceStored u e s))
      as (-> & _). }
  congruence.
Qed.

Lemma replaceStored_listed u e s :
  (∀ k x, getItem k s = Some x → id x = k) →
  getItem (id u) s = Some e → listed s →
  ∀ k x, <[id u := u]> (itemsMap s) !! k = Some x →
    x ∈ items (replaceStored u e s).
Proof.
  intros Hids Hget Hlisted k x Hk. unfold replaceStored.
  assert (He : e ∈ items s) by by apply (Hlisted (id u)).
  destruct (indexOf e (items s)) as [n|] eqn:Hn; simpl.
  2:{ by apply indexOf_None in Hn. }
  apply indexOf_Some in Hn.
  destruct (decide (id u = k)) as [<-|Hne].
  - rewrite lookup_insert_eq in Hk. injection Hk as <-.
    apply list_elem_of_lookup. exists n.
    apply list_lookup_insert_eq. by eapply lookup_lt_Some.
  - rewrite lookup_insert_ne in Hk by done.
    assert (Hx : x ∈ items s) by by apply (Hlisted k).
    apply list_elem_of_lookup in Hx as [m Hm].
    apply list_elem_of_lookup. exists m.
    rewrite list_lookup_insert_ne; [done|].
    intros ->. assert (x = e) as -> by congruence.
    apply Hne. by rewrite <- (Hids k e Hk), (Hids (id u) e Hget).
Qed.

(** What [updateItem] of a stored identifier does to the indices and the
    cache, in both of its branches. *)
Lemma updateItem_spec u e s :
  consistent s → getItem (id u) s = Some e →
  acyclic (set_itemsMap (<[id u := u]> (itemsMap s)) s) →
  ∃ fuel0 s',
    (∀ fuel, fuel0 ≤ fuel → updateItem fuel u s = Some (true, s')) ∧
    getItem (id u) s' = Some u ∧
    (∀ j, j ≠ id u → getItem j s' = getItem j s) ∧
    length (getAll s') = length (getAll s) ∧
    consistent s' ∧ acyclic s' ∧ (listed s → listed s') ∧
    (∀ i l, parentChainCache s' !! i = Some l → parentChainCache s !! i = Some l) ∧
    (parent e ≠ parent u →
     ∀ d, below s' (id u) d → parentChainCache s' !! d = None).
Proof.
  intros Hcons Hget Hacyc.
  assert (Hacyc' := Hacyc). destruct Hacyc' as [rank Hrank].
  assert (Hspec : ∃ fuel0 s',
    (∀ fuel, fuel0 ≤ fuel → updateItem fuel u s = Some (true, s')) ∧
    itemsMap s' = <[id u := u]> (itemsMap s) ∧
    (∀ q, getChildren q s' =
       let l := if decide (parent e = Some q)
                then (if decide (parent u = Some q) then getChildren q s
                      else unlinked (id u) (getChildren q s))
                else getChildren q s in
       if decide (parent u = Some q)
       then (if decide (parent e = Some q) then l else l ++ [u]) else l) ∧
    (∀ i l, parentChainCache s' !! i = Some l → parentChainCache s !! i = Some l) ∧
    (parent e ≠ parent u →
     ∀ d, below s' (id u) d → parentChainCache s' !! d = None)).
  { destruct (decide (parent u = parent e)) as [Hsame|Hdiff].
    - exists 0, (replaceStored u e s). split_and!.
      + intros fuel _. by apply updateItem_same_parent.
      + by destruct (replaceStored_frame u e s) as (-> & _).
      + intros q. destruct (replaceStored_frame u e s) as (_ & Hc & _).
        unfold getChildren at 1. rewrite Hc. fold (getChildren q s). simpl.
        rewrite Hsame. by destruct (decide (parent e = Some q)).
      + intros i l. by destruct (replaceStored_frame u e s) as (_ & _ & ->).
      + intros Hne. by destruct Hne.
    - destruct (updateItem_reparent_spec rank u e s Hcons Hget) as
        (fuel0 & s' & Hrun & Hm & Hch & Hsub & Hinv); [congruence|done|].
      exists fuel0, s'. split_and!; [done|done| |done|done].
      intros q. rewrite Hch. simpl.
      destruct (decide (parent e = Some q)) as [He|He];
        destruct (decide (parent u = Some q)) as [Hu|Hu]; try done.
      congruence. }
  destruct Hspec as (fuel0 & s' & Hrun & Hm & Hch & Hsub & Hinv).
  assert (Hgetk : ∀ k, getItem k s' = <[id u := u]> (itemsMap s) !! k).
  { intros k. unfold getItem. by rewrite Hm. }
  assert (Hmem : ∀ q c, c ∈ getChildren q s' ↔
            (c ∈ getChildren q s ∧ (id c = id u → parent u = Some q)) ∨
            (c = u ∧ parent u = Some q ∧ parent e ≠ Some q)).
  { intros q c. rewrite Hch. simpl.
    assert (Hself : ∀ c', c' ∈ getChildren q s → id c' = id u → parent e = Some q).
    { intros c' Hc' Hid. destruct (children_sound s Hcons q c' Hc') as (y & Hy & Hyq).
      rewrite Hid in Hy. congruence. }
    destruct (decide (parent e = Some q)) as [He|He];
      destruct (decide (parent u = Some q)) as [Hu|Hu].
    - split; [intros Hc; left; by split|]. intros [[Hc _]|(_ & _ & ?)]; done.
    - rewrite elem_of_unlinked by apply (children_nodup s Hcons). split.
      + intros [Hc Hne]. left. split; [done|]. intros Hid. by destruct Hne.
      + intros [[Hc Himp]|(_ & ? & _)]; [|done]. split; [done|].
        intros Hid. by apply Hu, Himp.
    - rewrite elem_of_app, list_elem_of_singleton. split.
      + intros [Hc| ->]; [|by right]. left. split; [done|]. intros Hid.
        by destruct He; apply (Hself c).
      + intros [[Hc _]|(-> & _)]; [by left|by right].
    - split.
      + intros Hc. left. split; [done|]. intros Hid.
        by destruct He; apply (Hself c).
      + intros [[Hc _]|(_ & ? & _)]; done. }
  exists fuel0, s'. split_and!; [done| | | | | | |done|done].
  - rewrite Hgetk. apply lookup_insert_eq.
  - intros j Hj. rewrite Hgetk. by rewrite lookup_insert_ne.
  - unfold getAll.
    rewrite (updateItem_items fuel0 u e s true s' Hget (Hrun fuel0 (le_n _))).
    unfold replaceStored. destruct (indexOf e (items s)); simpl; [|done].
    apply length_insert.
  - split.
    + intros k y. rewrite Hgetk. destruct (decide (id u = k)) as [<-|Hne].
      * rewrite lookup_insert_eq. by intros [= <-].
      * rewrite lookup_insert_ne by done. apply (map_ids s Hcons).
    + intros q c [[Hc Himp]|(-> & Hu & _)]%Hmem.
      * destruct (children_sound s Hcons q c Hc) as (y & Hy & Hyq).
        rewrite Hgetk. destruct (decide (id u = id c)) as [Heq|Hne].
        -- rewrite Heq, lookup_insert_eq. exists u. split; [done|].
           apply Himp. done.
        -- rewrite lookup_insert_ne by done. by exists y.
      * exists u. split; [|done]. rewrite Hgetk. apply lookup_insert_eq.
    + intros k y p. rewrite Hgetk. destruct (decide (id u = k)) as [<-|Hne].
      * rewrite lookup_insert_eq. intros [= <-] Hp.
        destruct (decide (parent e = Some p)) as [He|He].
        -- destruct (children_complete s Hcons (id u) e p Hget He) as (c & Hc & Hck).
           exists c. split; [|done]. apply Hmem. left. by split.
        -- exists u. split; [|done]. apply Hmem. by right.
      * rewrite lookup_insert_ne by done. intros Hk Hp.
        destruct (children_complete s Hcons k y p Hk Hp) as (c & Hc & Hck).
        exists c. split; [|done]. apply Hmem. left. split; [done|]. congruence.
    + intros q. rewrite Hch. simpl.
      assert (Hnd := children_nodup s Hcons q).
      assert (Hnd' : NoDup (id <$> unlinked (id u) (getChildren q s))).
      { apply (sublist_NoDup _ (id <$> getChildren q s)); [done|].
        apply fmap_sublist, unlinked_sublist. }
      destruct (decide (parent e = Some q)) as [He|He];
        destruct (decide (parent u = Some q)) as [Hu|Hu]; try done.
      rewrite fmap_app. apply NoDup_app. split_and!; [done| |apply NoDup_singleton].
      intros k Hk Hku. simpl in Hku. apply list_elem_of_singleton in Hku as ->.
      apply list_elem_of_fmap in Hk as (c & Hc1 & Hc2).
      destruct (children_sound s Hcons q c Hc2) as (y & Hy & Hyq).
      rewrite <- Hc1 in Hy. congruence.
  - by apply (acyclic_same_itemsMap (set_itemsMap (<[id u := u]> (itemsMap s)) s)).
  - intros Hlisted k x Hk. rewrite Hgetk in Hk.
    rewrite (updateItem_items fuel0 u e s true s' Hget (Hrun fuel0 (le_n _))).
    by apply (replaceStored_listed u e s (map_ids s Hcons) Hget Hlisted k).
Qed.

(** X17.  On a consistent store, [updateItem] of a stored identifier,
    which leaves the parent links acyclic, returns [true] as soon as the
    recursion bound is large enough.  Afterwards the new record is found
    under the identifier, every other identifier keeps its record, the
    canonical sequence has the length it had, the indices are consistent
    again, whether or not the parent changed, and every record of the id
    index is in the canonical sequence if that was so before. *)
Theorem updateItem_keeps_consistent u e s :
  consistent s → getItem (id u) s = Some e →
  acyclic (set_itemsMap (<[id u := u]> (itemsMap s)) s) →
  ∃ fuel0 s',
    (∀ fuel, fuel0 ≤ fuel → updateItem fuel u s = Some (true, s')) ∧
    getItem (id u) s' = Some u ∧
    (∀ j, j ≠ id u → getItem j s' = getItem j s) ∧
    length (getAll s') = length (getAll s) ∧
    consistent s' ∧ acyclic s' ∧ (listed s → listed s').
Proof.
  intros Hcons Hget Hacyc.
  destruct (updateItem_spec u e s Hcons Hget Hacyc)
    as (fuel0 & s' & Hrun & Hu & Hframe & Hlen & Hcons' & Hacyc' & Hlisted & _).
  by exists fuel0, s'.
Qed.

Lemma updateItem_keeps_consistent_witness :
  ∃ fuel0 s',
    (∀ fuel, fuel0 ≤ fuel →
       updateItem fuel (item 9 4 (Some 3%Z) "Moved") mockStore = Some (true, s')) ∧
    getItem (id (item 9 4 (Some 3%Z) "Moved")) s' = Some (item 9 4 (Some 3%Z) "Moved") ∧
    (∀ j, j ≠ id (item 9 4 (Some 3%Z) "Moved") → getItem j s' = getItem j mockStore) ∧
    length (getAll s') = length (getAll mockStore) ∧
    consistent s' ∧ acyclic s' ∧ (listed mockStore → listed s').
Proof.
  apply (updateItem_keeps_consistent (item 9 4 (Some 3%Z) "Moved")
           (item 3 4 (Some 2%Z) "Grandchild 1") mockStore).
  - exact mockStore_consistent.
  - vm_compute. reflexivity.
  - apply (acyclic_insert_ranked mockRank).
    + apply mockStore_ranked.
    + intros p [= <-]. vm_compute. lia.
Defined.

(** ** Round trips *)

Lemma indexOf_app_fresh x l : x ∉ l → indexOf x (l ++ [x]) = Some (length l).
Proof.
  induction l as [|y l IH]; intros Hx; simpl.
  - by rewrite decide_True.
  - rewrite decide_False.
    2:{ intros ->. apply Hx. left. }
    rewrite IH; [done|]. intros Hin. apply Hx. by right.
Qed.

Lemma delete_app_last {A : Type} (l : list A) x : delete (length l) (l ++ [x]) = l.
Proof. induction l as [|y l IH]; simpl; [done|]. by rewrite IH. Qed.

Lemma unlinked_app_fresh x l :
  (∀ c, c ∈ l → id c ≠ id x) → unlinked (id x) (l ++ [x]) = l.
Proof.
  intros Hl. unfold unlinked, splice1.
  assert (Hfind : findIndex (λ child, bool_decide (id child = id x)) (l ++ [x])
                  = Some (length l)).
  { induction l as [|y l IH]; simpl.
    - by rewrite bool_decide_eq_true_2.
    - rewrite bool_decide_eq_false_2 by (apply Hl; left).
      rewrite IH; [done|]. intros c Hc. apply Hl. by right. }
  rewrite Hfind. apply delete_app_last.
Qed.

Lemma indexOf_insert_fresh u e l n :
  u ∉ l → indexOf e l = Some n → indexOf u (<[n := u]> l) = Some n.
Proof.
  revert n. induction l as [|y l IH]; intros n Hu; simpl; [done|].
  destruct (decide (y = e)) as [->|Hne].
  - intros [= <-]. simpl. by rewrite decide_True.
  - destruct (indexOf e l) as [m|] eqn:Hm; simpl; [|done].
    intros [= <-]. simpl. rewrite decide_False.
    2:{ intros ->. apply Hu. left. }
    rewrite (IH m); [done| |done]. intros Hin. apply Hu. by right.
Qed.

Lemma indexOf_fresh_None u l : u ∉ l → indexOf u l = None.
Proof.
  induction l as [|y l IH]; intros Hu; simpl; [done|].
  rewrite decide_False.
  2:{ intros ->. apply Hu. left. }
  rewrite IH; [done|]. intros Hin. apply Hu. by right.
Qed.

(** X18.  A label-only update is undone by the converse update: when the
    new object is not in the canonical sequence yet, [updateItem u]
    followed by [updateItem e], with [e] the record that was stored, gives
    back the store it started from, whatever the recursion bound. *)
Theorem updateItem_there_and_back fuel u e s :
  getItem (id u) s = Some e → id e = id u → parent u = parent e →
  u ∉ items s →
  ∃ s1, updateItem fuel u s = Some (true, s1) ∧
        getItem (id u) s1 = Some u ∧
        updateItem fuel e s1 = Some (true, s).
Proof.
  intros Hget Hid Hpar Hu.
  exists (replaceStored u e s).
  assert (Hget1 : getItem (id u) (replaceStored u e s) = Some u).
  { unfold getItem. destruct (replaceStored_frame u e s) as (-> & _).
    apply lookup_insert_eq. }
  split_and!; [by apply updateItem_same_parent|done|].
  rewrite (updateItem_same_parent fuel e u (replaceStored u e s));
    [|by rewrite Hid|done].
  f_equal. f_equal. unfold replaceStored.
  assert (Hmap : <[id e := e]> (<[id u := u]> (itemsMap s)) = itemsMap s).
  { rewrite Hid, insert_insert_eq. by apply insert_id. }
  destruct s as [its m cm pc]. unfold getItem in *. simpl in *.
  destruct (indexOf e its) as [n|] eqn:Hn; simpl.
  - rewrite (indexOf_insert_fresh u e its n Hu Hn). simpl.
    rewrite list_insert_insert_eq.
    rewrite (list_insert_id its n e) by by apply indexOf_Some.
    by rewrite Hmap.
  - rewrite (indexOf_fresh_None u its Hu). simpl. by rewrite Hmap.
Qed.

Lemma updateItem_there_and_back_witness :
  ∃ s1, updateItem 0 (item 9 4 (Some 2%Z) "Renamed") mockStore = Some (true, s1) ∧
        getItem (id (item 9 4 (Some 2%Z) "Renamed")) s1 =
          Some (item 9 4 (Some 2%Z) "Renamed") ∧
        updateItem 0 (item 3 4 (Some 2%Z) "Grandchild 1") s1 = Some (true, mockStore).
Proof.
  apply (updateItem_there_and_back 0 (item 9 4 (Some 2%Z) "Renamed")
           (item 3 4 (Some 2%Z) "Grandchild 1") mockStore).
  - vm_compute. reflexivity.
  - reflexivity.
  - reflexivity.
  - apply (bool_decide_unpack _). vm_compute. exact I.
Defined.

(** X19.  Inserting a new leaf and removing it again: on a consistent
    store, for a record whose identifier is neither stored nor named as
    parent by a stored record, and whose object is not in the canonical
    sequence, [addItem] followed by [removeItem] of its identifier restores
    the canonical sequence, the record found under every identifier and the
    children list of every identifier; the cache has gained nothing. *)
Theorem addItem_then_removeItem x s :
  consistent s → getItem (id x) s = None → getChildren (id x) s = [] →
  x ∉ items s →
  acyclic (set_itemsMap (<[id x := x]> (itemsMap s)) s) →
  ∃ fuel0 s1 s2,
    (∀ fuel, fuel0 ≤ fuel →
       addItem fuel x s = Some s1 ∧ removeItem fuel (id x) s1 = Some (true, s2)) ∧
    getAll s2 = getAll s ∧
    (∀ k, getItem k s2 = getItem k s) ∧
    (∀ q, getChildren q s2 = getChildren q s) ∧
    (∀ k l, parentChainCache s2 !! k = Some l → parentChainCache s !! k = Some l).
Proof.
  intros Hcons Hfresh Hnokids Hxnew [rank Hrank].
  assert (Hlinked := addItem_linked_ranked rank x s Hcons Hfresh Hrank).
  destruct (addItem_total rank x s Hlinked) as (fuel1 & s1 & Hadd).
  destruct (addItem_inv fuel1 x s s1 (Hadd fuel1 (le_n _))) as (Hi & Hm & Hch & Hcache).
  assert (Hself : parent x ≠ Some (id x)).
  { intros Hp. specialize (Hrank (id x) x (id x)). unfold getItem in Hrank.
    simpl in Hrank. rewrite lookup_insert_eq in Hrank. specialize (Hrank eq_refl Hp). lia. }
  assert (Hget1 : getItem (id x) s1 = Some x).
  { unfold getItem. rewrite Hm. apply lookup_insert_eq. }
  assert (Hkids1 : getChildren (id x) s1 = []).
  { rewrite Hch. by rewrite decide_False. }
  set (t := removeOne s1 x).
  assert (Hti : items t = items s).
  { unfold t, removeOne, splice1. rewrite Hi, (indexOf_app_fresh x (items s) Hxnew).
    simpl. apply delete_app_last. }
  assert (Htm : itemsMap t = itemsMap s).
  { unfold t, removeOne. destruct (indexOf x (items s1)); simpl;
      rewrite Hm; by apply delete_insert_id. }
  assert (Htc : ∀ q, getChildren q t =
            if decide (q = id x) then [] else getChildren q s1).
  { intros q. unfold t, removeOne, getChildren.
    destruct (indexOf x (items s1)); simpl;
      (destruct (decide (q = id x)) as [->|Hne];
       [by rewrite lookup_delete_eq|by rewrite lookup_delete_ne]). }
  assert (Htp : ∀ k l, parentChainCache t !! k = Some l →
                       parentChainCache s !! k = Some l).
  { intros k l. unfold t, removeOne.
    destruct (indexOf x (items s1)); simpl; intros Hl;
      apply lookup_delete_Some in Hl as [_ Hl]; by apply Hcache. }
  assert (Hall : ∀ fuel, 1 ≤ fuel → getAllChildren fuel (id x) s1 = Some []).
  { intros [|fuel] Hfuel; [lia|]. simpl. by rewrite Hkids1. }
  destruct (parent x) as [p|] eqn:Hp.
  - assert (Hpx : p ≠ id x) by congruence.
    set (t2 := removeFromChildrenMap p (id x) t).
    destruct (removeFromChildrenMap_frame p (id x) t) as (Hi2 & Hm2 & Hp2).
    fold t2 in Hi2, Hm2, Hp2.
    assert (Hc2 : ∀ q, getChildren q t2 = getChildren q s).
    { intros q. unfold t2. rewrite removeFromChildrenMap_getChildren, !Htc, !Hch.
      rewrite (decide_False (P := p = id x)) by done.
      rewrite (decide_True (P := Some p = Some p)) by done.
      destruct (decide (q = p)) as [->|Hqp].
      - apply unlinked_app_fresh. intros c Hc.
        destruct (children_sound s Hcons p c Hc) as (y & Hy & _). congruence.
      - destruct (decide (q = id x)) as [->|Hqx]; [done|].
        rewrite decide_False; [done|congruence]. }
    destruct (invalidate_ranked rank (S (rank p)) p t2) as (s2 & Hs2 & Hinv & _); [|lia|].
    { intros q c. rewrite Hc2. intros Hc. apply Hlinked.
      destruct (decide (Some p = Some q)); [apply elem_of_app; by left|done]. }
    destruct Hinv as (Hi3 & Hm3 & Hc3 & Hp3).
    exists (Nat.max fuel1 (S (rank p))), s1, s2. split_and!.
    + intros fuel Hfuel. split; [apply Hadd; lia|].
      rewrite (removeItem_eq fuel (id x) s1 x Hget1), Hall by lia.
      cbn [mbind option_bind foldl]. rewrite Hp. fold t. fold t2.
      unfold invalidateParentChainCache.
      rewrite (invalidate_fuel_mono (S (rank p)) fuel p t2 s2); [done|done|lia].
    + unfold getAll. congruence.
    + intros k. unfold getItem. congruence.
    + intros q. rewrite <- Hc2. unfold getChildren. by rewrite Hc3.
    + intros k l Hl. apply Htp. rewrite <- Hp2. by apply Hp3.
  - exists (Nat.max fuel1 1), s1, t. split_and!.
    + intros fuel Hfuel. split; [apply Hadd; lia|].
      rewrite (removeItem_eq fuel (id x) s1 x Hget1), Hall by lia.
      cbn [mbind option_bind foldl]. by rewrite Hp.
    + done.
    + intros k. unfold getItem. by rewrite Htm.
    + intros q. rewrite Htc, Hch.
      destruct (decide (q = id x)) as [->|Hqx]; [done|].
      by rewrite decide_False.
    + done.
Qed.

Lemma addItem_then_removeItem_witness :
  ∃ fuel0 s1 s2,
    (∀ fuel, fuel0 ≤ fuel →
       addItem fuel (item 9 7 (Some 1%Z) "New Child") mockStore = Some s1 ∧
       removeItem fuel (id (item 9 7 (Some 1%Z) "New Child")) s1 = Some (true, s2)) ∧
    getAll s2 = getAll mockStore ∧
    (∀ k, getItem k s2 = getItem k mockStore) ∧
    (∀ q, getChildren q s2 = getChildren q mockStore) ∧
    (∀ k l, parentChainCache s2 !! k = Some l →
            parentChainCache mockStore !! k = Some l).
Proof.
  apply (addItem_then_removeItem (item 9 7 (Some 1%Z) "New Child") mockStore).
  - exact mockStore_consistent.
  - vm_compute. reflexivity.
  - vm_compute. reflexivity.
  - apply (bool_decide_unpack _). vm_compute. exact I.
  - apply (acyclic_insert_ranked mockRank).
    + apply mockStore_ranked.
    + intros p [= <-]. vm_compute. lia.
Defined.

(** ** Coherence of the cache *)

(** A chain is still the chain in another store that agrees on the
    lookups the walk makes. *)
Lemma chain_transfer s s' i c :
  chain s i c → getItem i s' = getItem i s →
  (∀ y p, y ∈ c → parent y = Some p → getItem p s' = getItem p s) →
  chain s' i c.
Proof.
  induction 1 as [k Hk|k x Hk Hroot|k x p c Hk Hp _ IH]; intros Hsame Hnext.
  - apply chain_unknown. congruence.
  - apply chain_root; [congruence|done].
  - apply (chain_step _ _ _ p); [congruence|done|].
    apply IH.
    + apply (Hnext x p); [left|done].
    + intros y q Hy. apply Hnext. by right.
Qed.

Lemma chain_elem_stored s i c y :
  (∀ k x, getItem k s = Some x → id x = k) →
  chain s i c → y ∈ c → getItem (id y) s = Some y.
Proof.
  intros Hids. induction 1 as [k Hk|k x Hk Hroot|k x p c Hk Hp _ IH]; intros Hy.
  - by apply elem_of_nil in Hy.
  - apply list_elem_of_singleton in Hy as ->. by rewrite (Hids k x Hk).
  - apply elem_of_cons in Hy as [->|Hy]; [by rewrite (Hids k x Hk)|by apply IH].
Qed.

(** In a chain, the parent named by a record is either not stored or
    stored and the next record of the chain. *)
Lemma chain_parent_in s i c y p z :
  chain s i c → y ∈ c → parent y = Some p → getItem p s = Some z → z ∈ c.
Proof.
  induction 1 as [k Hk|k x Hk Hroot|k x q c Hk Hq Hc IH]; intros Hy Hp Hz.
  - by apply elem_of_nil in Hy.
  - apply list_elem_of_singleton in Hy as ->. congruence.
  - apply elem_of_cons in Hy as [->|Hy].
    + assert (q = p) as -> by congruence. right.
      inversion Hc; subst; try congruence.
      * assert (x0 = z) as -> by congruence. left.
      * assert (x0 = z) as -> by congruence. left.
    + right. by apply IH.
Qed.

(** The mutations leave the heap alone and never add to the cache, so the
    cached arrays stay good as long as their chains do. *)
Lemma coherent_shrink w s' :
  coherent w →
  (∀ i l, parentChainCache s' !! i = Some l →
     parentChainCache (store w) !! i = Some l ∧
     ∀ c, chain (store w) i c → ∃ c', chain s' i c' ∧ id <$> c' = id <$> c) →
  coherent {| store := s'; heap := heap w |}.
Proof.
  intros Hcoh Hkeep i l Hl. simpl in *.
  destruct (Hkeep i l Hl) as [Hold Hchain].
  destruct (Hcoh i l Hold) as (a & c & Ha & Hc & Hids).
  destruct (Hchain c Hc) as (c' & Hc' & Hids').
  exists a, c'. split_and!; [done|done|congruence].
Qed.

Lemma cache_allocated_shrink w s' :
  cache_allocated w →
  (∀ i l, parentChainCache s' !! i = Some l →
     parentChainCache (store w) !! i = Some l) →
  cache_allocated {| store := s'; heap := heap w |}.
Proof. intros Halloc Hsub i l Hl. simpl in *. by apply (Halloc i l), Hsub. Qed.

(** X20.  On a world whose cache is coherent, [getAllParents] hands out
    records with the identifiers of the ancestor chain over the current id
    index, whether it was served from the cache or computed, and leaves
    the cache coherent; so does a caller writing to the array it was
    handed. *)
Theorem getAllParents_coherent fuel i w l w' :
  cache_allocated w → coherent w →
  getAllParents fuel i w = Some (l, w') →
  (∃ a c, read l (heap w') = Some a ∧ chain (store w) i c ∧ id <$> a = id <$> c) ∧
  cache_allocated w' ∧ coherent w' ∧
  (∀ f, cache_allocated (callerWrites l f w') ∧ coherent (callerWrites l f w')).
Proof.
  intros Halloc Hcoh Hcall.
  destruct (getAllParents_post fuel i w l w' Halloc Hcall)
    as (a & lc & Ha & Hi & Hlc & Halloc' & Hpriv & Hlt).
  destruct (getAllParents_keeps_indices fuel i w l w' Hcall) as (_ & Hm & _).
  assert (Hchains : ∀ k c, chain (store w) k c → chain (store w') k c).
  { intros k c. by apply chain_same_itemsMap. }
  assert (Hfirst : ∃ c, chain (store w) i c ∧ id <$> a = id <$> c).
  { unfold getAllParents in Hcall.
    destruct (parentChainCache (store w) !! i) as [l0|] eqn:Hhit.
    - destruct (Hcoh i l0 Hhit) as (a0 & c & Ha0 & Hc & Hids).
      rewrite Ha0 in Hcall. simpl in Hcall. injection Hcall as <- <-.
      unfold read in Ha. simpl in Ha. rewrite lookup_insert_eq in Ha.
      injection Ha as <-. by exists c.
    - destruct (parentChainLoop fuel (store w) (getItem i (store w)) [])
        as [r|] eqn:Hr; simpl in Hcall; [|done].
      injection Hcall as <- <-.
      unfold read in Ha. simpl in Ha. rewrite lookup_insert_eq in Ha.
      injection Ha as <-.
      apply parentChainLoop_inv in Hr as (c & Hc & ->). by exists c. }
  assert (Hcoh' : coherent w').
  { intros k lk Hk. destruct (decide (k = i)) as [->|Hne].
    - assert (lk = lc) as -> by congruence.
      destruct Hfirst as (c & Hc & Hids). exists a, c.
      split_and!; [done|by apply Hchains|done].
    - unfold getAllParents in Hcall.
      destruct (parentChainCache (store w) !! i) as [l0|] eqn:Hhit.
      + destruct (read l0 (heap w)) as [a0|]; simpl in Hcall; [|done].
        injection Hcall as <- <-. simpl in *.
        destruct (Hcoh k lk Hk) as (ak & ck & Hak & Hck & Hidk).
        destruct (Halloc k lk Hk) as [_ Hltk].
        exists ak, ck. split_and!; [|by apply Hchains|done].
        unfold read in *. simpl. rewrite lookup_insert_ne; [done|lia].
      + destruct (parentChainLoop fuel (store w) (getItem i (store w)) [])
          as [r|]; simpl in Hcall; [|done].
        injection Hcall as <- <-. simpl in *.
        rewrite lookup_insert_ne in Hk by done.
        destruct (Hcoh k lk Hk) as (ak & ck & Hak & Hck & Hidk).
        destruct (Halloc k lk Hk) as [_ Hltk].
        exists ak, ck. split_and!; [|by apply Hchains|done].
        unfold read in *. simpl. rewrite !lookup_insert_ne; [done|lia|lia]. }
  split_and!; [|done|done|].
  - destruct Hfirst as (c & Hc & Hids). by exists a, c.
  - intros f. split; [by apply cache_allocated_callerWrites|].
    intros k lk Hk. simpl in Hk.
    destruct (Hcoh' k lk Hk) as (ak & ck & Hak & Hck & Hidk).
    exists ak, ck. split_and!; [|done|done].
    unfold read, callerWrites in *. simpl.
    rewrite lookup_alter_ne; [done|]. intros <-. by apply (Hpriv k l).
Qed.

Lemma withOwnList_frame x s :
  items (withOwnList x s) = items s ∧
  itemsMap (withOwnList x s) = itemsMap s ∧
  parentChainCache (withOwnList x s) = parentChainCache s ∧
  ∀ q, getChildren q (withOwnList x s) = getChildren q s.
Proof.
  unfold withOwnList. destruct (childrenMap s !! id x) as [cs|] eqn:Hx; [done|].
  split_and!; [done..|]. intros q. unfold getChildren. simpl.
  destruct (decide (id x = q)) as [<-|Hne].
  - by rewrite lookup_insert_eq, Hx.
  - by rewrite lookup_insert_ne.
Qed.

(** [addItem] under a parent drops the cache entry of everything the
    children index then hangs under that parent. *)
Lemma addItem_invalidates fuel x s s' p :
  addItem fuel x s = Some s' → parent x = Some p →
  ∀ d, below s' p d → parentChainCache s' !! d = None.
Proof.
  rewrite addItem_eq. intros Hrun Hp. rewrite Hp in Hrun.
  match type of Hrun with
  | (?a ≫= _) = _ => destruct a as [s2|] eqn:Hinv; simpl in Hrun; [|done]
  end.
  injection Hrun as <-.
  apply invalidate_spec in Hinv as [Hinv Hnone].
  destruct (withOwnList_frame x s2) as (_ & _ & Hcache & Hch).
  intros d Hd. rewrite Hcache. apply Hnone.
  apply (below_same_children (withOwnList x s2)); [|done].
  intros q. rewrite Hch. symmetry. by apply invalidated_getChildren.
Qed.

(** Replacing a record by one with the same identifier and parent changes
    no chain but for that record. *)
Lemma chain_replace_same_parent s s' u e i c :
  (∀ k x, getItem k s = Some x → id x = k) →
  itemsMap s' = <[id u := u]> (itemsMap s) →
  getItem (id u) s = Some e → parent u = parent e →
  chain s i c → ∃ c', chain s' i c' ∧ id <$> c' = id <$> c.
Proof.
  intros Hids Hm Hget Hsame.
  assert (Hk : ∀ k, getItem k s' = <[id u := u]> (itemsMap s) !! k).
  { intros k. unfold getItem. by rewrite Hm. }
  induction 1 as [k Hnone|k x Hx Hroot|k x p c Hx Hp _ IH].
  - exists []. split; [|done]. apply chain_unknown. rewrite Hk.
    rewrite lookup_insert_ne; [done|]. intros <-. congruence.
  - destruct (decide (id u = k)) as [<-|Hne].
    + assert (x = e) as -> by congruence. exists [u]. split.
      * apply chain_root; [|congruence]. rewrite Hk. apply lookup_insert_eq.
      * simpl. by rewrite (Hids (id u) e Hget).
    + exists [x]. split; [|done]. apply chain_root; [|done].
      rewrite Hk. by rewrite lookup_insert_ne.
  - destruct IH as (c' & Hc' & Hidc).
    destruct (decide (id u = k)) as [<-|Hne].
    + assert (x = e) as -> by congruence. exists (u :: c'). split.
      * apply (chain_step _ _ _ p); [|congruence|done].
        rewrite Hk. apply lookup_insert_eq.
      * rewrite !fmap_cons, Hidc. by rewrite (Hids (id u) e Hget).
    + exists (x :: c'). split; [|by rewrite !fmap_cons, Hidc].
      apply (chain_step _ _ _ p); [|done|done].
      rewrite Hk. by rewrite lookup_insert_ne.
Qed.

(** X21.  [updateItem] keeps the cache coherent: on a consistent store
    with a coherent cache, after an update that leaves the parent links
    acyclic, every chain still cached has the identifiers of the ancestor
    chain over the new id index, whether the parent changed (the moved
    subtree is dropped from the cache) or not (the chains keep their
    identifiers). *)
Theorem updateItem_keeps_coherent u e w :
  consistent (store w) → getItem (id u) (store w) = Some e →
  acyclic (set_itemsMap (<[id u := u]> (itemsMap (store w))) (store w)) →
  cache_allocated w → coherent w →
  ∃ fuel0 s',
    (∀ fuel, fuel0 ≤ fuel → updateItem fuel u (store w) = Some (true, s')) ∧
    cache_allocated {| store := s'; heap := heap w |} ∧
    coherent {| store := s'; heap := heap w |}.
Proof.
  intros Hcons Hget Hacyc Halloc Hcoh.
  destruct (updateItem_spec u e (store w) Hcons Hget Hacyc)
    as (fuel0 & s' & Hrun & Hu & Hframe & _ & Hcons' & Hacyc' & _ & Hsub & Hinv).
  exists fuel0, s'. split_and!; [done|by apply cache_allocated_shrink|].
  apply coherent_shrink; [done|]. intros i l Hl. split; [by apply Hsub|].
  intros c Hc. destruct (decide (parent u = parent e)) as [Hsame|Hdiff].
  - apply (chain_replace_same_parent (store w) s' u e); try done.
    + apply (map_ids _ Hcons).
    + apply map_eq. intros k. fold (getItem k s').
      destruct (decide (id u = k)) as [<-|Hne].
      * by rewrite lookup_insert_eq.
      * rewrite lookup_insert_ne by done. by apply Hframe.
  - destruct (acyclic_chain s' i Hacyc') as [c' Hc'].
    assert (Havoid : ∀ y, y ∈ c' → id y ≠ id u).
    { intros y Hy Hid.
      assert (Hb : below s' (id y) i).
      { apply (chain_below s' i c' y); [apply (map_ids _ Hcons')| |done|done].
        apply (children_complete _ Hcons'). }
      rewrite Hid in Hb. rewrite (Hinv (ltac:(congruence)) i Hb) in Hl. done. }
    assert (Hi : i ≠ id u).
    { intros ->. rewrite (Hinv (ltac:(congruence)) (id u) (below_self _ _)) in Hl.
      done. }
    assert (Hback : chain (store w) i c').
    { apply (chain_transfer s'); [done|symmetry; by apply Hframe|].
      intros y p Hy Hp. symmetry. apply Hframe. intros ->.
      assert (Hz := chain_parent_in s' i c' y (id u) u Hc' Hy Hp Hu).
      by apply (Havoid u). }
    exists c'. split; [done|]. by rewrite (chain_functional _ _ _ _ Hc Hback).
Qed.

(** X22.  [removeItem] keeps the cache coherent: on a consistent, acyclic
    store with a coherent cache, after a stored identifier was removed
    every chain still cached has the identifiers of the ancestor chain over
    the new id index. *)
Theorem removeItem_keeps_coherent i item w :
  consistent (store w) → acyclic (store w) → getItem i (store w) = Some item →
  cache_allocated w → coherent w →
  ∃ fuel0 s',
    (∀ fuel, fuel0 ≤ fuel → removeItem fuel i (store w) = Some (true, s')) ∧
    cache_allocated {| store := s'; heap := heap w |} ∧
    coherent {| store := s'; heap := heap w |}.
Proof.
  intros Hcons Hacyc Hget Halloc Hcoh.
  destruct (acyclic_ranked (store w) Hcons Hacyc) as (rank & Hranked & _).
  destruct (removeItem_total rank i (store w) item Hranked Hget
              (map_ids _ Hcons i item Hget))
    as (fuel0 & s' & Hrun & Hgone & Hkept & Hsub & _).
  exists fuel0, s'. split_and!; [done|by apply cache_allocated_shrink|].
  apply coherent_shrink; [done|]. intros k l Hl. split; [by apply Hsub|].
  intros c Hc. exists c. split; [|done].
  assert (Hk : ¬ below (store w) i k).
  { intros Hb. destruct (Hgone k Hb) as (_ & _ & Hnone). congruence. }
  apply (chain_transfer (store w)); [done|by apply Hkept|].
  intros y p Hy Hp.
  destruct (below_dec_ranked rank (store w) i p Hranked) as [Hb|Hb];
    [|by apply Hkept].
  destruct (Hgone p Hb) as (-> & _).
  destruct (getItem p (store w)) as [z|] eqn:Hz; [|done].
  destruct Hk. apply (below_trans _ _ p); [done|].
  assert (Hzc := chain_parent_in (store w) k c y p z Hc Hy Hp Hz).
  rewrite <- (map_ids _ Hcons p z Hz).
  apply (chain_below (store w) k c z); [apply (map_ids _ Hcons)| |done|done].
  apply (children_complete _ Hcons).
Qed.

(** X23.  [addItem] under a parent keeps the cache coherent: on a
    consistent store with a coherent cache, after a record with a new
    identifier and a parent was added, leaving the parent links acyclic,
    every chain still cached has the identifiers of the ancestor chain over
    the new id index. *)
Theorem addItem_keeps_coherent x p w :
  consistent (store w) → getItem (id x) (store w) = None → parent x = Some p →
  acyclic (set_itemsMap (<[id x := x]> (itemsMap (store w))) (store w)) →
  cache_allocated w → coherent w →
  ∃ fuel0 s',
    (∀ fuel, fuel0 ≤ fuel → addItem fuel x (store w) = Some s') ∧
    cache_allocated {| store := s'; heap := heap w |} ∧
    coherent {| store := s'; heap := heap w |}.
Proof.
  intros Hcons Hfresh Hp [rank Hrank] Halloc Hcoh.
  destruct (addItem_total rank x (store w)) as (fuel0 & s' & Hrun).
  { by apply addItem_linked_ranked. }
  assert (Hrun0 := Hrun fuel0 (le_n _)).
  destruct (addItem_inv fuel0 x (store w) s' Hrun0) as (_ & Hm & Hch & Hsub).
  assert (Hinv := addItem_invalidates fuel0 x (store w) s' p Hrun0 Hp).
  assert (Hget : ∀ k, k ≠ id x → getItem k s' = getItem k (store w)).
  { intros k Hk. unfold getItem. rewrite Hm. by rewrite lookup_insert_ne. }
  assert (Hgrow : ∀ a b, below (store w) a b → below s' a b).
  { intros a b. induction 1 as [k|k c d Hc _ IH]; [constructor|].
    apply (below_child _ _ c); [|done]. rewrite Hch.
    destruct (decide (parent x = Some k)); [|done]. apply elem_of_app. by left. }
  assert (Hx : below s' p (id x)).
  { apply (below_child _ _ x); [|constructor]. rewrite Hch, decide_True by done.
    apply elem_of_app. right. by apply list_elem_of_singleton. }
  exists fuel0, s'. split_and!; [done|by apply cache_allocated_shrink|].
  apply coherent_shrink; [done|]. intros k l Hl. split; [by apply Hsub|].
  intros c Hc. exists c. split; [|done].
  assert (Hk : ¬ below s' p k).
  { intros Hb. rewrite (Hinv k Hb) in Hl. done. }
  apply (chain_transfer (store w)); [done| |].
  - apply Hget. intros ->. by apply Hk.
  - intros y q Hy Hq. apply Hget. intros ->.
    apply Hk. apply (below_trans _ _ (id x)); [done|].
    assert (Hy' := chain_elem_stored (store w) k c y (map_ids _ Hcons) Hc Hy).
    destruct (children_complete _ Hcons (id y) y (id x) Hy' Hq) as (c0 & Hc0 & Hid0).
    apply (below_trans _ _ (id y)).
    + apply (below_child _ _ c0); [|rewrite Hid0; constructor].
      rewrite Hch. destruct (decide (parent x = Some (id x))); [|done].
      apply elem_of_app. by left.
    + apply Hgrow.
      apply (chain_below (store w) k c y); [apply (map_ids _ Hcons)| |done|done].
      apply (children_complete _ Hcons).
Qed.

(** ** The fixture with a cached chain *)

Lemma consistent_set_parentChainCache c s :
  consistent s → consistent (set_parentChainCache c s).
Proof. intros [H1 H2 H3 H4]. by constructor. Qed.

Lemma readWorld_consistent : consistent (store readWorld).
Proof. apply consistent_set_parentChainCache, mockStore_consistent. Qed.

Lemma readWorld_ranked k x p :
  getItem k (store readWorld) = Some x → parent x = Some p →
  mockRank k < mockRank p.
Proof. intros Hk. change (getItem k mockStore = Some x) in Hk. by apply mockStore_ranked. Qed.

Lemma readWorld_cache_allocated : cache_allocated readWorld.
Proof.
  intros i l Hl. simpl in Hl.
  apply lookup_insert_Some in Hl as [[<- <-]|[_ Hl]]; [|by rewrite lookup_empty in Hl].
  split; [|simpl; lia]. eexists. vm_compute. reflexivity.
Qed.

Lemma readWorld_coherent : coherent readWorld.
Proof.
  intros i l Hl. simpl in Hl.
  apply lookup_insert_Some in Hl as [[<- <-]|[_ Hl]]; [|by rewrite lookup_empty in Hl].
  exists [ item 3 4 (Some 2%Z) "Grandchild 1"; item 1 2 (Some 1%Z) "Child 1";
           item 0 1 None "Root" ],
         [ item 3 4 (Some 2%Z) "Grandchild 1"; item 1 2 (Some 1%Z) "Child 1";
           item 0 1 None "Root" ].
  split_and!; [vm_compute; reflexivity| |done].
  apply (chain_step _ _ _ (NumId 2)); [vm_compute; reflexivity|done|].
  apply (chain_step _ _ _ (NumId 1)); [vm_compute; reflexivity|done|].
  apply chain_root; [vm_compute; reflexivity|done].
Qed.

Lemma getAllParents_coherent_witness :
  ∃ l w',
    getAllParents 3 (NumId 4) readWorld = Some (l, w') ∧
    (∃ a c, read l (heap w') = Some a ∧ chain (store readWorld) (NumId 4) c ∧
            id <$> a = id <$> c) ∧
    cache_allocated w' ∧ coherent w' ∧
    (∀ f, cache_allocated (callerWrites l f w') ∧ coherent (callerWrites l f w')).
Proof.
  destruct (getAllParents 3 (NumId 4) readWorld) as [[l w']|] eqn:Hcall;
    [|by vm_compute in Hcall].
  exists l, w'. split; [done|].
  apply (getAllParents_coherent 3 (NumId 4) readWorld l w').
  - exact readWorld_cache_allocated.
  - exact readWorld_coherent.
  - exact Hcall.
Defined.

Lemma updateItem_keeps_coherent_witness :
  ∃ fuel0 s',
    (∀ fuel, fuel0 ≤ fuel →
       updateItem fuel (item 9 5 (Some 3%Z) "Moved") (store readWorld)
       = Some (true, s')) ∧
    cache_allocated {| store := s'; heap := heap readWorld |} ∧
    coherent {| store := s'; heap := heap readWorld |}.
Proof.
  apply (updateItem_keeps_coherent (item 9 5 (Some 3%Z) "Moved")
           (item 4 5 (Some 2%Z) "Grandchild 2") readWorld).
  - exact readWorld_consistent.
  - vm_compute. reflexivity.
  - apply (acyclic_insert_ranked mockRank).
    + apply readWorld_ranked.
    + intros p [= <-]. vm_compute. lia.
  - exact readWorld_cache_allocated.
  - exact readWorld_coherent.
Defined.

Lemma removeItem_keeps_coherent_witness :
  ∃ fuel0 s',
    (∀ fuel, fuel0 ≤ fuel →
       removeItem fuel (NumId 3) (store readWorld) = Some (true, s')) ∧
    cache_allocated {| store := s'; heap := heap readWorld |} ∧
    coherent {| store := s'; heap := heap readWorld |}.
Proof.
  apply (removeItem_keeps_coherent (NumId 3) (item 2 3 (Some 1%Z) "Child 2")
           readWorld).
  - exact readWorld_consistent.
  - exists mockRank. apply readWorld_ranked.
  - vm_compute. reflexivity.
  - exact readWorld_cache_allocated.
  - exact readWorld_coherent.
Defined.

Lemma addItem_keeps_coherent_witness :
  ∃ fuel0 s',
    (∀ fuel, fuel0 ≤ fuel →
       addItem fuel (item 9 7 (Some 3%Z) "New Child") (store readWorld) = Some s') ∧
    cache_allocated {| store := s'; heap := heap readWorld |} ∧
    coherent {| store := s'; heap := heap readWorld |}.
Proof.
  apply (addItem_keeps_coherent (item 9 7 (Some 3%Z) "New Child") (NumId 3)
           readWorld).
  - exact readWorld_consistent.
  - vm_compute. reflexivity.
  - reflexivity.
  - apply (acyclic_insert_ranked mockRank).
    + apply readWorld_ranked.
    + intros p [= <-]. vm_compute. lia.
  - exact readWorld_cache_allocated.
  - exact readWorld_coherent.
Defined.
